(** * The security analysis engine of the API-mapper browser extension

    A shallow embedding of [security-analyzer.js] (class [SecurityAnalyzer]),
    of the summary step of [panel.js] ([updateSecuritySummary]) and of the
    properties the specification states about them; then of further rule
    checkers of the class, of the structure view and the schema export of
    [panel.js], of [escapeHtml] (config.js) and of [enforceMemoryLimits]
    (background script), with the properties the code itself shows.

    Conventions of the embedding:
    - JavaScript strings are modelled by [string] and read as ASCII text:
      case mapping ([toLowerCase], [toUpperCase]) acts on the ASCII letters
      and leaves every other character alone.
    - a JavaScript value is a [JsVal]; an object carries its own enumerable
      properties in the order [Object.entries] yields them.
    - header objects and the [callFrequency] map are finite maps ([gmap]).
    - a checker that raises an exception returns [Throw].
    - the wall clock is read once per [analyzeCall]: the reading [now] is what
      [Date.now()] and [new Date()] return during that (synchronous) call. *)

From Stdlib Require Import ZArith Ascii String List Bool Lia.
From stdpp Require Import base option list gmap strings pretty.

Local Open Scope Z_scope.

(* ================================================================== *)
(** ** JavaScript strings *)

Module JsString.

Definition is_upper (c : ascii) : bool :=
  (65 <=? N_of_ascii c)%N && (N_of_ascii c <=? 90)%N.

Definition is_lower (c : ascii) : bool :=
  (97 <=? N_of_ascii c)%N && (N_of_ascii c <=? 122)%N.

Definition is_digit (c : ascii) : bool :=
  (48 <=? N_of_ascii c)%N && (N_of_ascii c <=? 57)%N.

Definition lower_char (c : ascii) : ascii :=
  if is_upper c then ascii_of_N (N_of_ascii c + 32) else c.

Definition upper_char (c : ascii) : ascii :=
  if is_lower c then ascii_of_N (N_of_ascii c - 32) else c.

(** [s.toLowerCase()] *)
Fixpoint toLowerCase (s : string) : string :=
  match s with
  | EmptyString => EmptyString
  | String c s' => String (lower_char c) (toLowerCase s')
  end.

(** [s.toUpperCase()] *)
Fixpoint toUpperCase (s : string) : string :=
  match s with
  | EmptyString => EmptyString
  | String c s' => String (upper_char c) (toUpperCase s')
  end.

(** [s.startsWith(p)] *)
Fixpoint startsWith (s p : string) {struct p} : bool :=
  match p, s with
  | EmptyString, _ => true
  | String _ _, EmptyString => false
  | String a p', String b s' => if Ascii.eqb a b then startsWith s' p' else false
  end.

(** [s.includes(sub)] *)
Fixpoint includes (s sub : string) : bool :=
  startsWith s sub ||
  match s with
  | EmptyString => false
  | String _ s' => includes s' sub
  end.

(** [xs.join(sep)] on an array of strings *)
Fixpoint join (sep : string) (xs : list string) : string :=
  match xs with
  | [] => EmptyString
  | [x] => x
  | x :: rest => x +:+ sep +:+ join sep rest
  end.

(** Every character of [s] satisfies [p]. *)
Fixpoint all_chars (p : ascii -> bool) (s : string) : bool :=
  match s with
  | EmptyString => true
  | String c s' => p c && all_chars p s'
  end.

(** A string is truthy when it is not empty. *)
Definition nonempty (s : string) : bool :=
  match s with EmptyString => false | String _ _ => true end.

(** [xs.includes(x)] on an array of strings *)
Definition array_includes (xs : list string) (x : string) : bool :=
  existsb (String.eqb x) xs.

End JsString.
Import JsString.

(* ================================================================== *)
(** ** Regular expressions

    The regular expressions of the analyzer are literals; they are embedded
    as syntax trees and run by a derivative matcher.  [RegExp.prototype.test]
    on a pattern anchored at both ends is [re_test]; a pattern anchored at
    the start only is followed by [any_tail]. *)

Module Regex.

Inductive regex : Type :=
  | Void : regex
  | Eps : regex
  | Chars : (ascii -> bool) -> regex
  | Cat : regex -> regex -> regex
  | Alt : regex -> regex -> regex
  | Star : regex -> regex.

Fixpoint nullable (r : regex) : bool :=
  match r with
  | Void => false
  | Eps => true
  | Chars _ => false
  | Cat r1 r2 => nullable r1 && nullable r2
  | Alt r1 r2 => nullable r1 || nullable r2
  | Star _ => true
  end.

Fixpoint deriv (c : ascii) (r : regex) : regex :=
  match r with
  | Void => Void
  | Eps => Void
  | Chars p => if p c then Eps else Void
  | Cat r1 r2 =>
      if nullable r1 then Alt (Cat (deriv c r1) r2) (deriv c r2)
      else Cat (deriv c r1) r2
  | Alt r1 r2 => Alt (deriv c r1) (deriv c r2)
  | Star r1 => Cat (deriv c r1) (Star r1)
  end.

(** [/^r$/.test(s)] *)
Fixpoint re_test (r : regex) (s : string) : bool :=
  match s with
  | EmptyString => nullable r
  | String c s' => re_test (deriv c r) s'
  end.

(** The strings a regular expression denotes. *)
Inductive lang : regex -> string -> Prop :=
  | lang_eps : lang Eps EmptyString
  | lang_chars p c : p c = true -> lang (Chars p) (String c EmptyString)
  | lang_cat r1 r2 s1 s2 :
      lang r1 s1 -> lang r2 s2 -> lang (Cat r1 r2) (s1 +:+ s2)
  | lang_alt_l r1 r2 s : lang r1 s -> lang (Alt r1 r2) s
  | lang_alt_r r1 r2 s : lang r2 s -> lang (Alt r1 r2) s
  | lang_star_nil r : lang (Star r) EmptyString
  | lang_star_cons r s1 s2 :
      lang r s1 -> lang (Star r) s2 -> lang (Star r) (s1 +:+ s2).

(** [r+] *)
Definition Plus (r : regex) : regex := Cat r (Star r).

(** [r{n}] *)
Fixpoint Rep (n : nat) (r : regex) : regex :=
  match n with
  | O => Eps
  | S n' => Cat r (Rep n' r)
  end.

(** A literal character, and the same under the [i] flag. *)
Definition Lit (c : ascii) : regex := Chars (Ascii.eqb c).
Definition LitI (c : ascii) : regex :=
  Chars (fun x => Ascii.eqb (lower_char x) (lower_char c)).

(** A literal string, and the same under the [i] flag. *)
Fixpoint Str (s : string) : regex :=
  match s with
  | EmptyString => Eps
  | String c s' => Cat (Lit c) (Str s')
  end.
Fixpoint StrI (s : string) : regex :=
  match s with
  | EmptyString => Eps
  | String c s' => Cat (LitI c) (StrI s')
  end.

(** What may follow a pattern that is not anchored at its end. *)
Definition any_tail : regex := Star (Chars (fun _ => true)).

(** Character classes of the analyzer's patterns. *)
Definition is_alnum (c : ascii) : bool := is_upper c || is_lower c || is_digit c.
Definition one_of (set : string) (c : ascii) : bool :=
  existsb (Ascii.eqb c) (list_ascii_of_string set).

(** [[A-Za-z0-9+/=]] *)
Definition cls_base64 (c : ascii) : bool := is_alnum c || one_of "+/=" c.
(** [[a-fA-F0-9]] *)
Definition cls_hex (c : ascii) : bool :=
  is_digit c
  || ((97 <=? N_of_ascii c)%N && (N_of_ascii c <=? 102)%N)
  || ((65 <=? N_of_ascii c)%N && (N_of_ascii c <=? 70)%N).
(** [[A-Za-z0-9_-]] *)
Definition cls_base64url (c : ascii) : bool := is_alnum c || one_of "_-" c.
(** [\d] *)
Definition cls_digit (c : ascii) : bool := is_digit c.
(** [\w] *)
Definition cls_word (c : ascii) : bool := is_alnum c || one_of "_" c.
(** [[A-Za-z0-9+/=_-]] *)
Definition cls_base64_any (c : ascii) : bool := is_alnum c || one_of "+/=_-" c.
(** [\s] on ASCII: tab, line feed, vertical tab, form feed, carriage
    return and space. *)
Definition cls_space (c : ascii) : bool :=
  ((9 <=? N_of_ascii c)%N && (N_of_ascii c <=? 13)%N) || (N_of_ascii c =? 32)%N.

End Regex.
Import Regex.

(* ================================================================== *)
(** ** JavaScript values *)

(** [Array.isArray] tells the two kinds of object apart. *)
Inductive ObjKind : Type := Plain | IsArray.

(** The values that flow through the analyzer: what [JSON.parse] builds,
    and [undefined].  [VObj k props] is an object (or array) whose own
    enumerable properties, in the order [Object.entries] yields them, are
    [props]; an array's keys are its indices.  Numbers are integral: the
    analyzer looks at a number's type and truthiness only. *)
#[warnings="-register-all"]
Inductive JsVal : Type :=
  | VUndefined : JsVal
  | VNull : JsVal
  | VBool : bool -> JsVal
  | VNum : Z -> JsVal
  | VStr : string -> JsVal
  | VObj : ObjKind -> list (string * JsVal) -> JsVal.

(** The array literal [[v0, v1, ...]]. *)
Fixpoint index_from (i : nat) (vs : list JsVal) : list (string * JsVal) :=
  match vs with
  | [] => []
  | v :: rest => (pretty i, v) :: index_from (S i) rest
  end.
Definition VArr (vs : list JsVal) : JsVal := VObj IsArray (index_from 0 vs).

(** The empty object literal. *)
Definition empty_object : JsVal := VObj Plain [].

(** Truthiness: what [!v] negates. *)
Definition truthy (v : JsVal) : bool :=
  match v with
  | VUndefined | VNull => false
  | VBool b => b
  | VNum n => negb (n =? 0)
  | VStr s => nonempty s
  | VObj _ _ => true
  end.

(** [typeof v === 'object'] (true of [null] as well). *)
Definition typeof_object (v : JsVal) : bool :=
  match v with
  | VNull | VObj _ _ => true
  | _ => false
  end.

(** [v !== null] *)
Definition not_null (v : JsVal) : bool :=
  match v with VNull => false | _ => true end.

(** [a || b] on values. *)
Definition js_or (a b : JsVal) : JsVal := if truthy a then a else b.

(** A property read [o[k]] on a header object: [None] is [undefined].
    [a || b] on two such reads keeps the first truthy one. *)
Definition or_str (a b : option string) : option string :=
  match a with
  | Some s => if nonempty s then a else b
  | None => b
  end.

(** Truthiness of a header read. *)
Definition truthy_str (a : option string) : bool :=
  match a with
  | Some s => nonempty s
  | None => false
  end.

(* ================================================================== *)
(** ** Value extraction utilities *)

(** [fieldNames.some(field => key.toLowerCase().includes(field.toLowerCase()))] *)
Definition key_matches (fieldNames : list string) (key : string) : bool :=
  existsb (fun field => includes (toLowerCase key) (toLowerCase field)) fieldNames.

(** [path ? `${path}.${key}` : key] *)
Definition child_path (path key : string) : string :=
  if nonempty path then path +:+ "." +:+ key else key.

(** The inner function [search] of [findFieldsInObject], run with
    [includeValues = true]: the entries pushed to [found], in order. *)
Fixpoint search (fieldNames : list string) (object : JsVal) (path : string)
  : list (string * JsVal) :=
  match object with
  | VObj _ props =>
      (fix entries (ps : list (string * JsVal)) : list (string * JsVal) :=
         match ps with
         | [] => []
         | (key, value) :: rest =>
             let currentPath := child_path path key in
             (if key_matches fieldNames key then [(currentPath, value)] else [])
             ++ match value with
                | VObj _ _ => search fieldNames value currentPath
                | _ => []
                end
             ++ entries rest
         end) props
  | _ => []
  end.

(** [findFieldsInObject(obj, fieldNames, true)] (security-analyzer.js,
    lines 959-984): entries [{path, value}]. *)
Definition findFieldsInObjectWithValues (obj : JsVal) (fieldNames : list string)
  : list (string * JsVal) :=
  search fieldNames obj "".

(** [findFieldsInObject(obj, fieldNames)]: the paths alone. *)
Definition findFieldsInObject (obj : JsVal) (fieldNames : list string)
  : list string :=
  (search fieldNames obj "").*1.

(** [findFieldValue(obj, fieldName)] (security-analyzer.js, lines 989-1004).
    [null] stands for "not found": a nested search that returns [null] is
    carried on with the next key. *)
Fixpoint findFieldValue (obj : JsVal) (fieldName : string) : JsVal :=
  match obj with
  | VObj _ props =>
      (fix entries (ps : list (string * JsVal)) : JsVal :=
         match ps with
         | [] => VNull
         | (key, value) :: rest =>
             if String.eqb (toLowerCase key) (toLowerCase fieldName) then value
             else
               match value with
               | VObj _ _ =>
                   let found := findFieldValue value fieldName in
                   if not_null found then found else entries rest
               | _ => entries rest
               end
         end) props
  | _ => VNull
  end.

(** The seven patterns of [isEncryptedOrHashed], in the order tested. *)
(** [/^[A-Za-z0-9+/=]+\|[A-Za-z0-9+/=]+$/] *)
Definition re_payload_iv : regex :=
  Cat (Plus (Chars cls_base64)) (Cat (Lit "|") (Plus (Chars cls_base64))).
(** [/^[A-Za-z0-9+/=]+$/] *)
Definition re_base64 : regex := Plus (Chars cls_base64).
(** [/^[a-fA-F0-9]+$/] *)
Definition re_hex : regex := Plus (Chars cls_hex).
(** [/^[A-Za-z0-9_-]+\.[A-Za-z0-9_-]+\.[A-Za-z0-9_-]+$/] *)
Definition re_jwt : regex :=
  Cat (Plus (Chars cls_base64url))
    (Cat (Lit ".") (Cat (Plus (Chars cls_base64url))
       (Cat (Lit ".") (Plus (Chars cls_base64url))))).
(** [/^\$2[aby]\$\d{2}\$/] *)
Definition re_bcrypt : regex :=
  Cat (Str "$2") (Cat (Chars (one_of "aby")) (Cat (Lit "$")
    (Cat (Rep 2 (Chars cls_digit)) (Cat (Lit "$") any_tail)))).
(** [/^\$\w+\$/] *)
Definition re_salted : regex :=
  Cat (Lit "$") (Cat (Plus (Chars cls_word)) (Cat (Lit "$") any_tail)).
(** [/^[A-Za-z0-9+/=_-]+$/] *)
Definition re_long_token : regex := Plus (Chars cls_base64_any).

(** [isEncryptedOrHashed(value)] (security-analyzer.js, lines 1009-1050) *)
Definition isEncryptedOrHashed (value : JsVal) : bool :=
  match value with
  | VStr s =>
      if negb (nonempty s) then false
      else if re_test re_payload_iv s then true
      else if (32 <=? Z.of_nat (String.length s))
              && re_test re_base64 s
              && (includes s "=" || (Z.of_nat (String.length s) mod 4 =? 0))
      then true
      else if (64 <=? Z.of_nat (String.length s)) && re_test re_hex s then true
      else if re_test re_jwt s then true
      else if re_test re_bcrypt s then true
      else if re_test re_salted s then true
      else if (40 <=? Z.of_nat (String.length s)) && re_test re_long_token s then true
      else false
  | _ => false
  end.

(* ================================================================== *)
(** ** Data model *)

(** A rule of [this.rules] (one entry of [security-rules.json]).  The
    optional fields are the rule-specific properties the modelled checkers
    read; [None] is a property the entry does not have ([undefined]).
    [r_settings] stands for the remaining rule-specific properties. *)
Record Rule : Type := mkRule {
  r_enabled : bool;
  r_severity : string;
  r_name : string;
  r_description : string;
  r_message : option string;
  r_headers : option (list string);
  r_threshold : option Z;
  r_timeWindow : option Z;
  r_excludeEndpoints : option (list string);
  r_identityFields : option (list string);
  r_settings : JsVal
}.

(** The call record handed over by the network-capture scripts. *)
Record CallDetails : Type := mkCallDetails {
  cd_url : string;
  cd_method : option string;
  cd_allHeaders : option (gmap string string);
  cd_queryParams : option (list (string * string));
  cd_requestBody : JsVal;
  cd_status : option Z;
  cd_responseHeaders : option (gmap string string);
  cd_responseBody : option string
}.

(** The [context] object [analyzeCall] passes to every checker. *)
Record Context : Type := mkContext {
  ctx_url : string;
  ctx_method : string;
  ctx_headers : gmap string string;
  ctx_queryParams : list (string * string);
  ctx_requestBody : JsVal;
  ctx_callDetails : option CallDetails
}.

(** What a checker pushes to [issues]. *)
Record Issue : Type := mkIssue {
  i_message : option string;
  i_details : JsVal;
  i_location : option string
}.

(** What [analyzeCall] pushes to [vulnerabilities]. *)
Record Finding : Type := mkFinding {
  f_ruleId : string;
  f_severity : string;
  f_name : string;
  f_description : string;
  f_message : option string;
  f_details : JsVal;
  f_location : string;
  f_timestamp : Z
}.

(** The outcome of a checker: the array it returns, or an exception. *)
Inductive CheckResult : Type :=
  | Ok : list Issue -> CheckResult
  | Throw : CheckResult.

(** The fields of a [SecurityAnalyzer] instance; the registry lists the
    rules in the order of [Object.entries(this.rules)]. *)
Record Analyzer : Type := mkAnalyzer {
  rules : option (list (string * Rule));
  initialized : bool;
  callFrequency : gmap string (list Z)
}.

(** A checker is a method: it reads and may update [this]. *)
Definition Checker : Type := Analyzer -> Z -> Context -> Analyzer * CheckResult.

(** The host the analyzer runs on, and the checkers this development does
    not look into.
    - [url_pathname u] is [new URL(u).pathname]; [None] when the constructor
      throws (the URL does not parse).
    - [other_checker id rule context] is the body of the checker registered
      for rule [id], run on its own entry [rule = this.rules[id]].  Each of
      these checkers starts by reading [this.rules] at its own id, then works
      on that entry, on its context and with the value extraction
      utilities; none reads another entry, the clock or [callFrequency], and
      none writes to [this] or to its context. *)
Class Host : Type := {
  url_pathname : string -> option string;
  other_checker : string -> option Rule -> Context -> CheckResult
}.

(** [obj[key]] on the rule table. *)
Fixpoint assoc {A : Type} (key : string) (entries : list (string * A)) : option A :=
  match entries with
  | [] => None
  | (k, v) :: rest => if String.eqb k key then Some v else assoc key rest
  end.

(** [this.rules[id]], for a checker: reading a property of [null] throws. *)
Definition with_rule (this : Analyzer) (id : string)
    (body : option Rule -> CheckResult) : CheckResult :=
  match rules this with
  | None => Throw
  | Some rs => body (assoc id rs)
  end.

(** [(context.callDetails && context.callDetails.responseHeaders) || {}] *)
Definition response_headers (context : Context) : gmap string string :=
  default ∅ (ctx_callDetails context ≫= cd_responseHeaders).

(** [Object.keys(h)] *)
Definition header_keys (h : gmap string string) : list string :=
  (map_to_list h).*1.

(* ================================================================== *)
(** ** Rule checkers *)

Section Checkers.
Context {host : Host}.

(** [checkMissingResponseSecurityHeaders(context)] (security-analyzer.js,
    lines 256-275).  Reading [rule.headers] throws when the rule or its
    [headers] is missing. *)
Definition checkMissingResponseSecurityHeaders (this : Analyzer) (context : Context)
  : CheckResult :=
  with_rule this "missing-response-security-headers" (fun rule =>
    let responseHeaders := response_headers context in
    let headerNames := toLowerCase <$> header_keys responseHeaders in
    match rule ≫= r_headers with
    | None => Throw
    | Some configured =>
        let missingHeaders :=
          filter (fun h => array_includes headerNames (toLowerCase h) = false) configured in
        if (0 <? Z.of_nat (length missingHeaders))
        then Ok [ {| i_message :=
                       Some ("Missing recommended security headers: " +:+ join ", " missingHeaders);
                     i_details := VObj Plain [("missingHeaders", VArr (VStr <$> missingHeaders))];
                     i_location := Some "response-headers" |} ]
        else Ok []
    end).

(** The two reads of [checkCorsMisconfiguration]. *)
Definition cors_acao (responseHeaders : gmap string string) : option string :=
  or_str (responseHeaders !! "Access-Control-Allow-Origin")
         (responseHeaders !! "access-control-allow-origin").
Definition cors_acac (responseHeaders : gmap string string) : option string :=
  or_str (responseHeaders !! "Access-Control-Allow-Credentials")
         (responseHeaders !! "access-control-allow-credentials").

(** A header read as a value, for a [details] object. *)
Definition header_val (a : option string) : JsVal :=
  match a with Some s => VStr s | None => VUndefined end.

(** [checkCorsMisconfiguration(context)] (security-analyzer.js, lines
    280-299).  The rule is read for its message only, once the condition
    holds. *)
Definition checkCorsMisconfiguration (this : Analyzer) (context : Context)
  : CheckResult :=
  let responseHeaders := response_headers context in
  let acao := cors_acao responseHeaders in
  let acac := cors_acac responseHeaders in
  if bool_decide (acao = Some "*") && truthy_str acac
     && bool_decide (toLowerCase <$> acac = Some "true")
  then
    with_rule this "cors-misconfiguration" (fun rule =>
      match rule with
      | None => Throw
      | Some r =>
          Ok [ {| i_message := r_message r;
                  i_details := VObj Plain [("acao", header_val acao); ("acac", header_val acac)];
                  i_location := Some "response-headers" |} ]
      end)
  else Ok [].

(** [calls.filter(time => now - time < rule.timeWindow)]; a comparison with
    [undefined] is false. *)
Definition recent_calls (now : Z) (timeWindow : option Z) (calls : list Z) : list Z :=
  match timeWindow with
  | Some w => filter (fun time => now - time < w) calls
  | None => []
  end.

(** An optional number as a value, for a [details] object. *)
Definition num_val (a : option Z) : JsVal :=
  match a with Some n => VNum n | None => VUndefined end.

(** [checkRateLimiting(context)] (security-analyzer.js, lines 452-488): the
    only checker that reads the clock and that updates [this.callFrequency].
    [new URL] throws before the table is touched; a missing rule throws in
    the [filter], once the call is pushed.  The rate-limit headers are looked
    up in [context.headers], the request headers. *)
Definition checkRateLimiting (this : Analyzer) (now : Z) (context : Context)
  : Analyzer * CheckResult :=
  match rules this with
  | None => (this, Throw)
  | Some rs =>
      let rule := assoc "insufficient-rate-limiting" rs in
      match url_pathname (ctx_url context) with
      | None => (this, Throw)
      | Some pathname =>
          let endpoint := ctx_method context +:+ " " +:+ pathname in
          let calls := default [] (callFrequency this !! endpoint) ++ [now] in
          match rule with
          | None =>
              ({| rules := rules this; initialized := initialized this;
                  callFrequency := <[endpoint := calls]> (callFrequency this) |}, Throw)
          | Some r =>
              let recentCalls := recent_calls now (r_timeWindow r) calls in
              let this' :=
                {| rules := rules this; initialized := initialized this;
                   callFrequency := <[endpoint := recentCalls]> (callFrequency this) |} in
              let exceeded :=
                match r_threshold r with
                | Some t => t <? Z.of_nat (length recentCalls)
                | None => false
                end in
              if exceeded then
                let hasRateLimitHeaders :=
                  or_str (or_str (ctx_headers context !! "X-RateLimit-Limit")
                                 (ctx_headers context !! "x-ratelimit-limit"))
                         (ctx_headers context !! "RateLimit-Limit") in
                if truthy_str hasRateLimitHeaders then (this', Ok [])
                else
                  (this',
                   Ok [ {| i_message := r_message r;
                           i_details :=
                             VObj Plain [("callCount", VNum (Z.of_nat (length recentCalls)));
                                         ("threshold", num_val (r_threshold r));
                                         ("timeWindow", num_val (r_timeWindow r))];
                           i_location := Some "general" |} ])
              else (this', Ok [])
          end
      end
  end.

(** The two patterns of the JWT detection:
    [/^Bearer\s+eyJ/i] and [/^eyJ/]. *)
Definition re_bearer_jwt : regex :=
  Cat (StrI "Bearer") (Cat (Plus (Chars cls_space)) (Cat (StrI "eyJ") any_tail)).
Definition re_direct_jwt : regex := Cat (Str "eyJ") any_tail.

(** [headers['Authorization'] || headers['authorization'] ||
     headers['AUTHORIZATION'] || headers['Auth'] || headers['auth']] *)
Definition auth_header (headers : gmap string string) : option string :=
  or_str (or_str (or_str (or_str (headers !! "Authorization") (headers !! "authorization"))
                         (headers !! "AUTHORIZATION"))
                 (headers !! "Auth"))
         (headers !! "auth").

(** [authHeader && (/^Bearer\s+eyJ/i.test(authHeader) || /^eyJ/.test(authHeader)
     || authHeader.includes('eyJ'))], as a condition. *)
Definition hasJWT (authHeader : option string) : bool :=
  match authHeader with
  | Some v =>
      nonempty v && (re_test re_bearer_jwt v || re_test re_direct_jwt v || includes v "eyJ")
  | None => false
  end.

(** [['POST', 'PUT', 'PATCH'].includes(method.toUpperCase())] *)
Definition is_write_method (method : string) : bool :=
  array_includes ["POST"; "PUT"; "PATCH"] (toUpperCase method).

(** [rule.excludeEndpoints.some(endpoint => urlPath.includes(endpoint.toLowerCase()))] *)
Definition is_excluded (excludeEndpoints : list string) (urlPath : string) : bool :=
  existsb (fun endpoint => includes urlPath (toLowerCase endpoint)) excludeEndpoints.

(** [Object.entries(v)] is empty. *)
Definition no_entries (v : JsVal) : bool :=
  match v with
  | VObj _ (_ :: _) => false
  | _ => true
  end.

(** The [details] of the finding of [checkUntrustedClientIdentity]. *)
Definition identity_details (foundFields : list string) : JsVal :=
  VObj Plain
    [("fields", VArr (VStr <$> foundFields));
     ("recommendation",
      VStr "Extract user identity (email, userId) from JWT claims on server-side. Never trust client-supplied identity when authenticated.");
     ("impact", VStr "Account takeover, privilege escalation, unauthorized access");
     ("cwe", VStr "CWE-639: Authorization Bypass Through User-Controlled Key")].

(** [checkUntrustedClientIdentity(context)] (security-analyzer.js, lines
    887-954).  [new URL] throws on a URL that does not parse, before the
    method is looked at; [rule.excludeEndpoints.some] throws when the list is
    missing; [findFieldsInObject] throws on the first entry of the body when
    [rule.identityFields] is missing. *)
Definition checkUntrustedClientIdentity (this : Analyzer) (context : Context)
  : CheckResult :=
  with_rule this "untrusted-client-identity" (fun rule =>
    match rule with
    | None => Ok []
    | Some r =>
        let headers := ctx_headers context in
        let requestBody := ctx_requestBody context in
        match url_pathname (ctx_url context) with
        | None => Throw
        | Some pathname =>
            let urlPath := toLowerCase pathname in
            let method := if nonempty (ctx_method context) then ctx_method context else "GET" in
            if negb (is_write_method method) then Ok []
            else
              match r_excludeEndpoints r with
              | None => Throw
              | Some excludeEndpoints =>
                  if is_excluded excludeEndpoints urlPath then Ok []
                  else if negb (truthy requestBody) || negb (typeof_object requestBody)
                  then Ok []
                  else if hasJWT (auth_header headers) then
                    match r_identityFields r with
                    | None => if no_entries requestBody then Ok [] else Throw
                    | Some identityFields =>
                        let foundFields := findFieldsInObject requestBody identityFields in
                        if (0 <? Z.of_nat (length foundFields))
                        then Ok [ {| i_message := r_message r;
                                     i_details := identity_details foundFields;
                                     i_location := Some "body" |} ]
                        else Ok []
                    end
                  else Ok []
              end
        end
    end).

End Checkers.

(* ================================================================== *)
(** ** Analysis orchestrator *)

Section Orchestrator.
Context {host : Host}.

(** A checker that leaves [this] alone and does not read the clock. *)
Definition method_of (f : Analyzer -> Context -> CheckResult) : Checker :=
  fun this _ context => (this, f this context).

(** A checker this development does not look into: it reads its own rule. *)
Definition checker_of (id : string) : Checker :=
  method_of (fun this context => with_rule this id (fun rule => other_checker id rule context)).

(** The rule ids of [getRuleChecker] whose checkers are not looked into. *)
Definition other_rule_ids : list string :=
  [ "sensitive-data-in-url"; "sensitive-headers"; "weak-authentication";
    "insecure-http"; "pii-in-request-body"; "pii-in-response-body";
    "excessive-data-exposure"; "sql-injection-risk"; "xss-risk";
    "path-traversal-risk"; "weak-password-policy"; "verbose-error-messages";
    "predictable-resource-ids"; "missing-authentication"; "mass-assignment";
    "unencrypted-sensitive-data"; "insecure-cookies"; "missing-input-validation";
    "hardcoded-secrets"; "open-redirect"; "ssrf-risk"; "debug-endpoints" ].

(** [getRuleChecker(ruleId)] (security-analyzer.js, lines 88-119): the
    checker registered for a rule id.  An id outside the table yields no
    checker, hence no finding.  (An id that names a property the table
    inherits, such as [toString], yields a function that is no checker:
    called, it returns no array of issues or throws, and [analyzeCall] gets
    no finding from it either.) *)
Definition getRuleChecker (ruleId : string) : option Checker :=
  if String.eqb ruleId "missing-response-security-headers"
  then Some (method_of checkMissingResponseSecurityHeaders)
  else if String.eqb ruleId "cors-misconfiguration"
  then Some (method_of checkCorsMisconfiguration)
  else if String.eqb ruleId "insufficient-rate-limiting"
  then Some checkRateLimiting
  else if String.eqb ruleId "untrusted-client-identity"
  then Some (method_of checkUntrustedClientIdentity)
  else if array_includes other_rule_ids ruleId
  then Some (checker_of ruleId)
  else None.

(** [issue.message || rule.message] *)
Definition or_message (a b : option string) : option string := or_str a b.

(** The object pushed to [vulnerabilities] for one issue. *)
Definition finding_of (ruleId : string) (rule : Rule) (now : Z) (issue : Issue) : Finding :=
  {| f_ruleId := ruleId;
     f_severity := r_severity rule;
     f_name := r_name rule;
     f_description := r_description rule;
     f_message := or_message (i_message issue) (r_message rule);
     f_details := js_or (i_details issue) empty_object;
     f_location := default "general" (or_str (i_location issue) None);
     f_timestamp := now |}.

(** One turn of the loop over [Object.entries(this.rules)], for a given
    checker table: the findings it pushes. *)
Definition check_rule (table : string -> option Checker)
    (entry : string * Rule) (this : Analyzer) (now : Z) (context : Context)
  : Analyzer * list Finding :=
  let '(ruleId, rule) := entry in
  if negb (r_enabled rule) then (this, [])
  else
    match table ruleId with
    | None => (this, [])
    | Some ruleChecks =>
        match ruleChecks this now context with
        | (this', Ok issues) => (this', finding_of ruleId rule now <$> issues)
        | (this', Throw) => (this', [])
        end
    end.

(** The loop. *)
Fixpoint check_rules (table : string -> option Checker)
    (entries : list (string * Rule)) (this : Analyzer) (now : Z) (context : Context)
  : Analyzer * list Finding :=
  match entries with
  | [] => (this, [])
  | entry :: rest =>
      let '(this1, found) := check_rule table entry this now context in
      let '(this2, more) := check_rules table rest this1 now context in
      (this2, found ++ more)
  end.

(** The context [analyzeCall] builds from [callDetails]. *)
Definition context_of (callDetails : CallDetails) : Context :=
  {| ctx_url := cd_url callDetails;
     ctx_method := default "GET" (or_str (cd_method callDetails) None);
     ctx_headers := default ∅ (cd_allHeaders callDetails);
     ctx_queryParams := default [] (cd_queryParams callDetails);
     ctx_requestBody := js_or (cd_requestBody callDetails) empty_object;
     ctx_callDetails := Some callDetails |}.

(** [analyzeCall(callDetails)] (security-analyzer.js, lines 34-83) over a
    given checker table: the analyzer after the call and the array
    returned. *)
Definition analyzeCallWith (table : string -> option Checker)
    (this : Analyzer) (now : Z) (callDetails : CallDetails)
  : Analyzer * list Finding :=
  if negb (initialized this) then (this, [])
  else
    match rules this with
    | None => (this, [])
    | Some entries => check_rules table entries this now (context_of callDetails)
    end.

(** [analyzeCall(callDetails)] *)
Definition analyzeCall (this : Analyzer) (now : Z) (callDetails : CallDetails)
  : Analyzer * list Finding :=
  analyzeCallWith getRuleChecker this now callDetails.

End Orchestrator.

(* ================================================================== *)
(** ** Aggregation and summary *)

(** The per-severity counters of a summary. *)
Record Summary : Type := mkSummary {
  s_critical : Z;
  s_high : Z;
  s_medium : Z;
  s_low : Z
}.

Definition no_counts : Summary :=
  {| s_critical := 0; s_high := 0; s_medium := 0; s_low := 0 |}.

(** [summary[severity]++], guarded by [summary.hasOwnProperty(severity)]. *)
Definition bump (severity : string) (summary : Summary) : Summary :=
  if String.eqb severity "critical" then
    {| s_critical := s_critical summary + 1; s_high := s_high summary;
       s_medium := s_medium summary; s_low := s_low summary |}
  else if String.eqb severity "high" then
    {| s_critical := s_critical summary; s_high := s_high summary + 1;
       s_medium := s_medium summary; s_low := s_low summary |}
  else if String.eqb severity "medium" then
    {| s_critical := s_critical summary; s_high := s_high summary;
       s_medium := s_medium summary + 1; s_low := s_low summary |}
  else if String.eqb severity "low" then
    {| s_critical := s_critical summary; s_high := s_high summary;
       s_medium := s_medium summary; s_low := s_low summary + 1 |}
  else summary.

(** [issue.rule], as the template literal renders it.  The objects
    [analyzeCall] builds carry [ruleId, severity, name, description,
    message, details, location, timestamp]: they have no property [rule],
    and the read yields [undefined]. *)
Definition issue_rule (issue : Finding) : option string := None.

(** [`${v}`] for a string or [undefined]. *)
Definition template (v : option string) : string := default "undefined" v.

(** [`${issue.severity}:${issue.rule}:${issue.message || ''}`] *)
Definition issue_key (issue : Finding) : string :=
  template (Some (f_severity issue)) +:+ ":" +:+ template (issue_rule issue) +:+ ":"
  +:+ template (Some (default "" (or_str (f_message issue) None))).

(** [uniqueIssues]: a [Map] from key to issue, in insertion order, filled by
    [if (!uniqueIssues.has(key)) uniqueIssues.set(key, issue)]. *)
Fixpoint unique_issues (issues : list Finding) (uniqueIssues : list (string * Finding))
  : list (string * Finding) :=
  match issues with
  | [] => uniqueIssues
  | issue :: rest =>
      let key := issue_key issue in
      match assoc key uniqueIssues with
      | Some _ => unique_issues rest uniqueIssues
      | None => unique_issues rest (uniqueIssues ++ [(key, issue)])
      end
  end.

(** The body of the [filteredEndpoints.forEach] of [updateSecuritySummary]
    (panel.js, lines 2373-2392), for one endpoint; [securityIssues = None]
    is an endpoint without an array of issues. *)
Definition count_endpoint (securityIssues : option (list Finding)) (summary : Summary)
  : Summary :=
  match securityIssues with
  | None => summary
  | Some issues =>
      fold_left (fun acc entry => bump (f_severity (snd entry)) acc)
                (unique_issues issues []) summary
  end.

(** [updateSecuritySummary()] (panel.js, lines 2363-2392): the counters it
    shows, given the [securityIssues] of the filtered endpoints. *)
Definition updateSecuritySummary (filteredEndpoints : list (option (list Finding)))
  : Summary :=
  fold_left (fun acc issues => count_endpoint issues acc) filteredEndpoints no_counts.

(** [getVulnerabilitySummary(vulnerabilities)] (security-analyzer.js, lines
    1077-1101): [total] and the four
    per-severity counters of the summary it returns ([byRule] is left out).
    [summary[vuln.severity]++] has no guard: the severity ["total"] bumps
    [total]; the severity ["byRule"] overwrites [byRule] by a number, and the
    assignment that follows throws ([None]); any other severity outside the
    four creates a property of its own. *)
Fixpoint count_vulnerabilities (vulnerabilities : list Finding) (acc : Z * Summary)
  : option (Z * Summary) :=
  match vulnerabilities with
  | [] => Some acc
  | vuln :: rest =>
      if String.eqb (f_severity vuln) "byRule" then None
      else if String.eqb (f_severity vuln) "total"
      then count_vulnerabilities rest (fst acc + 1, snd acc)
      else count_vulnerabilities rest (fst acc, bump (f_severity vuln) (snd acc))
  end.
Definition getVulnerabilitySummary (vulnerabilities : list Finding)
  : option (Z * Summary) :=
  count_vulnerabilities vulnerabilities (Z.of_nat (length vulnerabilities), no_counts).

(* ================================================================== *)
(** ** Notions the properties are stated with *)

(** The entries [(key, value)] of a structure, nested ones included, in
    depth-first pre-order: an entry comes before the entries of its value,
    and these before its next sibling. *)
Fixpoint preorder (v : JsVal) : list (string * JsVal) :=
  match v with
  | VObj _ props =>
      (fix entries (ps : list (string * JsVal)) : list (string * JsVal) :=
         match ps with
         | [] => []
         | (key, value) :: rest => (key, value) :: preorder value ++ entries rest
         end) props
  | _ => []
  end.

(** Exact, case-insensitive match of a key. *)
Definition name_eq (fieldName : string) (entry : string * JsVal) : bool :=
  String.eqb (toLowerCase (fst entry)) (toLowerCase fieldName).

(** The values of the matching keys found exactly [depth] levels below the
    root (the root's own keys are at depth 0), in the order of the keys. *)
Fixpoint level_matches (depth : nat) (fieldName : string) (v : JsVal) : list JsVal :=
  match v with
  | VObj _ props =>
      match depth with
      | O => snd <$> List.filter (name_eq fieldName) props
      | S d => flat_map (fun entry => level_matches d fieldName (snd entry)) props
      end
  | _ => []
  end.

(** The number of nested levels of a structure. *)
Fixpoint height (v : JsVal) : nat :=
  match v with
  | VObj _ props =>
      S ((fix entries (ps : list (string * JsVal)) : nat :=
            match ps with
            | [] => O
            | (_, value) :: rest => Nat.max (height value) (entries rest)
            end) props)
  | _ => O
  end.

(** The search as the specification words it: the value at the shallowest
    matching key, the earliest one at that depth. *)
Fixpoint shallowest_from (fuel depth : nat) (fieldName : string) (v : JsVal)
  : option JsVal :=
  match level_matches depth fieldName v with
  | x :: _ => Some x
  | [] =>
      match fuel with
      | O => None
      | S fuel' => shallowest_from fuel' (S depth) fieldName v
      end
  end.
Definition shallowest_match (v : JsVal) (fieldName : string) : option JsVal :=
  shallowest_from (height v) 0 fieldName v.

(** [FieldAt obj prefix path key value]: the structure [obj], itself reached
    under the dotted path [prefix], holds the entry [(key, value)] under the
    dotted path [path]. *)
Inductive FieldAt : JsVal -> string -> string -> string -> JsVal -> Prop :=
  | FieldAt_own k props prefix key value :
      In (key, value) props ->
      FieldAt (VObj k props) prefix (child_path prefix key) key value
  | FieldAt_nested k props prefix key child path key' value :
      In (key, child) props ->
      FieldAt child (child_path prefix key) path key' value ->
      FieldAt (VObj k props) prefix path key' value.

(** A key matches a configured name when, case apart, it contains it. *)
Definition KeyMatches (fieldNames : list string) (key : string) : Prop :=
  exists field a b,
    In field fieldNames /\ toLowerCase key = a +:+ toLowerCase field +:+ b.

(** The method, upper-cased, is POST, PUT or PATCH. *)
Definition WriteMethod (method : string) : Prop :=
  toUpperCase method = "POST" \/ toUpperCase method = "PUT"
  \/ toUpperCase method = "PATCH".

(** The path, case apart, contains a configured excluded substring. *)
Definition PathExcluded (excludeEndpoints : list string) (pathname : string) : Prop :=
  exists endpoint a b,
    In endpoint excludeEndpoints
    /\ toLowerCase pathname = a +:+ toLowerCase endpoint +:+ b.

(** The body is a structured object (an object or an array). *)
Definition Structured (v : JsVal) : Prop := exists k props, v = VObj k props.

(** A header value of JWT shape: [Bearer], white space and [eyJ] at its
    start, letter case apart; or [eyJ] anywhere. *)
Definition BearerJwt (v : string) : Prop :=
  exists b ws t rest,
    v = b +:+ ws +:+ t +:+ rest
    /\ toLowerCase b = "bearer"
    /\ ws <> "" /\ all_chars cls_space ws = true
    /\ toLowerCase t = "eyj".
Definition JwtShaped (v : string) : Prop :=
  BearerJwt v \/ exists a b, v = a +:+ "eyJ" +:+ b.

(** The header names the untrusted-client-identity checker reads, in the
    order it reads them. *)
Definition auth_variants : list string :=
  ["Authorization"; "authorization"; "AUTHORIZATION"; "Auth"; "auth"].

(** [HeaderRead headers names v]: [v] is the value of the first of [names]
    that [headers] carries with a non-empty value. *)
Definition HeaderRead (headers : gmap string string) (names : list string) (v : string)
  : Prop :=
  exists (i : nat) (name : string),
    names !! i = Some name /\ headers !! name = Some v /\ v <> ""
    /\ forall (j : nat) (other : string),
         (j < i)%nat -> names !! j = Some other -> truthy_str (headers !! other) = false.

(** Some header of the Authorization family carries a value of JWT shape. *)
Definition SomeAuthHeaderJwt (headers : gmap string string) : Prop :=
  exists name v, In name auth_variants /\ headers !! name = Some v /\ JwtShaped v.

(** The fields of a finding that do not depend on the clock. *)
Definition untimed (f : Finding) : Finding :=
  {| f_ruleId := f_ruleId f; f_severity := f_severity f; f_name := f_name f;
     f_description := f_description f; f_message := f_message f;
     f_details := f_details f; f_location := f_location f; f_timestamp := 0 |}.

(** The findings of rules other than [id]. *)
Definition without_rule (id : string) (findings : list Finding) : list Finding :=
  List.filter (fun f => negb (String.eqb (f_ruleId f) id)) findings.

(** The registry with rule [id] switched on or off. *)
Definition set_enabled (id : string) (flag : bool) (entries : list (string * Rule))
  : list (string * Rule) :=
  (fun entry : string * Rule =>
     if String.eqb (fst entry) id
     then (fst entry,
           {| r_enabled := flag; r_severity := r_severity (snd entry);
              r_name := r_name (snd entry); r_description := r_description (snd entry);
              r_message := r_message (snd entry); r_headers := r_headers (snd entry);
              r_threshold := r_threshold (snd entry);
              r_timeWindow := r_timeWindow (snd entry);
              r_excludeEndpoints := r_excludeEndpoints (snd entry);
              r_identityFields := r_identityFields (snd entry);
              r_settings := r_settings (snd entry) |})
     else entry) <$> entries.

(** The registry without rule [id]. *)
Definition remove_rule (id : string) (entries : list (string * Rule))
  : list (string * Rule) :=
  List.filter (fun entry => negb (String.eqb (fst entry) id)) entries.

(** An analyzer, initialized, over a registry. *)
Definition analyzer_over (entries : list (string * Rule)) (calls : gmap string (list Z))
  : Analyzer :=
  {| rules := Some entries; initialized := true; callFrequency := calls |}.

(** Two registries that hold the same entries in the same order, entries
    of rule [id] apart. *)
Inductive agree_except (id : string)
  : list (string * Rule) -> list (string * Rule) -> Prop :=
  | agree_nil : agree_except id [] []
  | agree_same entry es1 es2 :
      fst entry <> id -> agree_except id es1 es2 ->
      agree_except id (entry :: es1) (entry :: es2)
  | agree_left rule es1 es2 :
      agree_except id es1 es2 -> agree_except id ((id, rule) :: es1) es2
  | agree_right rule es1 es2 :
      agree_except id es1 es2 -> agree_except id es1 ((id, rule) :: es2).

(** A checker that leaves [this] alone, does not read the clock, and reads
    of the registry the entry [id] alone. *)
Definition reads_own_rule (id : string) (c : Checker) : Prop :=
  forall this1 this2 rs1 rs2 now1 now2 context,
    rules this1 = Some rs1 -> rules this2 = Some rs2 ->
    assoc id rs1 = assoc id rs2 ->
    (c this1 now1 context).1 = this1
    /\ (c this1 now1 context).2 = (c this2 now2 context).2.

(** Two analyzers whose registries agree on every rule but [id] and, unless
    [id] is the rate-limiting rule, whose call tables are equal. *)
Definition related (id : string) (this1 this2 : Analyzer) : Prop :=
  exists rs1 rs2,
    rules this1 = Some rs1 /\ rules this2 = Some rs2
    /\ (forall other, other <> id -> assoc other rs1 = assoc other rs2)
    /\ initialized this1 = initialized this2
    /\ (id <> "insufficient-rate-limiting" -> callFrequency this1 = callFrequency this2).

(** The checker table with another checker registered for [id]. *)
Definition override (id : string) (c : Checker) (table : string -> option Checker)
  : string -> option Checker :=
  fun ruleId => if String.eqb ruleId id then Some c else table ruleId.

(* ================================================================== *)
(** ** A host and inputs to run the engine on *)

Module Scenario.

Fixpoint skip (n : nat) (s : string) : string :=
  match n, s with
  | S n', String _ s' => skip n' s'
  | _, _ => s
  end.

Fixpoint after_sep (sep s : string) : option string :=
  if startsWith s sep then Some (skip (String.length sep) s)
  else match s with
       | EmptyString => None
       | String _ s' => after_sep sep s'
       end.

Fixpoint take_until (stop : ascii -> bool) (s : string) : string :=
  match s with
  | EmptyString => EmptyString
  | String c s' => if stop c then EmptyString else String c (take_until stop s')
  end.

Fixpoint drop_until (stop : ascii -> bool) (s : string) : string :=
  match s with
  | EmptyString => EmptyString
  | String c s' => if stop c then s else drop_until stop s'
  end.

(** The path of an absolute URL [scheme://authority/path?query#fragment]
    written without dot segments or characters to escape, as
    [new URL(u).pathname] reports it; a text without [://] or without an
    authority does not parse. *)
Definition simple_pathname (u : string) : option string :=
  match after_sep "://" u with
  | None => None
  | Some rest =>
      let authority := take_until (one_of "/?#") rest in
      if nonempty authority then
        let path := take_until (one_of "?#") (drop_until (one_of "/?#") rest) in
        Some (if startsWith path "/" then path else "/")
      else None
  end.

(** A host whose other checkers report nothing. *)
Definition quiet_host : Host :=
  {| url_pathname := simple_pathname;
     other_checker := fun _ _ _ => Ok [] |}.

Definition plain_rule (severity name : string) (message : option string) : Rule :=
  {| r_enabled := true; r_severity := severity; r_name := name;
     r_description := name; r_message := message;
     r_headers := None; r_threshold := None; r_timeWindow := None;
     r_excludeEndpoints := None; r_identityFields := None;
     r_settings := empty_object |}.

(** Modelled from the spec: the entry of [security-rules.json] for the
    untrusted-client-identity rule, a file that is not part of the sources;
    the excluded substrings (login, register) and the identity-field names
    (email, userId, username) are the ones the specification lists. *)
Definition identity_rule : Rule :=
  {| r_enabled := true; r_severity := "critical";
     r_name := "Untrusted Client-Supplied Identity";
     r_description := "Identity taken from the request body of an authenticated request";
     r_message := Some "Client-supplied identity in an authenticated request";
     r_headers := None; r_threshold := None; r_timeWindow := None;
     r_excludeEndpoints := Some ["login"; "register"];
     r_identityFields := Some ["email"; "userId"; "username"];
     r_settings := empty_object |}.

(** Modelled from the spec: an entry for the rate-limiting rule with
    threshold 1 and a window of one minute. *)
Definition rate_rule : Rule :=
  {| r_enabled := true; r_severity := "medium";
     r_name := "Insufficient Rate Limiting";
     r_description := "Rapid calls without rate limiting";
     r_message := Some "High call frequency without rate limiting";
     r_headers := None; r_threshold := Some 1; r_timeWindow := Some 60000;
     r_excludeEndpoints := None; r_identityFields := None;
     r_settings := empty_object |}.

(** Modelled from the spec: an entry for the missing-security-headers rule
    with two configured header names. *)
Definition headers_rule : Rule :=
  {| r_enabled := true; r_severity := "medium";
     r_name := "Missing Response Security Headers";
     r_description := "Recommended security headers are absent";
     r_message := None;
     r_headers := Some ["Strict-Transport-Security"; "X-Content-Type-Options"];
     r_threshold := None; r_timeWindow := None;
     r_excludeEndpoints := None; r_identityFields := None;
     r_settings := empty_object |}.

(** Modelled from the spec: an entry for the CORS rule; the checker reads
    its message only. *)
Definition cors_rule : Rule :=
  plain_rule "high" "CORS Misconfiguration" (Some "Wildcard origin with credentials").

(** A registry of the four rules whose checkers are modelled in detail. *)
Definition registry : list (string * Rule) :=
  [ ("untrusted-client-identity", identity_rule);
    ("missing-response-security-headers", headers_rule);
    ("cors-misconfiguration", cors_rule);
    ("insufficient-rate-limiting", rate_rule) ].

Definition bearer : string := "Bearer eyJhbGciOiJIUzI1NiJ9.x.y".

Definition request (method url : string) (headers : gmap string string) (body : JsVal)
  : Context :=
  {| ctx_url := url; ctx_method := method; ctx_headers := headers;
     ctx_queryParams := []; ctx_requestBody := body; ctx_callDetails := None |}.

Definition email_body : JsVal := VObj Plain [("email", VStr "a@b.com")].
Definition name_body : JsVal := VObj Plain [("name", VStr "a")].

(** The four requests of the untrusted-client-identity fixture. *)
Definition update_request : Context :=
  request "POST" "https://example.com/api/update" {["Authorization" := bearer]} email_body.
Definition register_request : Context :=
  request "POST" "https://example.com/api/register" {["Authorization" := bearer]} email_body.
Definition get_request : Context :=
  request "GET" "https://example.com/api/update" {["Authorization" := bearer]} email_body.
Definition name_request : Context :=
  request "POST" "https://example.com/api/update" {["Authorization" := bearer]} name_body.

(** A request with Basic credentials in [Authorization] and a JWT in [Auth]. *)
Definition two_auth_headers : gmap string string :=
  <["Authorization" := "Basic dXNlcjpwYXNz"]> {["Auth" := "eyJhbGciOiJIUzI1NiJ9.x.y"]}.
Definition two_auth_request : Context :=
  request "POST" "https://example.com/api/update" two_auth_headers email_body.

(** A structure with the searched key both nested and at the top. *)
Definition nested_first : JsVal :=
  VObj Plain [("a", VObj Plain [("x", VNum 1)]); ("x", VNum 2)].

(** Two findings of different rules with the same severity and message. *)
Definition finding_a : Finding :=
  {| f_ruleId := "mass-assignment"; f_severity := "high"; f_name := "Mass Assignment";
     f_description := "Privileged fields in the request body";
     f_message := Some "Review this request"; f_details := empty_object;
     f_location := "body"; f_timestamp := 0 |}.
Definition finding_b : Finding :=
  {| f_ruleId := "insecure-cookies"; f_severity := "high"; f_name := "Insecure Cookies";
     f_description := "Cookie attributes are missing";
     f_message := Some "Review this request"; f_details := empty_object;
     f_location := "response-headers"; f_timestamp := 0 |}.

(** A call whose response carries a rate-limit header. *)
Definition limited_call : CallDetails :=
  {| cd_url := "https://example.com/api/items"; cd_method := Some "GET";
     cd_allHeaders := Some ∅; cd_queryParams := None; cd_requestBody := VUndefined;
     cd_status := Some 200;
     cd_responseHeaders := Some {["X-RateLimit-Limit" := "100"]};
     cd_responseBody := None |}.

(** A response that allows any origin and allows credentials. *)
Definition cors_response : Context :=
  {| ctx_url := "https://example.com/api/items"; ctx_method := "GET";
     ctx_headers := ∅; ctx_queryParams := []; ctx_requestBody := empty_object;
     ctx_callDetails :=
       Some {| cd_url := "https://example.com/api/items"; cd_method := Some "GET";
               cd_allHeaders := None; cd_queryParams := None;
               cd_requestBody := VUndefined; cd_status := Some 200;
               cd_responseHeaders :=
                 Some (<["Access-Control-Allow-Origin" := "*"]>
                         {["Access-Control-Allow-Credentials" := "true"]});
               cd_responseBody := None |} |}.

(** The same response from a server that writes the names of its headers
    with one capital letter. *)
Definition cors_response_one_capital : Context :=
  {| ctx_url := "https://example.com/api/items"; ctx_method := "GET";
     ctx_headers := ∅; ctx_queryParams := []; ctx_requestBody := empty_object;
     ctx_callDetails :=
       Some {| cd_url := "https://example.com/api/items"; cd_method := Some "GET";
               cd_allHeaders := None; cd_queryParams := None;
               cd_requestBody := VUndefined; cd_status := Some 200;
               cd_responseHeaders :=
                 Some (<["Access-control-allow-origin" := "*"]>
                         {["Access-control-allow-credentials" := "true"]});
               cd_responseBody := None |} |}.

(** A call with neither request nor response headers about rate limits. *)
Definition plain_call : CallDetails :=
  {| cd_url := "https://example.com/api/items"; cd_method := Some "GET";
     cd_allHeaders := Some ∅; cd_queryParams := None; cd_requestBody := VUndefined;
     cd_status := None; cd_responseHeaders := None; cd_responseBody := None |}.

(** A call whose URL does not parse. *)
Definition broken_call : CallDetails :=
  {| cd_url := "not a url"; cd_method := Some "POST";
     cd_allHeaders := None; cd_queryParams := None; cd_requestBody := VUndefined;
     cd_status := None; cd_responseHeaders := None; cd_responseBody := None |}.

(** An analyzer over the rate-limiting rule alone. *)
Definition rate_only : Analyzer := analyzer_over [("insufficient-rate-limiting", rate_rule)] ∅.

End Scenario.

(* ================================================================== *)
(** ** The conditions of the checkers, as the properties state them *)

(** The value of the first of [names] that [headers] carries with a
    non-empty value, as a function. *)
Fixpoint first_read (headers : gmap string string) (names : list string) : option string :=
  match names with
  | [] => None
  | name :: rest =>
      if truthy_str (headers !! name) then headers !! name else first_read headers rest
  end.

(** The conditions under which the untrusted-client-identity checker
    reports, with the header condition read on the first non-empty header
    of the Authorization family. *)
Definition IdentityFires {host : Host} (excluded identity : list string) (context : Context)
  : Prop :=
  WriteMethod (ctx_method context)
  /\ (exists pathname,
        url_pathname (ctx_url context) = Some pathname /\ ~ PathExcluded excluded pathname)
  /\ Structured (ctx_requestBody context)
  /\ (exists v, HeaderRead (ctx_headers context) auth_variants v /\ JwtShaped v)
  /\ (exists path key value,
        FieldAt (ctx_requestBody context) "" path key value /\ KeyMatches identity key).

(** The same conditions with the header condition as the specification
    words it: some header of the family carries a value of JWT shape. *)
Definition IdentityFiresAsStated {host : Host} (excluded identity : list string)
    (context : Context) : Prop :=
  WriteMethod (ctx_method context)
  /\ (exists pathname,
        url_pathname (ctx_url context) = Some pathname /\ ~ PathExcluded excluded pathname)
  /\ Structured (ctx_requestBody context)
  /\ SomeAuthHeaderJwt (ctx_headers context)
  /\ (exists path key value,
        FieldAt (ctx_requestBody context) "" path key value /\ KeyMatches identity key).

(** The issue the untrusted-client-identity checker reports. *)
Definition identity_issue (rule : Rule) (identity : list string) (context : Context) : Issue :=
  {| i_message := r_message rule;
     i_details := identity_details (findFieldsInObject (ctx_requestBody context) identity);
     i_location := Some "body" |}.

(** The names under which the CORS checker reads its two headers. *)
Definition acao_names : list string :=
  ["Access-Control-Allow-Origin"; "access-control-allow-origin"].
Definition acac_names : list string :=
  ["Access-Control-Allow-Credentials"; "access-control-allow-credentials"].

(** The names under which the rate-limiting checker looks for a rate-limit
    header, in the order it reads them. *)
Definition rate_limit_names : list string :=
  ["X-RateLimit-Limit"; "x-ratelimit-limit"; "RateLimit-Limit"].

(** The response allows any origin and allows credentials. *)
Definition CorsFires (responseHeaders : gmap string string) : Prop :=
  HeaderRead responseHeaders acao_names "*"
  /\ exists v, HeaderRead responseHeaders acac_names v /\ toLowerCase v = "true".

(** The response has a header of that name with that value: HTTP reads
    the names of headers letter case apart. *)
Definition HeaderPresent (responseHeaders : gmap string string) (name value : string)
  : Prop :=
  exists sent, toLowerCase sent = toLowerCase name /\ responseHeaders !! sent = Some value.

(** The same condition as the specification words it: the response has an
    Access-Control-Allow-Origin header that equals [*] and an
    Access-Control-Allow-Credentials header whose value is [true], letter
    case apart. *)
Definition CorsFiresAsStated (responseHeaders : gmap string string) : Prop :=
  HeaderPresent responseHeaders "Access-Control-Allow-Origin" "*"
  /\ exists v, HeaderPresent responseHeaders "Access-Control-Allow-Credentials" v
               /\ toLowerCase v = "true".

(** The issue the missing-security-headers checker reports when every
    configured header is missing. *)
Definition all_missing_issue (configured : list string) : Issue :=
  {| i_message := Some ("Missing recommended security headers: " +:+ join ", " configured);
     i_details := VObj Plain [("missingHeaders", VArr (VStr <$> configured))];
     i_location := Some "response-headers" |}.

(** The context with another call record attached. *)
Definition with_call (context : Context) (callDetails : option CallDetails) : Context :=
  {| ctx_url := ctx_url context; ctx_method := ctx_method context;
     ctx_headers := ctx_headers context; ctx_queryParams := ctx_queryParams context;
     ctx_requestBody := ctx_requestBody context; ctx_callDetails := callDetails |}.

(** The analyzer with its registry mapped. *)
Definition map_rules (f : list (string * Rule) -> list (string * Rule)) (this : Analyzer)
  : Analyzer :=
  {| rules := f <$> rules this; initialized := initialized this;
     callFrequency := callFrequency this |}.

(* ================================================================== *)
(** ** Rule-specific settings *)

(** [o[name]], for a name that is no built-in member: the own property of
    an object, [undefined] when it has none; reading a property of [null] or
    of [undefined] throws ([None]).  The keys of an object are distinct. *)
Definition member (o : JsVal) (name : string) : option JsVal :=
  match o with
  | VUndefined | VNull => None
  | VObj _ props => Some (default VUndefined (assoc name props))
  | _ => Some VUndefined
  end.

(** [rule.name], for a rule-specific property kept in [r_settings]. *)
Definition setting (rule : Rule) (name : string) : JsVal :=
  default VUndefined (member (r_settings rule) name).

(** The typed view of a setting.  The rule file gives texts, numbers and
    arrays of texts; as for the fields of [Rule], [None] is a property the
    entry does not have. *)
Definition as_text (v : JsVal) : option string :=
  match v with VStr s => Some s | _ => None end.
Definition as_number (v : JsVal) : option Z :=
  match v with VNum n => Some n | _ => None end.
Definition as_array (v : JsVal) : option (list JsVal) :=
  match v with VObj IsArray props => Some props.*2 | _ => None end.
Definition as_texts (v : JsVal) : option (list string) :=
  as_array v ≫= mapM as_text.

(** [this.findFieldsInObject(requestBody, fieldNames)] with the names read
    from the rule: without a list of names, [fieldNames.some] throws at the
    first entry of the body. *)
Definition find_fields (requestBody : JsVal) (fieldNames : option (list string))
  : option (list string) :=
  match fieldNames with
  | Some names => Some (findFieldsInObject requestBody names)
  | None => if no_entries requestBody then Some [] else None
  end.

(** The body of a [forEach] that pushes issues, run on every element; an
    exception in one turn ends the loop and the checker. *)
Fixpoint for_each {A : Type} (body : A -> option (list Issue)) (xs : list A)
  : option (list Issue) :=
  match xs with
  | [] => Some []
  | x :: rest =>
      match body x with
      | None => None
      | Some found => app found <$> for_each body rest
      end
  end.

(** A checker's result from the issues of a loop. *)
Definition issues_or_throw (r : option (list Issue)) : CheckResult :=
  match r with Some issues => Ok issues | None => Throw end.

(** [/r/.test(s)] for a pattern without anchors: a match anywhere. *)
Definition anywhere (r : regex) : regex := Cat any_tail (Cat r any_tail).

(* ================================================================== *)
(** ** Value extraction, continued *)

(** [getDeepValues(obj)] (security-analyzer.js, lines 1055-1072): the
    values at the leaves of a structure that are neither [null] nor
    [undefined], in the order the structure lists them. *)
Fixpoint getDeepValues (obj : JsVal) : list JsVal :=
  match obj with
  | VObj _ props =>
      (fix values (ps : list (string * JsVal)) : list JsVal :=
         match ps with
         | [] => []
         | (_, value) :: rest =>
             match value with
             | VObj _ _ => getDeepValues value
             | VNull | VUndefined => []
             | _ => [value]
             end ++ values rest
         end) props
  | _ => []
  end.

(* ================================================================== *)
(** ** Rule checkers, continued *)

(** The issue [checkSensitiveHeaders] pushes for a header. *)
Definition sensitive_header_issue (headerName : string) : Issue :=
  {| i_message := Some ("Sensitive data in header: " +:+ headerName);
     i_details := VObj Plain [("header", VStr headerName);
                              ("reason", VStr "PII should not be transmitted in headers")];
     i_location := Some "headers" |}.

(** [checkSensitiveHeaders(context)] (security-analyzer.js, lines 152-173).
    The rule is read inside the loop over the headers: without a header
    nothing is read.  The header name is lower-cased, the configured text is
    not.  The issues come in the order of the keys of the header object; the
    finite map lists them in an order of its own. *)
Definition checkSensitiveHeaders (this : Analyzer) (context : Context) : CheckResult :=
  with_rule this "sensitive-headers" (fun rule =>
    match header_keys (ctx_headers context) with
    | [] => Ok []
    | names =>
        match rule ≫= r_headers with
        | None => Throw
        | Some configured =>
            Ok (sensitive_header_issue <$>
                  List.filter
                    (fun headerName =>
                       existsb (fun h => includes (toLowerCase headerName) h) configured)
                    names)
        end
    end).

(** [checkInsecureHttp(context)] (security-analyzer.js, lines 238-251).
    The rule is read for its message, once the URL starts with [http://]. *)
Definition checkInsecureHttp (this : Analyzer) (context : Context) : CheckResult :=
  with_rule this "insecure-http" (fun rule =>
    if startsWith (ctx_url context) "http://" then
      match rule with
      | None => Throw
      | Some r =>
          Ok [ {| i_message := r_message r;
                  i_details := VObj Plain [("protocol", VStr "http")];
                  i_location := Some "protocol" |} ]
      end
    else Ok []).

(** [checkPiiInRequestBody(context)] (security-analyzer.js, lines 304-322) *)
Definition checkPiiInRequestBody (this : Analyzer) (context : Context) : CheckResult :=
  with_rule this "pii-in-request-body" (fun rule =>
    let requestBody := ctx_requestBody context in
    if truthy requestBody && typeof_object requestBody then
      match rule with
      | None => Throw
      | Some r =>
          match find_fields requestBody (as_texts (setting r "fields")) with
          | None => Throw
          | Some foundFields =>
              if (0 <? Z.of_nat (length foundFields))
              then Ok [ {| i_message :=
                             Some ("PII detected in request body: " +:+ join ", " foundFields);
                           i_details := VObj Plain [("fields", VArr (VStr <$> foundFields))];
                           i_location := Some "body" |} ]
              else Ok []
          end
      end
    else Ok []).

(** The query parameter names [checkExcessiveDataExposure] takes for a
    limit, as the source lists them. *)
Definition limit_names : list string := ["limit"; "page"; "size"; "per_page"; "pageSize"].

(** [checkExcessiveDataExposure(context)] (security-analyzer.js, lines
    327-347).  The message is [rule.checks[0].message]; each read of the
    chain throws on [undefined]. *)
Definition checkExcessiveDataExposure (this : Analyzer) (context : Context) : CheckResult :=
  with_rule this "excessive-data-exposure" (fun rule =>
    if String.eqb (ctx_method context) "GET" then
      let queryParams := ctx_queryParams context in
      let hasLimit :=
        existsb (fun key => array_includes limit_names (toLowerCase key)) queryParams.*1 in
      if negb hasLimit then
        match rule ≫= (fun r => member (setting r "checks") "0"
                                  ≫= (fun check => member check "message")) with
        | None => Throw
        | Some message =>
            Ok [ {| i_message := as_text message;
                    i_details :=
                      VObj Plain [("recommendation",
                                   VStr "Implement pagination with limit/page parameters")];
                    i_location := Some "query" |} ]
        end
      else Ok []
    else Ok []).

(** One turn of the loop of [checkWeakPasswordPolicy] over [rule.checks].
    [findFieldValue] lower-cases the field name at the first entry of the
    body: a name that is no text throws there. *)
Definition weak_password_check (requestBody check : JsVal) : option (list Issue) :=
  match member check "field", member check "min_length", member check "message" with
  | Some field, Some min_length, Some message =>
      match as_text field with
      | None => if no_entries requestBody then Some [] else None
      | Some fieldName =>
          match findFieldValue requestBody fieldName with
          | VStr passwordValue =>
              if nonempty passwordValue then
                match as_number min_length with
                | Some required =>
                    if Z.of_nat (String.length passwordValue) <? required
                    then Some [ {| i_message := as_text message;
                                   i_details :=
                                     VObj Plain
                                       [("actualLength",
                                         VNum (Z.of_nat (String.length passwordValue)));
                                        ("requiredLength", VNum required)];
                                   i_location := Some "body" |} ]
                    else Some []
                | None => Some []
                end
              else Some []
          | _ => Some []
          end
      end
  | _, _, _ => None
  end.

(** [checkWeakPasswordPolicy(context)] (security-analyzer.js, lines 493-517) *)
Definition checkWeakPasswordPolicy (this : Analyzer) (context : Context) : CheckResult :=
  with_rule this "weak-password-policy" (fun rule =>
    let requestBody := ctx_requestBody context in
    if truthy requestBody && typeof_object requestBody then
      match rule ≫= (fun r => as_array (setting r "checks")) with
      | None => Throw
      | Some checks => issues_or_throw (for_each (weak_password_check requestBody) checks)
      end
    else Ok []).

(** [checkMassAssignment(context)] (security-analyzer.js, lines 613-634) *)
Definition checkMassAssignment (this : Analyzer) (context : Context) : CheckResult :=
  with_rule this "mass-assignment" (fun rule =>
    let requestBody := ctx_requestBody context in
    if truthy requestBody && typeof_object requestBody then
      match rule with
      | None => Throw
      | Some r =>
          match find_fields requestBody (as_texts (setting r "sensitiveFields")) with
          | None => Throw
          | Some foundFields =>
              if (0 <? Z.of_nat (length foundFields))
              then Ok [ {| i_message := r_message r;
                           i_details :=
                             VObj Plain [("fields", VArr (VStr <$> foundFields));
                                         ("recommendation",
                                          VStr "Whitelist allowed fields on server-side")];
                           i_location := Some "body" |} ]
              else Ok []
          end
      end
    else Ok []).

(** [checkUnencryptedSensitiveData(context)] (security-analyzer.js, lines
    639-660) *)
Definition checkUnencryptedSensitiveData (this : Analyzer) (context : Context)
  : CheckResult :=
  with_rule this "unencrypted-sensitive-data" (fun rule =>
    let requestBody := ctx_requestBody context in
    if startsWith (ctx_url context) "http://"
       && truthy requestBody && typeof_object requestBody then
      match rule with
      | None => Throw
      | Some r =>
          match find_fields requestBody (as_texts (setting r "fields")) with
          | None => Throw
          | Some foundFields =>
              if (0 <? Z.of_nat (length foundFields))
              then Ok [ {| i_message :=
                             Some (template (r_message r) +:+ ": " +:+ join ", " foundFields);
                           i_details :=
                             VObj Plain [("fields", VArr (VStr <$> foundFields));
                                         ("protocol", VStr "HTTP")];
                           i_location := Some "body" |} ]
              else Ok []
          end
      end
    else Ok []).

(** The three patterns of [checkInsecureCookies]: [/;\s*Secure/i],
    [/;\s*HttpOnly/i] and [/;\s*SameSite=(Strict|Lax|None)/i]. *)
Definition re_attribute (name : regex) : regex :=
  anywhere (Cat (Lit ";") (Cat (Star (Chars cls_space)) name)).
Definition re_secure : regex := re_attribute (StrI "Secure").
Definition re_httponly : regex := re_attribute (StrI "HttpOnly").
Definition re_samesite : regex :=
  re_attribute (Cat (StrI "SameSite=") (Alt (StrI "Strict") (Alt (StrI "Lax") (StrI "None")))).

(** [s.split(c)[0]]: the text before the first [c]. *)
Fixpoint before_char (c : ascii) (s : string) : string :=
  match s with
  | EmptyString => EmptyString
  | String a rest => if Ascii.eqb a c then EmptyString else String a (before_char c rest)
  end.

(** [[!hasSecure && 'Secure', !hasHttpOnly && 'HttpOnly',
      !hasSameSite && 'SameSite'].filter(Boolean)] *)
Definition missing_attributes (cookie : string) : list string :=
  (if re_test re_secure cookie then [] else ["Secure"])
  ++ (if re_test re_httponly cookie then [] else ["HttpOnly"])
  ++ (if re_test re_samesite cookie then [] else ["SameSite"]).

(** [checkInsecureCookies(context)] (security-analyzer.js, lines 665-690).
    The response headers hold one text per name: [Set-Cookie] is read as
    one cookie.  The rule is read for its message, once an attribute is
    missing. *)
Definition checkInsecureCookies (this : Analyzer) (context : Context) : CheckResult :=
  with_rule this "insecure-cookies" (fun rule =>
    let responseHeaders := response_headers context in
    let setCookieHeader :=
      or_str (responseHeaders !! "Set-Cookie") (responseHeaders !! "set-cookie") in
    match setCookieHeader with
    | None => Ok []
    | Some cookie =>
        if negb (nonempty cookie) then Ok []
        else
          let hasSecure := re_test re_secure cookie in
          let hasHttpOnly := re_test re_httponly cookie in
          let hasSameSite := re_test re_samesite cookie in
          if negb hasSecure || negb hasHttpOnly || negb hasSameSite then
            match rule with
            | None => Throw
            | Some r =>
                Ok [ {| i_message := r_message r;
                        i_details :=
                          VObj Plain
                            [("cookiePreview", VStr (before_char ";" cookie));
                             ("missing", VArr (VStr <$> missing_attributes cookie))];
                        i_location := Some "response-headers" |} ]
            end
          else Ok []
    end).

(** The character class of [checkMissingInputValidation]: the angle
    brackets, the single quote, the double quote (code 34) and the
    backslash (code 92). *)
Definition cls_unsanitized (c : ascii) : bool :=
  one_of "<>'" c || Ascii.eqb c "034" || Ascii.eqb c "092".

(** [val.length > 100] or a character of the class, on a text; no other
    value counts. *)
Definition dangerous_input (val : JsVal) : bool :=
  match val with
  | VStr s => (100 <? Z.of_nat (String.length s)) || re_test (anywhere (Chars cls_unsanitized)) s
  | _ => false
  end.

(** [[...Object.values(context.queryParams), ...this.getDeepValues(context.requestBody)]] *)
Definition values_to_check (context : Context) : list JsVal :=
  (VStr <$> (ctx_queryParams context).*2) ++ getDeepValues (ctx_requestBody context).

(** [checkMissingInputValidation(context)] (security-analyzer.js, lines
    716-749) *)
Definition checkMissingInputValidation (this : Analyzer) (context : Context)
  : CheckResult :=
  with_rule this "missing-input-validation" (fun rule =>
    let hasDangerousInput := existsb dangerous_input (values_to_check context) in
    if hasDangerousInput then
      let responseHeaders := response_headers context in
      let hasValidationHeaders :=
        or_str (responseHeaders !! "X-Content-Type-Options")
               (responseHeaders !! "x-content-type-options") in
      if negb (truthy_str hasValidationHeaders)
         && negb (String.eqb (ctx_method context) "GET") then
        match rule with
        | None => Throw
        | Some r =>
            Ok [ {| i_message := r_message r;
                    i_details :=
                      VObj Plain
                        [("recommendation",
                          VStr "Ensure server validates and sanitizes all user input")];
                    i_location := Some "general" |} ]
        end
      else Ok []
    else Ok []).

(** [value.startsWith('http://') || value.startsWith('https://') ||
     value.startsWith('//')] *)
Definition looks_like_url (value : string) : bool :=
  startsWith value "http://" || startsWith value "https://" || startsWith value "//".

(** The issue [checkOpenRedirect] pushes for a parameter. *)
Definition open_redirect_issue (param : string) : Issue :=
  {| i_message := Some ("Potential open redirect via parameter: " +:+ param);
     i_details := VObj Plain [("param", VStr param);
                              ("recommendation",
                               VStr "Validate redirect URLs against allowlist")];
     i_location := Some "query" |}.

(** The names of the members a plain object inherits from
    [Object.prototype]. *)
Definition object_prototype_names : list string :=
  ["constructor"; "__defineGetter__"; "__defineSetter__"; "hasOwnProperty";
   "__lookupGetter__"; "__lookupSetter__"; "isPrototypeOf"; "propertyIsEnumerable";
   "toString"; "valueOf"; "__proto__"; "toLocaleString"].

(** What a read [queryParams[name]] yields.  The query parameters are a
    plain object ([{}] filled by assignments): a name it has no property of
    its own for is looked up in [Object.prototype], where it finds a
    function, or the prototype itself under [__proto__]: a truthy value that
    is no text. *)
Inductive QueryValue : Type :=
  | Own (value : string)
  | Inherited
  | NoMember.

(** [queryParams[name]] *)
Definition query_member (queryParams : list (string * string)) (name : string)
  : QueryValue :=
  match assoc name queryParams with
  | Some value => Own value
  | None => if array_includes object_prototype_names name then Inherited else NoMember
  end.

(** [queryParams[param] || queryParams[param.toLowerCase()]] *)
Definition redirect_value (queryParams : list (string * string)) (param : string)
  : QueryValue :=
  match query_member queryParams param with
  | Own value =>
      if nonempty value then Own value else query_member queryParams (toLowerCase param)
  | Inherited => Inherited
  | NoMember => query_member queryParams (toLowerCase param)
  end.

(** [checkOpenRedirect(context)] (security-analyzer.js, lines 784-811).
    The query parameters are an object: its keys are distinct.  On a value
    that is truthy and no text, [value.startsWith] is no function and the
    call throws. *)
Definition checkOpenRedirect (this : Analyzer) (context : Context) : CheckResult :=
  with_rule this "open-redirect" (fun rule =>
    let queryParams := ctx_queryParams context in
    match rule ≫= (fun r => as_texts (setting r "params")) with
    | None => Throw
    | Some params =>
        let foundParams :=
          List.filter
            (fun param =>
               existsb (fun qp => String.eqb (toLowerCase qp) (toLowerCase param))
                       queryParams.*1)
            params in
        issues_or_throw
          (for_each
             (fun param =>
                match redirect_value queryParams param with
                | Own value =>
                    Some (if nonempty value && looks_like_url value
                          then [open_redirect_issue param] else [])
                | Inherited => None
                | NoMember => Some []
                end)
             foundParams)
    end).

Section MoreCheckers.
Context {host : Host}.

(** The header names [checkMissingAuthentication] reads, in the order it
    reads them. *)
Definition credential_names : list string :=
  ["Authorization"; "authorization"; "X-API-Key"; "x-api-key"; "Cookie"; "cookie"].

(** [checkMissingAuthentication(context)] (security-analyzer.js, lines
    579-608) *)
Definition checkMissingAuthentication (this : Analyzer) (context : Context)
  : CheckResult :=
  with_rule this "missing-authentication" (fun rule =>
    let headers := ctx_headers context in
    match url_pathname (ctx_url context) with
    | None => Throw
    | Some urlPath =>
        match rule with
        | None => Throw
        | Some r =>
            match as_texts (setting r "excludePaths") with
            | None => Throw
            | Some excludePaths =>
                let isExcluded := is_excluded excludePaths (toLowerCase urlPath) in
                if negb isExcluded then
                  let hasAuth :=
                    or_str (or_str (or_str (or_str (or_str (headers !! "Authorization")
                                                           (headers !! "authorization"))
                                                   (headers !! "X-API-Key"))
                                           (headers !! "x-api-key"))
                                   (headers !! "Cookie"))
                           (headers !! "cookie") in
                  if negb (truthy_str hasAuth) then
                    Ok [ {| i_message := r_message r;
                            i_details :=
                              VObj Plain
                                [("path", VStr urlPath);
                                 ("recommendation",
                                  VStr "Implement proper authentication mechanism")];
                            i_location := Some "headers" |} ]
                  else Ok []
                else Ok []
            end
        end
    end).

(** The issue [checkDebugEndpoints] pushes for a pattern. *)
Definition debug_endpoint_issue (matchedPattern : string) : Issue :=
  {| i_message := Some ("Potentially sensitive endpoint accessed: " +:+ matchedPattern);
     i_details := VObj Plain [("pattern", VStr matchedPattern);
                              ("recommendation",
                               VStr "Ensure debug/admin endpoints are properly secured")];
     i_location := Some "path" |}.

(** [checkDebugEndpoints(context)] (security-analyzer.js, lines 860-881).
    [find] returns the first pattern the path contains; the issue is pushed
    when that pattern is truthy. *)
Definition checkDebugEndpoints (this : Analyzer) (context : Context) : CheckResult :=
  with_rule this "debug-endpoints" (fun rule =>
    match url_pathname (ctx_url context) with
    | None => Throw
    | Some pathname =>
        let urlPath := toLowerCase pathname in
        match rule ≫= (fun r => as_texts (setting r "patterns")) with
        | None => Throw
        | Some patterns =>
            match List.find (fun pattern => includes urlPath (toLowerCase pattern)) patterns with
            | Some matchedPattern =>
                if nonempty matchedPattern then Ok [debug_endpoint_issue matchedPattern]
                else Ok []
            | None => Ok []
            end
        end
    end).

End MoreCheckers.

(* ================================================================== *)
(** ** Checkers that run configured patterns *)

(** The regular expressions the rule file configures are compiled and run
    by the host: [regexp_test pattern flags s] is
    [new RegExp(pattern, flags).test(s)], [None] when the constructor
    throws. *)
Class RegExpHost : Type := {
  regexp_test : string -> string -> string -> option bool
}.

(** [check.type === name] *)
Definition has_type (check : JsVal) (name : string) : bool :=
  match member check "type" with
  | Some (VStr type) => String.eqb type name
  | _ => false
  end.

(** [check.message], for an issue. *)
Definition check_message (check : JsVal) : option string :=
  member check "message" ≫= as_text.

(** The three issues of [checkWeakAuthentication]. *)
Definition basic_auth_issue (check : JsVal) : Issue :=
  {| i_message := check_message check;
     i_details := VObj Plain [("type", VStr "basic_auth")];
     i_location := Some "headers" |}.
Definition api_key_issue (check : JsVal) (foundParams : list string) : Issue :=
  {| i_message := check_message check;
     i_details := VObj Plain [("params", VArr (VStr <$> foundParams))];
     i_location := Some "query" |}.
Definition credentials_issue (check : JsVal) (fields : list string) : Issue :=
  {| i_message := check_message check;
     i_details := VObj Plain [("fields", VArr (VStr <$> fields))];
     i_location := Some "body" |}.

(** The matching fields of the body whose value does not look encrypted:
    [foundFieldsWithValues.filter(item => !this.isEncryptedOrHashed(item.value))] *)
Definition unencrypted_fields (requestBody : JsVal) (fields : list string)
  : list (string * JsVal) :=
  List.filter (fun item => negb (isEncryptedOrHashed (snd item)))
              (findFieldsInObjectWithValues requestBody fields).

Section Patterns.
Context {re : RegExpHost}.

(** [new RegExp(check.pattern).test(authHeader)]: a check without pattern
    makes the empty pattern, which every text matches. *)
Definition test_pattern (check : JsVal) (authHeader : string) : option bool :=
  match member check "pattern" with
  | Some (VStr pattern) => regexp_test pattern "" authHeader
  | _ => Some true
  end.

(** The first [if] of a turn: [check.type === 'basic_auth']. *)
Definition basic_auth_check (context : Context) (check : JsVal) : option (list Issue) :=
  if has_type check "basic_auth" then
    let headers := ctx_headers context in
    let authHeader := or_str (headers !! "Authorization") (headers !! "authorization") in
    match authHeader with
    | Some value =>
        if nonempty value then
          match test_pattern check value with
          | None => None
          | Some true => Some [basic_auth_issue check]
          | Some false => Some []
          end
        else Some []
    | None => Some []
    end
  else Some [].

(** The second [if]: [check.type === 'api_key_in_query'].  The key is
    lower-cased, the configured name is not. *)
Definition api_key_check (context : Context) (check : JsVal) : option (list Issue) :=
  if has_type check "api_key_in_query" then
    match member check "params" ≫= as_texts with
    | None => None
    | Some params =>
        let foundParams :=
          List.filter
            (fun param =>
               existsb (fun qp => includes (toLowerCase qp) param)
                       (ctx_queryParams context).*1)
            params in
        if (0 <? Z.of_nat (length foundParams))
        then Some [api_key_issue check foundParams] else Some []
    end
  else Some [].

(** The third [if]: [check.type === 'credentials_in_body']. *)
Definition credentials_check (context : Context) (check : JsVal) : option (list Issue) :=
  if has_type check "credentials_in_body" then
    let requestBody := ctx_requestBody context in
    if truthy requestBody && typeof_object requestBody then
      match member check "fields" ≫= as_texts with
      | None => if no_entries requestBody then Some [] else None
      | Some fields =>
          let unencryptedFields := unencrypted_fields requestBody fields in
          if (0 <? Z.of_nat (length unencryptedFields))
          then Some [credentials_issue check unencryptedFields.*1] else Some []
      end
    else Some []
  else Some [].

(** One turn of the loop of [checkWeakAuthentication] over [rule.checks];
    reading [check.type] throws on a check that is [null] or [undefined]. *)
Definition weak_authentication_check (context : Context) (check : JsVal)
  : option (list Issue) :=
  match member check "type" with
  | None => None
  | Some _ =>
      match basic_auth_check context check with
      | None => None
      | Some basic =>
          match api_key_check context check with
          | None => None
          | Some query =>
              match credentials_check context check with
              | None => None
              | Some body => Some (basic ++ query ++ body)
              end
          end
      end
  end.

(** [checkWeakAuthentication(context)] (security-analyzer.js, lines 178-233) *)
Definition checkWeakAuthentication (this : Analyzer) (context : Context) : CheckResult :=
  with_rule this "weak-authentication" (fun rule =>
    match rule ≫= (fun r => as_array (setting r "checks")) with
    | None => Throw
    | Some checks => issues_or_throw (for_each (weak_authentication_check context) checks)
    end).

End Patterns.

(* ================================================================== *)
(** ** The panel, continued *)

(** [severityOrder[issue.severity] || 0] of [getHighestSeverity].  A name
    the table inherits ([constructor], [toString]...) reads a value that
    compares greater than no number: it ranks like an unknown severity. *)
Definition severityOrder (severity : string) : Z :=
  if String.eqb severity "critical" then 4
  else if String.eqb severity "high" then 3
  else if String.eqb severity "medium" then 2
  else if String.eqb severity "low" then 1
  else 0.

(** [getHighestSeverity(issues)] (panel.js, lines 2198-2212): the pair
    [(highest, highestValue)] after the loop, and the result. *)
Definition highest_step (acc : string * Z) (issue : Finding) : string * Z :=
  let value := severityOrder (f_severity issue) in
  if snd acc <? value then (f_severity issue, value) else acc.
Definition getHighestSeverity (issues : list Finding) : string :=
  fst (fold_left highest_step issues ("low", 0)).

(* ================================================================== *)
(** ** The structure view and the schema export (panel.js) *)

(** [["string", "number", "boolean", "null", "array", "object"].includes(s)] *)
Definition structure_types : list string :=
  ["string"; "number"; "boolean"; "null"; "array"; "object"].

(** What [analyzeStructure] stores for a field: a text that is no type
    name is replaced by ["string"]. *)
Definition stored_type (analyzed : JsVal) : JsVal :=
  match analyzed with
  | VStr s => if array_includes structure_types s then analyzed else VStr "string"
  | _ => analyzed
  end.

(** [structure[key] = value] on an object built by assignments, for a key
    that is no array index after a key that is none: a new key goes last, a
    known key keeps its place, and the key [__proto__] sets no property. *)
Fixpoint assign (key : string) (value : JsVal) (props : list (string * JsVal))
  : list (string * JsVal) :=
  match props with
  | [] => [(key, value)]
  | (k, v) :: rest =>
      if String.eqb k key then (k, value) :: rest else (k, v) :: assign key value rest
  end.
Definition set_property (key : string) (value : JsVal) (props : list (string * JsVal))
  : list (string * JsVal) :=
  if String.eqb key "__proto__" then props else assign key value props.

(** [analyzeStructure(obj)] (panel.js, lines 942-981) on a value that
    [JSON.parse] built.  The loop over the keys of an object calls
    [obj.hasOwnProperty]: on an object that has a property of that name the
    call throws ([None]). *)
Fixpoint analyzeStructure (obj : JsVal) : option JsVal :=
  match obj with
  | VNull => Some (VStr "null")
  | VUndefined => Some (VStr "string")
  | VBool _ => Some (VStr "boolean")
  | VNum _ => Some (VStr "number")
  | VStr _ => Some (VStr "string")
  | VObj IsArray props =>
      match (fix itemTypes (ps : list (string * JsVal)) : option (list JsVal) :=
               match ps with
               | [] => Some []
               | (_, item) :: rest =>
                   match analyzeStructure item with
                   | None => None
                   | Some type => cons type <$> itemTypes rest
                   end
               end) props with
      | None => None
      | Some [] => Some (VArr [])
      | Some (first :: _) => Some (VArr [first])
      end
  | VObj Plain props =>
      if array_includes props.*1 "hasOwnProperty" then None
      else
        (fix fields (ps : list (string * JsVal)) (structure : list (string * JsVal))
           : option JsVal :=
           match ps with
           | [] => Some (VObj Plain structure)
           | (key, value) :: rest =>
               match analyzeStructure value with
               | None => None
               | Some analyzed =>
                   fields rest (set_property key (stored_type analyzed) structure)
               end
           end) props []
  end.

(** [key.replace(/[\$\-]/g, '_')] *)
Fixpoint clean_key (key : string) : string :=
  match key with
  | EmptyString => EmptyString
  | String c rest =>
      String (if Ascii.eqb c "$" || Ascii.eqb c "-" then "_"%char else c) (clean_key rest)
  end.

(** [value !== 'null' && value !== null && value !== undefined] *)
Definition is_required (value : JsVal) : bool :=
  match value with
  | VStr s => negb (String.eqb s "null")
  | VNull | VUndefined => false
  | _ => true
  end.

(** [{ type: name }] *)
Definition type_schema (name : string) : JsVal := VObj Plain [("type", VStr name)].

(** The object schema [convertToJsonSchema] returns: [required] is set
    when it has items. *)
Definition object_schema (properties : list (string * JsVal)) (required : list string)
  : JsVal :=
  VObj Plain
    ([("type", VStr "object"); ("properties", VObj Plain properties)]
     ++ if (0 <? Z.of_nat (length required))
        then [("required", VArr (VStr <$> required))] else []).

(** [convertToJsonSchema(structure)] (panel.js, lines 2026-2081) *)
Fixpoint convertToJsonSchema (structure : JsVal) : JsVal :=
  match structure with
  | VStr s =>
      if String.eqb s "string" then type_schema "string"
      else if String.eqb s "number" then type_schema "number"
      else if String.eqb s "boolean" then type_schema "boolean"
      else if String.eqb s "null"
      then VObj Plain [("type", VStr "string"); ("nullable", VBool true)]
      else type_schema "string"
  | VObj IsArray props =>
      VObj Plain
        [("type", VStr "array");
         ("items", match props with
                   | [] => type_schema "string"
                   | (_, first) :: _ => convertToJsonSchema first
                   end)]
  | VObj Plain props =>
      (fix keys (ps : list (string * JsVal)) (properties : list (string * JsVal))
           (required : list string) : JsVal :=
         match ps with
         | [] => object_schema properties required
         | (key, value) :: rest =>
             let propSchema := convertToJsonSchema value in
             let cleanKey := clean_key key in
             keys rest (set_property cleanKey propSchema properties)
                  (if is_required value then required ++ [cleanKey] else required)
         end) props [] []
  | _ => type_schema "string"
  end.

(* ================================================================== *)
(** ** Shared utilities (config.js) *)

(** [s.replace(/c/g, by)] for a single character [c] and a replacement
    text without [$]. *)
Fixpoint replace_all (c : ascii) (by_text : string) (s : string) : string :=
  match s with
  | EmptyString => EmptyString
  | String a rest =>
      (if Ascii.eqb a c then by_text else String a EmptyString) +:+ replace_all c by_text rest
  end.

(** [SecurityUtils.escapeHtml(unsafe)] (config.js): five replacements in
    a row, the ampersand first. *)
Definition escapeHtml (unsafe : string) : string :=
  replace_all "'" "&#039;"
    (replace_all "034" "&quot;"
       (replace_all ">" "&gt;"
          (replace_all "<" "&lt;"
             (replace_all "&" "&amp;" unsafe)))).

(** The two limits of [CONFIG] that the background script enforces. *)
Record Config : Type := mkConfig {
  MAX_CALLS_PER_ENDPOINT : Z;
  MAX_TOTAL_ENDPOINTS : Z
}.

(** [CONFIG] (config.js) *)
Definition CONFIG : Config :=
  {| MAX_CALLS_PER_ENDPOINT := 100; MAX_TOTAL_ENDPOINTS := 500 |}.

(* ================================================================== *)
(** ** The background script *)

(** A value of the [apiCalls] map: what the script keeps for an endpoint. *)
Record EndpointData : Type := mkEndpointData {
  ed_method : string;
  ed_url : string;
  ed_host : string;
  ed_pathname : string;
  ed_calls : list CallDetails;
  ed_queryParams : list string;
  ed_requestBodies : list JsVal;
  ed_requestHeaders : list string;
  ed_securityIssues : option (list Finding)
}.

(** [xs.slice(start)] *)
Definition slice_from {A : Type} (start : Z) (xs : list A) : list A :=
  let len := Z.of_nat (length xs) in
  let k := if start <? 0 then Z.max (len + start) 0 else Z.min start len in
  drop (Z.to_nat k) xs.

(** [data.calls = data.calls.slice(-max)] *)
Definition with_calls (data : EndpointData) (calls : list CallDetails) : EndpointData :=
  {| ed_method := ed_method data; ed_url := ed_url data; ed_host := ed_host data;
     ed_pathname := ed_pathname data; ed_calls := calls;
     ed_queryParams := ed_queryParams data; ed_requestBodies := ed_requestBodies data;
     ed_requestHeaders := ed_requestHeaders data;
     ed_securityIssues := ed_securityIssues data |}.

(** The second loop of [enforceMemoryLimits], for one endpoint. *)
Definition limit_calls (config : Config) (entry : string * EndpointData)
  : string * EndpointData :=
  let data := snd entry in
  if MAX_CALLS_PER_ENDPOINT config <? Z.of_nat (length (ed_calls data))
  then (fst entry, with_calls data (slice_from (- MAX_CALLS_PER_ENDPOINT config) (ed_calls data)))
  else entry.

(** [enforceMemoryLimits()] (background script, lines 41-57) on the map
    [apiCalls], listed in insertion order (its keys are distinct).  The
    first loop deletes the keys of [entries[0]] to
    [entries[entriesToRemove - 1]]; it reads past the end of [entries], and
    throws ([None]), when there are more entries to remove than entries. *)
Definition enforceMemoryLimits (config : Config) (apiCalls : list (string * EndpointData))
  : option (list (string * EndpointData)) :=
  let size := Z.of_nat (length apiCalls) in
  let kept :=
    if MAX_TOTAL_ENDPOINTS config <? size then
      let entriesToRemove := size - MAX_TOTAL_ENDPOINTS config in
      if size <? entriesToRemove then None
      else Some (drop (Z.to_nat entriesToRemove) apiCalls)
    else Some apiCalls in
  fmap (M := list) (limit_calls config) <$> kept.

(* ================================================================== *)
(** ** Notions the further properties are stated with *)

(** A leaf that carries a value: a boolean, a number or a text. *)
Definition is_leaf (v : JsVal) : bool :=
  match v with
  | VBool _ | VNum _ | VStr _ => true
  | _ => false
  end.

(** Successive calls of a checker on one context, one per clock reading:
    the analyzer after the last call and the results, in order. *)
Fixpoint run_checks (c : Checker) (this : Analyzer) (times : list Z) (context : Context)
  : Analyzer * list CheckResult :=
  match times with
  | [] => (this, [])
  | now :: rest =>
      let '(this1, result) := c this now context in
      let '(this2, results) := run_checks c this1 rest context in
      (this2, result :: results)
  end.

(** The issue the rate-limiting checker reports at a given call count. *)
Definition rate_limit_issue (rule : Rule) (callCount : Z) : Issue :=
  {| i_message := r_message rule;
     i_details := VObj Plain [("callCount", VNum callCount);
                              ("threshold", num_val (r_threshold rule));
                              ("timeWindow", num_val (r_timeWindow rule))];
     i_location := Some "general" |}.

(** The issue [checkPiiInRequestBody] reports for the paths found. *)
Definition pii_issue (foundFields : list string) : Issue :=
  {| i_message := Some ("PII detected in request body: " +:+ join ", " foundFields);
     i_details := VObj Plain [("fields", VArr (VStr <$> foundFields))];
     i_location := Some "body" |}.

(** The issue [checkMassAssignment] reports for the paths found. *)
Definition mass_assignment_issue (rule : Rule) (foundFields : list string) : Issue :=
  {| i_message := r_message rule;
     i_details := VObj Plain [("fields", VArr (VStr <$> foundFields));
                              ("recommendation",
                               VStr "Whitelist allowed fields on server-side")];
     i_location := Some "body" |}.

(** The issue [checkUnencryptedSensitiveData] reports for the paths found. *)
Definition unencrypted_issue (rule : Rule) (foundFields : list string) : Issue :=
  {| i_message := Some (template (r_message rule) +:+ ": " +:+ join ", " foundFields);
     i_details := VObj Plain [("fields", VArr (VStr <$> foundFields));
                              ("protocol", VStr "HTTP")];
     i_location := Some "body" |}.

(** The issue [checkInsecureHttp] reports. *)
Definition insecure_http_issue (rule : Rule) : Issue :=
  {| i_message := r_message rule;
     i_details := VObj Plain [("protocol", VStr "http")];
     i_location := Some "protocol" |}.

(** The issue [checkExcessiveDataExposure] reports. *)
Definition exposure_issue (message : JsVal) : Issue :=
  {| i_message := as_text message;
     i_details := VObj Plain [("recommendation",
                               VStr "Implement pagination with limit/page parameters")];
     i_location := Some "query" |}.

(** The issue [checkMissingAuthentication] reports for a path. *)
Definition missing_authentication_issue (rule : Rule) (urlPath : string) : Issue :=
  {| i_message := r_message rule;
     i_details := VObj Plain [("path", VStr urlPath);
                              ("recommendation",
                               VStr "Implement proper authentication mechanism")];
     i_location := Some "headers" |}.

(** No upper-case letter of the ASCII alphabet. *)
Definition no_upper (s : string) : bool := all_chars (fun c => negb (is_upper c)) s.

(** The text contains the other, as [includes] decides it. *)
Definition Contains (s sub : string) : Prop := exists a b, s = a +:+ sub +:+ b.

(** The issue [checkWeakPasswordPolicy] reports for a check. *)
Definition weak_password_issue (message : JsVal) (actualLength requiredLength : Z) : Issue :=
  {| i_message := as_text message;
     i_details := VObj Plain [("actualLength", VNum actualLength);
                              ("requiredLength", VNum requiredLength)];
     i_location := Some "body" |}.

(** The issue [checkInsecureCookies] reports for a cookie. *)
Definition insecure_cookie_issue (rule : Rule) (cookie : string) : Issue :=
  {| i_message := r_message rule;
     i_details := VObj Plain [("cookiePreview", VStr (before_char ";" cookie));
                              ("missing", VArr (VStr <$> missing_attributes cookie))];
     i_location := Some "response-headers" |}.

(** The cookie text holds, after a semicolon and any white space, a text
    that is one of [texts] once lower-cased; anything may follow it. *)
Definition AttributeAt (cookie : string) (texts : list string) : Prop :=
  exists a ws x b,
    cookie = a +:+ ";" +:+ ws +:+ x +:+ b
    /\ all_chars cls_space ws = true /\ In (toLowerCase x) texts.

(** The issue [checkMissingInputValidation] reports. *)
Definition input_validation_issue (rule : Rule) : Issue :=
  {| i_message := r_message rule;
     i_details := VObj Plain [("recommendation",
                               VStr "Ensure server validates and sanitizes all user input")];
     i_location := Some "general" |}.

(** A text longer than 100 characters, or one that holds an angle bracket,
    a quote or a backslash. *)
Definition Dangerous (s : string) : Prop :=
  (100 < String.length s)%nat
  \/ exists a c b, s = a +:+ String c b /\ cls_unsanitized c = true.

(** What one turn of the loop decides, read on the first entry, in
    pre-order, whose key is the configured field, letter case apart. *)
Definition password_verdict (body : JsVal) (field : string) (required : Z)
    (message : JsVal) (result : list Issue) : Prop :=
  match List.find (name_eq field) (preorder body) with
  | Some (_, VStr s) =>
      result = if nonempty s && (Z.of_nat (String.length s) <? required)
               then [weak_password_issue message (Z.of_nat (String.length s)) required]
               else []
  | Some (_, VNull) => True
  | _ => result = []
  end.

(** The characters [escapeHtml] replaces, the ampersand apart: the angle
    brackets, the single quote and the double quote (code 34). *)
Definition html_special (c : ascii) : bool :=
  one_of "<>'" c || Ascii.eqb c "034".

(** What [escapeHtml] writes for a character. *)
Definition escape_char (c : ascii) : string :=
  if Ascii.eqb c "&" then "&amp;"
  else if Ascii.eqb c "<" then "&lt;"
  else if Ascii.eqb c ">" then "&gt;"
  else if Ascii.eqb c "034" then "&quot;"
  else if Ascii.eqb c "'" then "&#039;"
  else String c EmptyString.

(** The text escaped character by character, in one pass. *)
Fixpoint escape_each (s : string) : string :=
  match s with
  | EmptyString => EmptyString
  | String c rest => escape_char c +:+ escape_each rest
  end.

(** Two values of the map that differ in their calls at most. *)
Definition same_endpoint (a b : EndpointData) : Prop :=
  with_calls a [] = with_calls b [].

(** A key that holds no dollar sign and no hyphen. *)
Definition is_clean (key : string) : bool :=
  all_chars (fun c => negb (Ascii.eqb c "$" || Ascii.eqb c "-")) key.

(** A schema as the export writes it: a type among [string], [number] and
    [boolean]; a nullable string; an array with the schema of its items; an
    object with a schema for each of its properties, under distinct clean
    names, whose required names are names of properties, the name
    [__proto__] apart. *)
#[warnings="-register-all"]
Inductive Schema : JsVal -> Prop :=
  | Schema_type name :
      In name ["string"; "number"; "boolean"] -> Schema (type_schema name)
  | Schema_nullable :
      Schema (VObj Plain [("type", VStr "string"); ("nullable", VBool true)])
  | Schema_array items :
      Schema items -> Schema (VObj Plain [("type", VStr "array"); ("items", items)])
  | Schema_object properties required :
      Forall (fun property => Schema (snd property)) properties ->
      NoDup properties.*1 ->
      Forall (fun name => is_clean name = true) properties.*1 ->
      (forall name, In name required -> name = "__proto__" \/ In name properties.*1) ->
      Schema (object_schema properties required).

(** What [analyzeStructure] returns: a type name, an array of at most one
    structure, or an object of structures. *)
#[warnings="-register-all"]
Inductive Structure : JsVal -> Prop :=
  | Structure_type name :
      In name ["string"; "number"; "boolean"; "null"] -> Structure (VStr name)
  | Structure_empty : Structure (VArr [])
  | Structure_array item : Structure item -> Structure (VArr [item])
  | Structure_object props :
      Forall (fun field => Structure (snd field)) props -> Structure (VObj Plain props).

(** The value is an object with a property [hasOwnProperty], or holds one
    at some depth. *)
Definition HidesHasOwnProperty (obj : JsVal) : Prop :=
  exists props,
    In "hasOwnProperty" props.*1
    /\ (obj = VObj Plain props \/ exists key, In (key, VObj Plain props) (preorder obj)).

(* ================================================================== *)
(** ** Further inputs to run the engine on *)

Module Samples.

(** The finding of the missing-security-headers rule on a call that has
    no response yet, at clock reading 5. *)
Definition missing_headers_finding : Finding :=
  finding_of "missing-response-security-headers" Scenario.headers_rule 5
    (all_missing_issue ["Strict-Transport-Security"; "X-Content-Type-Options"]).

(** A rule entry with rule-specific settings. *)
Definition configured (severity name : string) (message : option string)
    (headers : option (list string)) (settings : list (string * JsVal)) : Rule :=
  {| r_enabled := true; r_severity := severity; r_name := name;
     r_description := name; r_message := message;
     r_headers := headers; r_threshold := None; r_timeWindow := None;
     r_excludeEndpoints := None; r_identityFields := None;
     r_settings := VObj Plain settings |}.

(** Entries for the rules whose checkers read settings. *)
Definition pii_rule : Rule :=
  configured "high" "PII in Request Body" None None
    [("fields", VArr [VStr "email"; VStr "ssn"])].
Definition mass_assignment_rule : Rule :=
  configured "high" "Mass Assignment" (Some "Privileged fields in the request body") None
    [("sensitiveFields", VArr [VStr "isAdmin"; VStr "role"])].
Definition unencrypted_rule : Rule :=
  configured "critical" "Unencrypted Sensitive Data" (Some "Sensitive data over HTTP") None
    [("fields", VArr [VStr "password"])].
Definition insecure_http_rule : Rule :=
  configured "critical" "Insecure HTTP" (Some "The call uses HTTP") None [].
Definition sensitive_headers_rule : Rule :=
  configured "high" "Sensitive Headers" None (Some ["x-user-email"; "X-User-SSN"]) [].
Definition exposure_rule : Rule :=
  configured "medium" "Excessive Data Exposure" None None
    [("checks", VArr [VObj Plain [("message", VStr "No pagination parameter")]])].
Definition authentication_rule : Rule :=
  configured "critical" "Missing Authentication" (Some "No credentials on the request") None
    [("excludePaths", VArr [VStr "/login"; VStr "/health"])].
Definition debug_rule : Rule :=
  configured "medium" "Debug Endpoints" None None
    [("patterns", VArr [VStr "/debug"; VStr ""; VStr "/admin"])].
Definition redirect_rule : Rule :=
  configured "high" "Open Redirect" None None
    [("params", VArr [VStr "redirect"; VStr "next"])].
Definition password_rule : Rule :=
  configured "medium" "Weak Password Policy" None None
    [("checks", VArr [VObj Plain [("field", VStr "password"); ("min_length", VNum 8);
                                  ("message", VStr "Password is too short")]])].
Definition cookies_rule : Rule :=
  configured "high" "Insecure Cookies" (Some "Cookie attributes are missing") None [].
Definition validation_rule : Rule :=
  configured "high" "Missing Input Validation" (Some "Unvalidated input") None [].

Definition credentials_check_entry : JsVal :=
  VObj Plain [("type", VStr "credentials_in_body");
              ("fields", VArr [VStr "password"; VStr "secret"]);
              ("message", VStr "Credentials in clear in the request body")].
Definition authentication_checks_rule : Rule :=
  configured "critical" "Weak Authentication" None None
    [("checks", VArr [VObj Plain [("type", VStr "basic_auth"); ("pattern", VStr "^Basic ")];
                      credentials_check_entry])].

(** A host whose regular expressions match nothing. *)
Definition no_match : RegExpHost := {| regexp_test := fun _ _ _ => Some false |}.

(** A registry of these entries. *)
Definition rule_table : list (string * Rule) :=
  [ ("pii-in-request-body", pii_rule);
    ("mass-assignment", mass_assignment_rule);
    ("unencrypted-sensitive-data", unencrypted_rule);
    ("insecure-http", insecure_http_rule);
    ("sensitive-headers", sensitive_headers_rule);
    ("excessive-data-exposure", exposure_rule);
    ("missing-authentication", authentication_rule);
    ("debug-endpoints", debug_rule);
    ("open-redirect", redirect_rule);
    ("weak-password-policy", password_rule);
    ("insecure-cookies", cookies_rule);
    ("missing-input-validation", validation_rule);
    ("weak-authentication", authentication_checks_rule) ].
Definition engine : Analyzer := analyzer_over rule_table ∅.

(** A registration request sent over HTTP, with a short password, a role
    and an e-mail address in its body and a page size in its query. *)
Definition signup_body : JsVal :=
  VObj Plain [("user", VObj Plain [("Email", VStr "a@b.com"); ("password", VStr "abc")]);
              ("role", VStr "admin"); ("comment", VStr "<b>hi</b>")].
Definition signup : Context :=
  {| ctx_url := "http://example.com/admin/signup"; ctx_method := "POST";
     ctx_headers := {["X-User-Email" := "a@b.com"]};
     ctx_queryParams := [("pageSize", "10"); ("Redirect", "https://evil.example");
                         ("next", "//evil.example")];
     ctx_requestBody := signup_body;
     ctx_callDetails :=
       Some {| cd_url := "http://example.com/admin/signup"; cd_method := Some "POST";
               cd_allHeaders := None; cd_queryParams := None;
               cd_requestBody := signup_body; cd_status := Some 200;
               cd_responseHeaders := Some {["Set-Cookie" := "sid=1; Secure; httponly"]};
               cd_responseBody := None |} |}.

(** The same request with method [GET]. *)
Definition listing : Context :=
  {| ctx_url := ctx_url signup; ctx_method := "GET"; ctx_headers := ctx_headers signup;
     ctx_queryParams := ctx_queryParams signup; ctx_requestBody := ctx_requestBody signup;
     ctx_callDetails := ctx_callDetails signup |}.

(** A rule that takes [constructor] for a redirect parameter, and a
    request whose query spells that name with a capital letter. *)
Definition constructor_rule : Rule :=
  configured "high" "Open Redirect" None None [("params", VArr [VStr "constructor"])].
Definition constructor_query : Context :=
  {| ctx_url := "https://example.com/go?Constructor=x"; ctx_method := "GET";
     ctx_headers := ∅; ctx_queryParams := [("Constructor", "x")];
     ctx_requestBody := empty_object; ctx_callDetails := None |}.

(** An endpoint of the background script with two calls on record. *)
Definition items_endpoint : string * EndpointData :=
  ("GET /api/items",
   {| ed_method := "GET"; ed_url := "https://example.com/api/items";
      ed_host := "example.com"; ed_pathname := "/api/items";
      ed_calls := [Scenario.plain_call; Scenario.limited_call];
      ed_queryParams := []; ed_requestBodies := []; ed_requestHeaders := [];
      ed_securityIssues := None |}).

End Samples.

(* ================================================================== *)
(** * Properties *)

(** *** Strings *)

Lemma append_nil (t : string) : "" +:+ t = t.
Proof. reflexivity. Qed.

Lemma append_cons (c : ascii) (s t : string) : String c s +:+ t = String c (s +:+ t).
Proof. reflexivity. Qed.

Lemma append_eq_empty (a b : string) : a +:+ b = "" -> a = "" /\ b = "".
Proof. destruct a; rewrite ?append_nil, ?append_cons in *; [tauto | discriminate]. Qed.

Lemma append_eq_cons (a b : string) (c : ascii) (s : string) :
  a +:+ b = String c s ->
  (a = "" /\ b = String c s) \/ (exists a', a = String c a' /\ s = a' +:+ b).
Proof.
  destruct a as [|x a]; rewrite ?append_nil, ?append_cons in *; intros H.
  - left. split; [reflexivity | assumption].
  - right. injection H as -> <-. exists a. split; reflexivity.
Qed.

Lemma startsWith_spec (s p : string) :
  startsWith s p = true <-> exists t, s = p +:+ t.
Proof.
  revert s. induction p as [|a p IH]; intros s; simpl.
  - split; [intros _; exists s; reflexivity | reflexivity].
  - destruct s as [|b s]; simpl.
    + split; [discriminate | intros [t Ht]; discriminate].
    + destruct (Ascii.eqb_spec a b) as [->|Hne].
      * rewrite IH. split; intros [t Ht]; exists t.
        -- now rewrite Ht.
        -- now injection Ht.
      * split; [discriminate | intros [t Ht]; injection Ht as Hb _; congruence].
Qed.

Lemma includes_spec (s sub : string) :
  includes s sub = true <-> exists a b, s = a +:+ sub +:+ b.
Proof.
  induction s as [|c s IH]; simpl.
  - rewrite orb_false_r, startsWith_spec. split.
    + intros [t Ht]. exists "", t. exact Ht.
    + intros (a & b & H). symmetry in H. apply append_eq_empty in H as [-> H].
      simpl in H. exists b. now rewrite H.
  - rewrite orb_true_iff, startsWith_spec, IH. split.
    + intros [[t Ht] | (a & b & H)].
      * exists "", t. exact Ht.
      * exists (String c a), b. simpl. now rewrite H.
    + intros (a & b & H). destruct a as [|x a]; simpl in H.
      * left. exists b. exact H.
      * right. injection H as _ H. exists a, b. exact H.
Qed.

(** *** The derivative matcher decides the language *)

Lemma lang_empty_inv (r : regex) (s : string) :
  lang r s -> s = "" -> nullable r = true.
Proof.
  induction 1; intros Hs; simpl; try reflexivity; try discriminate.
  - apply append_eq_empty in Hs as [-> ->]. now rewrite IHlang1, IHlang2.
  - now rewrite IHlang.
  - rewrite IHlang by assumption. apply orb_true_r.
Qed.

Lemma nullable_lang (r : regex) : nullable r = true <-> lang r "".
Proof.
  split; [| intros H; now apply (lang_empty_inv r "")].
  induction r; simpl; intros H; try discriminate.
  - constructor.
  - apply andb_true_iff in H as [H1 H2].
    change "" with ("" +:+ ""). constructor; auto.
  - apply orb_true_iff in H as [H|H]; [apply lang_alt_l | apply lang_alt_r]; auto.
  - constructor.
Qed.

Lemma lang_star_cons_inv (r : regex) (c : ascii) (s : string) :
  lang (Star r) (String c s) ->
  exists s1 s2, s = s1 +:+ s2 /\ lang r (String c s1) /\ lang (Star r) s2.
Proof.
  intros H. remember (Star r) as q eqn:Hq. remember (String c s) as t eqn:Ht.
  induction H; try discriminate.
  injection Hq as ->.
  apply append_eq_cons in Ht as [[-> ->] | (a' & -> & ->)].
  - apply IHlang2; reflexivity.
  - exists a', s2. auto.
Qed.

Lemma deriv_lang (r : regex) : forall c s, lang (deriv c r) s <-> lang r (String c s).
Proof.
  induction r as [| |p|r1 IH1 r2 IH2|r1 IH1 r2 IH2|r IH]; intros c s; simpl.
  - split; inversion 1.
  - split; inversion 1.
  - destruct (p c) eqn:Hp; split; intros H; inversion H; subst.
    + now constructor.
    + constructor.
    + congruence.
  - assert (Hcat : lang (Cat (deriv c r1) r2) s -> lang (Cat r1 r2) (String c s)).
    { intros H. inversion H; subst.
      change (String c (s1 +:+ s2)) with (String c s1 +:+ s2).
      constructor; [now apply IH1 | assumption]. }
    assert (Hinv : lang (Cat r1 r2) (String c s) ->
                   lang (Cat (deriv c r1) r2) s \/ (nullable r1 = true /\ lang (deriv c r2) s)).
    { intros H. inversion H as [| |q1 q2 s1 s2 H1 H2 Hq Hs| | | |]; subst.
      apply append_eq_cons in Hs as [[-> ->] | (a' & -> & ->)].
      - right. split; [now apply nullable_lang | now apply IH2].
      - left. constructor; [now apply IH1 | assumption]. }
    destruct (nullable r1) eqn:Hn.
    + split.
      * intros H. inversion H; subst; [now apply Hcat |].
        change (String c s) with ("" +:+ String c s).
        constructor; [now apply nullable_lang | now apply IH2].
      * intros H. apply Hinv in H as [H | [_ H]]; [now apply lang_alt_l | now apply lang_alt_r].
    + split; [exact Hcat |].
      intros H. apply Hinv in H as [H | [H _]]; [assumption | discriminate].
  - split; intros H; inversion H; subst.
    + apply lang_alt_l. now apply IH1.
    + apply lang_alt_r. now apply IH2.
    + apply lang_alt_l. now apply IH1.
    + apply lang_alt_r. now apply IH2.
  - split.
    + intros H. inversion H; subst.
      change (String c (s1 +:+ s2)) with (String c s1 +:+ s2).
      constructor; [now apply IH | assumption].
    + intros H. apply lang_star_cons_inv in H as (s1 & s2 & -> & H1 & H2).
      constructor; [now apply IH | assumption].
Qed.

Lemma re_test_lang (r : regex) (s : string) : re_test r s = true <-> lang r s.
Proof.
  revert r. induction s as [|c s IH]; intros r; simpl.
  - apply nullable_lang.
  - rewrite IH. apply deriv_lang.
Qed.

(** *** Induction on values *)

Lemma JsVal_nested_ind (P : JsVal -> Prop) :
  P VUndefined -> P VNull -> (forall b, P (VBool b)) -> (forall n, P (VNum n)) ->
  (forall s, P (VStr s)) ->
  (forall k props, Forall (fun entry => P (snd entry)) props -> P (VObj k props)) ->
  forall v, P v.
Proof.
  intros Hu Hn Hb Hz Hs Ho.
  fix rec 1.
  intros v. destruct v as [| |b|n|s|k props];
    [exact Hu | exact Hn | apply Hb | apply Hz | apply Hs |].
  apply Ho. induction props as [|[key value] rest IH]; constructor; [apply rec | exact IH].
Qed.

(** *** [findFieldValue] *)

Lemma findFieldValue_cons k key value rest fieldName :
  findFieldValue (VObj k ((key, value) :: rest)) fieldName =
  if name_eq fieldName (key, value) then value
  else match value with
       | VObj _ _ =>
           if not_null (findFieldValue value fieldName)
           then findFieldValue value fieldName
           else findFieldValue (VObj k rest) fieldName
       | _ => findFieldValue (VObj k rest) fieldName
       end.
Proof. destruct value; reflexivity. Qed.

Lemma preorder_cons k key value rest :
  preorder (VObj k ((key, value) :: rest)) =
  (key, value) :: preorder value ++ preorder (VObj k rest).
Proof. reflexivity. Qed.

Lemma find_app_split {A : Type} (f : A -> bool) (l1 l2 : list A) :
  List.find f (l1 ++ l2) =
  match List.find f l1 with Some x => Some x | None => List.find f l2 end.
Proof.
  induction l1 as [|a l1 IH]; [reflexivity |].
  simpl. destruct (f a); [reflexivity | exact IH].
Qed.

Lemma find_cons_eq {A : Type} (f : A -> bool) (a : A) (l : list A) :
  List.find f (a :: l) = if f a then Some a else List.find f l.
Proof. reflexivity. Qed.

Lemma findFieldValue_none fieldName : forall v,
  List.find (name_eq fieldName) (preorder v) = None ->
  findFieldValue v fieldName = VNull.
Proof.
  induction v as [| | | | |k props IH] using JsVal_nested_ind; try reflexivity.
  induction IH as [|[key value] rest Hv _ IHrest]; intros H; [reflexivity |].
  rewrite preorder_cons, find_cons_eq in H. rewrite findFieldValue_cons.
  destruct (name_eq fieldName (key, value)); [discriminate |].
  rewrite find_app_split in H.
  destruct (List.find (name_eq fieldName) (preorder value)) eqn:Hin; [discriminate |].
  simpl in Hv. rewrite (Hv Hin).
  destruct value; simpl; auto.
Qed.

Lemma findFieldValue_first fieldName : forall v key x,
  List.find (name_eq fieldName) (preorder v) = Some (key, x) ->
  x <> VNull ->
  findFieldValue v fieldName = x.
Proof.
  induction v as [| | | | |k props IH] using JsVal_nested_ind; try discriminate.
  induction IH as [|[key value] rest Hv _ IHrest]; intros key' x H Hx; [discriminate |].
  rewrite preorder_cons, find_cons_eq in H. rewrite findFieldValue_cons.
  destruct (name_eq fieldName (key, value)).
  - now injection H as _ ->.
  - rewrite find_app_split in H. simpl in Hv.
    destruct (List.find (name_eq fieldName) (preorder value)) as [[k1 x1]|] eqn:Hin.
    + injection H as -> ->. rewrite (Hv key' x eq_refl Hx).
      destruct value; try discriminate.
      destruct x; simpl; congruence.
    + rewrite (findFieldValue_none fieldName value Hin).
      destruct value; simpl; eauto.
Qed.

(** *** [findFieldsInObject] *)

(** The fixture of the specification: one entry, with its dotted path. *)
Example findFieldsInObject_nested_email :
  findFieldsInObjectWithValues
    (VObj Plain [("user", VObj Plain [("email", VStr "a@b.com")])]) ["email"]
  = [("user.email", VStr "a@b.com")].
Proof. reflexivity. Qed.

Lemma search_cons fieldNames k key value rest path :
  search fieldNames (VObj k ((key, value) :: rest)) path =
  (if key_matches fieldNames key then [(child_path path key, value)] else [])
  ++ search fieldNames value (child_path path key)
  ++ search fieldNames (VObj k rest) path.
Proof. destruct value; reflexivity. Qed.

Lemma key_matches_spec fieldNames key :
  key_matches fieldNames key = true <-> KeyMatches fieldNames key.
Proof.
  unfold key_matches, KeyMatches. rewrite existsb_exists. split.
  - intros (field & Hin & H). apply includes_spec in H as (a & b & H). eauto 6.
  - intros (field & a & b & Hin & H). exists field. split; [assumption |].
    apply includes_spec. eauto.
Qed.

Lemma search_sound fieldNames : forall obj prefix path value,
  In (path, value) (search fieldNames obj prefix) ->
  exists key, FieldAt obj prefix path key value /\ key_matches fieldNames key = true.
Proof.
  induction obj as [| | | | |k props IH] using JsVal_nested_ind;
    try (intros ? ? ? []).
  induction IH as [|[key child] rest Hchild _ IHrest]; intros prefix path value H;
    [destruct H |].
  rewrite search_cons in H. apply in_app_or in H as [H | H].
  - destruct (key_matches fieldNames key) eqn:Hk; [| destruct H].
    destruct H as [H | []]. injection H as <- <-.
    exists key. split; [| assumption]. constructor. now left.
  - apply in_app_or in H as [H | H].
    + apply Hchild in H as (key' & Hat & Hk). exists key'. split; [| assumption].
      eapply FieldAt_nested; [left; reflexivity | exact Hat].
    + apply IHrest in H as (key' & Hat & Hk). exists key'. split; [| assumption].
      inversion Hat; subst.
      * constructor. now right.
      * eapply FieldAt_nested; [right; eassumption | eassumption].
Qed.

Lemma search_own fieldNames k props prefix key value :
  In (key, value) props -> key_matches fieldNames key = true ->
  In (child_path prefix key, value) (search fieldNames (VObj k props) prefix).
Proof.
  induction props as [|[key0 value0] rest IH]; intros Hin Hk; [destruct Hin |].
  rewrite search_cons. destruct Hin as [Heq | Hin].
  - injection Heq as -> ->. rewrite Hk. now left.
  - apply in_or_app. right. apply in_or_app. right. now apply IH.
Qed.

Lemma search_nested fieldNames k props prefix key child entry :
  In (key, child) props ->
  In entry (search fieldNames child (child_path prefix key)) ->
  In entry (search fieldNames (VObj k props) prefix).
Proof.
  induction props as [|[key0 value0] rest IH]; intros Hin He; [destruct Hin |].
  rewrite search_cons. destruct Hin as [Heq | Hin].
  - injection Heq as -> ->. apply in_or_app. right. apply in_or_app. now left.
  - apply in_or_app. right. apply in_or_app. right. now apply IH.
Qed.

Lemma search_complete fieldNames obj prefix path key value :
  FieldAt obj prefix path key value -> key_matches fieldNames key = true ->
  In (path, value) (search fieldNames obj prefix).
Proof.
  induction 1; intros Hk.
  - now apply search_own.
  - eapply search_nested; eauto.
Qed.

(** The paths [findFieldsInObject] reports are those of the entries whose
    key matches a configured name. *)
Lemma findFieldsInObject_spec obj fieldNames path :
  In path (findFieldsInObject obj fieldNames) <->
  exists key value, FieldAt obj "" path key value /\ KeyMatches fieldNames key.
Proof.
  unfold findFieldsInObject. rewrite <- list_elem_of_In, list_elem_of_fmap. split.
  - intros ([p v] & -> & H). apply list_elem_of_In, search_sound in H as (key & Hat & Hk).
    exists key, v. split; [assumption | now apply key_matches_spec].
  - intros (key & value & Hat & Hk). exists (path, value). split; [reflexivity |].
    apply list_elem_of_In. eapply search_complete; [eassumption | now apply key_matches_spec].
Qed.

(** *** The languages of the analyzer's patterns *)

Lemma lang_cat_inv r1 r2 s :
  lang (Cat r1 r2) s <-> exists s1 s2, s = s1 +:+ s2 /\ lang r1 s1 /\ lang r2 s2.
Proof.
  split.
  - inversion 1; subst. eauto.
  - intros (s1 & s2 & -> & H1 & H2). now constructor.
Qed.

Lemma lang_chars_inv p s :
  lang (Chars p) s <-> exists c, s = String c "" /\ p c = true.
Proof.
  split.
  - inversion 1; subst. eauto.
  - intros (c & -> & H). now constructor.
Qed.

Lemma lang_star_chars p s : lang (Star (Chars p)) s <-> all_chars p s = true.
Proof.
  split.
  - intros H. remember (Star (Chars p)) as r eqn:Hr.
    induction H; try discriminate; [reflexivity |].
    injection Hr as ->. apply lang_chars_inv in H as (c & -> & Hc).
    rewrite append_cons, append_nil. simpl. rewrite Hc. now apply IHlang2.
  - induction s as [|c s IH]; simpl; intros H; [constructor |].
    apply andb_true_iff in H as [Hc Hs].
    change (String c s) with (String c "" +:+ s).
    constructor; [now constructor | now apply IH].
Qed.

Lemma lang_plus_chars p s :
  lang (Plus (Chars p)) s <-> s <> "" /\ all_chars p s = true.
Proof.
  unfold Plus. rewrite lang_cat_inv. split.
  - intros (s1 & s2 & -> & H1 & H2). apply lang_chars_inv in H1 as (c & -> & Hc).
    apply lang_star_chars in H2. rewrite append_cons, append_nil. simpl.
    rewrite Hc, H2. split; [discriminate | reflexivity].
  - intros [Hne H]. destruct s as [|c s]; [congruence |]. simpl in H.
    apply andb_true_iff in H as [Hc Hs].
    exists (String c ""), s. split; [reflexivity |].
    split; [now constructor | now apply lang_star_chars].
Qed.

Lemma lang_any_tail s : lang any_tail s.
Proof. apply lang_star_chars. induction s; simpl; auto. Qed.

Lemma lang_lit c s : lang (Lit c) s <-> s = String c "".
Proof.
  unfold Lit. rewrite lang_chars_inv. split.
  - intros (x & -> & H). apply Ascii.eqb_eq in H. now subst.
  - intros ->. exists c. split; [reflexivity | apply Ascii.eqb_refl].
Qed.

Lemma lang_str p : forall s, lang (Str p) s <-> s = p.
Proof.
  induction p as [|c p IH]; intros s; simpl.
  - split; [inversion 1; reflexivity | intros ->; constructor].
  - rewrite lang_cat_inv. split.
    + intros (s1 & s2 & -> & H1 & H2). apply lang_lit in H1 as ->.
      apply IH in H2 as ->. reflexivity.
    + intros ->. exists (String c ""), p. split; [reflexivity |].
      split; [now apply lang_lit | now apply IH].
Qed.

Lemma lang_stri p : forall s, lang (StrI p) s <-> toLowerCase s = toLowerCase p.
Proof.
  induction p as [|c p IH]; intros s; simpl.
  - split.
    + inversion 1. reflexivity.
    + destruct s; [constructor | discriminate].
  - rewrite lang_cat_inv. split.
    + intros (s1 & s2 & -> & H1 & H2). apply lang_chars_inv in H1 as (x & -> & Hx).
      apply Ascii.eqb_eq in Hx. apply IH in H2.
      rewrite append_cons, append_nil. simpl. now rewrite Hx, H2.
    + destruct s as [|x s]; simpl; [discriminate |]. intros H. injection H as Hx Hs.
      exists (String x ""), s. split; [reflexivity |]. split.
      * apply lang_chars_inv. exists x. split; [reflexivity |].
        rewrite Hx. apply Ascii.eqb_refl.
      * now apply IH.
Qed.

(** *** [isEncryptedOrHashed] *)

Lemma isEncryptedOrHashed_string s :
  isEncryptedOrHashed (VStr s) =
  nonempty s
  && (re_test re_payload_iv s
      || ((32 <=? Z.of_nat (String.length s)) && re_test re_base64 s
          && (includes s "=" || (Z.of_nat (String.length s) mod 4 =? 0)))
      || ((64 <=? Z.of_nat (String.length s)) && re_test re_hex s)
      || re_test re_jwt s
      || re_test re_bcrypt s
      || re_test re_salted s
      || ((40 <=? Z.of_nat (String.length s)) && re_test re_long_token s)).
Proof.
  unfold isEncryptedOrHashed.
  destruct (nonempty s); simpl; [| reflexivity].
  repeat match goal with
         | |- (if ?c then true else _) = _ => destruct c; simpl; [reflexivity |]
         end.
  reflexivity.
Qed.

Lemma isEncryptedOrHashed_hex s :
  (64 <= String.length s)%nat -> all_chars cls_hex s = true ->
  isEncryptedOrHashed (VStr s) = true.
Proof.
  intros Hlen Hhex. rewrite isEncryptedOrHashed_string.
  assert (Hne : s <> "") by (destruct s; [simpl in Hlen; lia | discriminate]).
  assert (Hre : re_test re_hex s = true).
  { apply re_test_lang, lang_plus_chars. auto. }
  assert (H64 : (64 <=? Z.of_nat (String.length s)) = true) by (apply Z.leb_le; lia).
  rewrite Hre, H64. destruct s; [congruence |]. simpl.
  rewrite !orb_true_r. reflexivity.
Qed.

Lemma isEncryptedOrHashed_jwt a b c :
  a <> "" -> b <> "" -> c <> "" ->
  all_chars cls_base64url a = true -> all_chars cls_base64url b = true ->
  all_chars cls_base64url c = true ->
  isEncryptedOrHashed (VStr (a +:+ "." +:+ b +:+ "." +:+ c)) = true.
Proof.
  intros Ha Hb Hc Ha' Hb' Hc'. rewrite isEncryptedOrHashed_string.
  assert (Hre : re_test re_jwt (a +:+ "." +:+ b +:+ "." +:+ c) = true).
  { apply re_test_lang. unfold re_jwt.
    constructor; [now apply lang_plus_chars |].
    constructor; [now apply lang_lit |].
    constructor; [now apply lang_plus_chars |].
    constructor; [now apply lang_lit | now apply lang_plus_chars]. }
  rewrite Hre. destruct a; [congruence |]. rewrite append_cons. simpl.
  rewrite !orb_true_r. reflexivity.
Qed.

(** *** The JWT detection *)

Lemma bearer_jwt_lang v : lang re_bearer_jwt v <-> BearerJwt v.
Proof.
  unfold re_bearer_jwt, BearerJwt. split.
  - intros H.
    apply lang_cat_inv in H as (b & s1 & -> & Hb & H).
    apply lang_cat_inv in H as (ws & s2 & -> & Hws & H).
    apply lang_cat_inv in H as (t & rest & -> & Ht & _).
    apply lang_stri in Hb. apply lang_stri in Ht. apply lang_plus_chars in Hws as [Hne Hws].
    exists b, ws, t, rest. auto.
  - intros (b & ws & t & rest & -> & Hb & Hne & Hws & Ht).
    constructor; [now apply lang_stri |].
    constructor; [now apply lang_plus_chars |].
    constructor; [now apply lang_stri | apply lang_any_tail].
Qed.

Lemma nonempty_true s : nonempty s = true <-> s <> "".
Proof. destruct s; simpl; split; congruence. Qed.

Lemma hasJWT_spec v : hasJWT (Some v) = true <-> JwtShaped v.
Proof.
  unfold hasJWT, JwtShaped.
  rewrite andb_true_iff, !orb_true_iff, !re_test_lang, bearer_jwt_lang, includes_spec.
  split.
  - intros [_ [[H | H] | H]]; [now left | | now right].
    right. apply lang_cat_inv in H as (s1 & s2 & -> & H1 & _).
    apply lang_str in H1 as ->. now exists "", s2.
  - intros H. split.
    + apply nonempty_true. destruct H as [(b & ws & t & rest & -> & Hb & _) | (a & b & ->)].
      * destruct b; [discriminate | discriminate].
      * destruct a; discriminate.
    + destruct H as [H | H]; [left; now left | now right].
Qed.

(** *** Header reads *)

Lemma truthy_str_true (a : option string) :
  truthy_str a = true <-> exists v, a = Some v /\ v <> "".
Proof.
  destruct a as [s|]; simpl.
  - rewrite nonempty_true. split; [eauto | intros (v & [= ->] & H); exact H].
  - split; [discriminate | intros (v & H & _); discriminate].
Qed.

Lemma first_read_spec headers names v :
  first_read headers names = Some v <-> HeaderRead headers names v.
Proof.
  unfold HeaderRead. induction names as [|name rest IH]; simpl.
  - split; [discriminate | intros (i & n & H & _); destruct i; discriminate].
  - destruct (truthy_str (headers !! name)) eqn:Ht.
    + split.
      * intros H. exists O, name. apply truthy_str_true in Ht as (w & Hw & Hne).
        rewrite Hw in H. injection H as ->.
        repeat split; auto. intros j other Hj. lia.
      * intros (i & n & Hi & Hn & Hne & Hprev). destruct i as [|i].
        -- injection Hi as ->. exact Hn.
        -- specialize (Hprev O name ltac:(lia) eq_refl). congruence.
    + rewrite IH. split.
      * intros (i & n & Hi & Hn & Hne & Hprev). exists (S i), n.
        repeat split; auto. intros [|j] other Hj Ho.
        -- injection Ho as <-. exact Ht.
        -- apply (Hprev j); [lia | exact Ho].
      * intros (i & n & Hi & Hn & Hne & Hprev). destruct i as [|i].
        -- injection Hi as ->. rewrite Hn in Ht. simpl in Ht.
           apply nonempty_true in Hne. congruence.
        -- exists i, n. repeat split; auto. intros j other Hj Ho.
           apply (Hprev (S j)); [lia | exact Ho].
Qed.

Lemma or_str_first a b : or_str a b = if truthy_str a then a else b.
Proof. destruct a as [[|c s]|]; reflexivity. Qed.

(** The chain of [||] reads the first non-empty header, whenever it reads a
    non-empty value at all. *)
Lemma auth_header_first_read headers :
  hasJWT (auth_header headers) = hasJWT (first_read headers auth_variants).
Proof.
  unfold auth_header, auth_variants. simpl. rewrite !or_str_first.
  repeat match goal with
         | |- context [truthy_str (headers !! ?n)] =>
             destruct (headers !! n) as [[|? ?]|]; simpl; try reflexivity
         end.
Qed.

Lemma cors_acao_first_read responseHeaders :
  bool_decide (cors_acao responseHeaders = Some "*")
  = bool_decide (first_read responseHeaders acao_names = Some "*").
Proof.
  unfold cors_acao, acao_names. simpl. rewrite !or_str_first.
  repeat match goal with
         | |- context [truthy_str (responseHeaders !! ?n)] =>
             destruct (responseHeaders !! n) as [[|? ?]|]; simpl; try reflexivity
         end.
Qed.

Lemma cors_acac_first_read responseHeaders :
  truthy_str (cors_acac responseHeaders)
  && bool_decide (toLowerCase <$> cors_acac responseHeaders = Some "true")
  = bool_decide (toLowerCase <$> first_read responseHeaders acac_names = Some "true").
Proof.
  unfold cors_acac, acac_names. simpl. rewrite !or_str_first.
  repeat match goal with
         | |- context [truthy_str (responseHeaders !! ?n)] =>
             destruct (responseHeaders !! n) as [[|? ?]|]; simpl; try reflexivity
         end.
Qed.

(** *** The conditions of the untrusted-client-identity checker *)

Lemma is_write_method_spec method :
  is_write_method method = true <-> WriteMethod method.
Proof.
  unfold is_write_method, array_includes, WriteMethod. simpl.
  rewrite !orb_true_iff, !String.eqb_eq. intuition congruence.
Qed.

Lemma write_method_default method :
  is_write_method (if nonempty method then method else "GET") = is_write_method method.
Proof. destruct method; reflexivity. Qed.

Lemma is_excluded_spec excluded pathname :
  is_excluded excluded (toLowerCase pathname) = true <-> PathExcluded excluded pathname.
Proof.
  unfold is_excluded, PathExcluded. rewrite existsb_exists. split.
  - intros (endpoint & Hin & H). apply includes_spec in H as (a & b & H). eauto 6.
  - intros (endpoint & a & b & Hin & H). exists endpoint. split; [assumption |].
    apply includes_spec. eauto.
Qed.

Lemma structured_spec v :
  negb (truthy v) || negb (typeof_object v) = false <-> Structured v.
Proof.
  unfold Structured. destruct v as [| |b|n|s|k props]; simpl; split;
    try (intros (k' & props' & H); discriminate); eauto; try discriminate.
  - destruct b; discriminate.
  - destruct (n =? 0); discriminate.
  - destruct (nonempty s); discriminate.
Qed.

Lemma jwt_header_spec headers :
  hasJWT (auth_header headers) = true <->
  exists v, HeaderRead headers auth_variants v /\ JwtShaped v.
Proof.
  rewrite auth_header_first_read. split.
  - destruct (first_read headers auth_variants) as [v|] eqn:Hr; [| discriminate].
    intros H. exists v. split; [now apply first_read_spec | now apply hasJWT_spec].
  - intros (v & Hr & Hj). apply first_read_spec in Hr. rewrite Hr. now apply hasJWT_spec.
Qed.

Lemma found_fields_spec body identity :
  (0 <? Z.of_nat (length (findFieldsInObject body identity))) = true <->
  exists path key value, FieldAt body "" path key value /\ KeyMatches identity key.
Proof.
  rewrite Z.ltb_lt. split.
  - intros H. destruct (findFieldsInObject body identity) as [|path rest] eqn:Hf;
      [simpl in H; lia |].
    assert (Hin : In path (findFieldsInObject body identity)) by (rewrite Hf; now left).
    apply findFieldsInObject_spec in Hin as (key & value & H1 & H2). eauto.
  - intros (path & key & value & H1 & H2).
    assert (Hin : In path (findFieldsInObject body identity))
      by (apply findFieldsInObject_spec; eauto).
    destruct (findFieldsInObject body identity); [destruct Hin | simpl; lia].
Qed.

Section Identity.
Context {host : Host}.

(** What the checker returns, condition by condition. *)
Lemma checkUntrustedClientIdentity_cases this context rs rule excluded identity :
  rules this = Some rs ->
  assoc "untrusted-client-identity" rs = Some rule ->
  r_excludeEndpoints rule = Some excluded ->
  r_identityFields rule = Some identity ->
  (IdentityFires excluded identity context
   /\ checkUntrustedClientIdentity this context = Ok [identity_issue rule identity context])
  \/ (~ IdentityFires excluded identity context
      /\ (checkUntrustedClientIdentity this context = Ok []
          \/ checkUntrustedClientIdentity this context = Throw)).
Proof.
  intros Hrs Hrule Hex Hid.
  unfold checkUntrustedClientIdentity, with_rule, IdentityFires.
  rewrite Hrs, Hrule, Hex, Hid, write_method_default.
  destruct (url_pathname (ctx_url context)) as [pathname|] eqn:Hurl.
  2:{ right. split; [| now right]. intros (_ & (p & Hp & _) & _). discriminate. }
  destruct (is_write_method (ctx_method context)) eqn:Hm; simpl.
  2:{ right. split; [| now left]. intros (Hw & _).
      apply is_write_method_spec in Hw. congruence. }
  destruct (is_excluded excluded (toLowerCase pathname)) eqn:Hx.
  { right. split; [| now left]. intros (_ & (p & Hp & Hn) & _).
    injection Hp as <-. apply Hn. now apply is_excluded_spec. }
  destruct (negb (truthy (ctx_requestBody context))
            || negb (typeof_object (ctx_requestBody context))) eqn:Hb.
  { right. split; [| now left]. intros (_ & _ & Hs & _).
    apply structured_spec in Hs. congruence. }
  destruct (hasJWT (auth_header (ctx_headers context))) eqn:Hj.
  2:{ right. split; [| now left]. intros (_ & _ & _ & Hh & _).
      apply jwt_header_spec in Hh. congruence. }
  destruct (0 <? Z.of_nat (length (findFieldsInObject (ctx_requestBody context) identity)))
    eqn:Hf.
  2:{ right. split; [| now left]. intros (_ & _ & _ & _ & He).
      apply found_fields_spec in He. congruence. }
  left. split; [| reflexivity].
  split; [now apply is_write_method_spec |].
  split. { exists pathname. split; [reflexivity |]. intros H.
           apply is_excluded_spec in H. congruence. }
  split; [now apply structured_spec |].
  split; [now apply jwt_header_spec | now apply found_fields_spec].
Qed.

End Identity.

(** Claim C1, as amended.  The untrusted-client-identity checker, run for
    a rule configured with its excluded substrings and its identity-field
    names, reports if and only if all of these hold: the method, upper-cased,
    is POST, PUT or PATCH; the URL parses and its path, letter case apart,
    contains no excluded substring; the request body is a structured object;
    the first non-empty header among Authorization, authorization,
    AUTHORIZATION, Auth and auth, read in that order, has a value of JWT
    shape ([Bearer], white space and [eyJ] at its start, letter case apart,
    or [eyJ] anywhere); and some key of the body, at any depth, contains a
    configured identity-field name, letter case apart.  It then reports
    exactly one issue, whose [fields] are the dotted paths of the matching
    keys, and it never reports more than one.  On the fixture of the
    specification (POST, path /api/update, a Bearer JWT, body with an email)
    it reports one issue with the field path [email]; with the path
    /api/register, with the method GET, or with a body that holds a name
    only, it reports none. *)
Theorem untrusted_identity_fires_iff :
  (forall (host : Host) this context rs rule excluded identity,
      rules this = Some rs ->
      assoc "untrusted-client-identity" rs = Some rule ->
      r_excludeEndpoints rule = Some excluded ->
      r_identityFields rule = Some identity ->
      ((exists issue, checkUntrustedClientIdentity this context = Ok [issue])
       <-> IdentityFires excluded identity context)
      /\ (IdentityFires excluded identity context ->
          checkUntrustedClientIdentity this context
          = Ok [identity_issue rule identity context])
      /\ (forall issues, checkUntrustedClientIdentity this context = Ok issues ->
          (length issues <= 1)%nat)
      /\ (forall path,
          In path (findFieldsInObject (ctx_requestBody context) identity)
          <-> exists key value,
                FieldAt (ctx_requestBody context) "" path key value
                /\ KeyMatches identity key))
  /\ (let this := analyzer_over Scenario.registry ∅ in
      @checkUntrustedClientIdentity Scenario.quiet_host this Scenario.update_request
      = Ok [ {| i_message := r_message Scenario.identity_rule;
                i_details := identity_details ["email"];
                i_location := Some "body" |} ]
      /\ @checkUntrustedClientIdentity Scenario.quiet_host this Scenario.register_request = Ok []
      /\ @checkUntrustedClientIdentity Scenario.quiet_host this Scenario.get_request = Ok []
      /\ @checkUntrustedClientIdentity Scenario.quiet_host this Scenario.name_request = Ok []).
Proof.
  split.
  - intros host this context rs rule excluded identity Hrs Hrule Hex Hid.
    destruct (checkUntrustedClientIdentity_cases this context rs rule excluded identity
                Hrs Hrule Hex Hid) as [[Hf Hc] | [Hn Hc]].
    + rewrite Hc. split; [| split; [| split]].
      * split; [intros _; exact Hf | intros _; eauto].
      * reflexivity.
      * intros issues [= <-]. simpl. lia.
      * intros path. apply findFieldsInObject_spec.
    + split; [| split; [| split]].
      * split; [| tauto]. intros [issue Hi]. destruct Hc as [Hc | Hc]; congruence.
      * tauto.
      * intros issues Hi. destruct Hc as [Hc | Hc]; [| congruence].
        rewrite Hc in Hi. injection Hi as <-. simpl. lia.
      * intros path. apply findFieldsInObject_spec.
  - vm_compute. repeat split; reflexivity.
Qed.

(** The amended claim C1 on the fixture of the specification. *)
Lemma untrusted_identity_fires_iff_witness :
  @IdentityFires Scenario.quiet_host ["login"; "register"] ["email"; "userId"; "username"]
    Scenario.update_request.
Proof.
  apply (proj1 (proj1 untrusted_identity_fires_iff Scenario.quiet_host
                  (analyzer_over Scenario.registry ∅) Scenario.update_request
                  Scenario.registry Scenario.identity_rule
                  ["login"; "register"] ["email"; "userId"; "username"]
                  eq_refl eq_refl eq_refl eq_refl)).
  eexists. vm_compute. reflexivity.
Defined.

(** Claim C1, as stated, fails.  A POST to /api/update whose body holds an
    email carries Basic credentials in [Authorization] and a JWT in [Auth]:
    a header of the Authorization family is present with a value of JWT
    shape, and every other condition holds, yet the checker reports nothing,
    because it looks at [Authorization] alone. *)
Lemma untrusted_identity_any_header_fails :
  @IdentityFiresAsStated Scenario.quiet_host ["login"; "register"]
     ["email"; "userId"; "username"] Scenario.two_auth_request
  /\ @checkUntrustedClientIdentity Scenario.quiet_host
       (analyzer_over Scenario.registry ∅) Scenario.two_auth_request = Ok [].
Proof.
  split; [| vm_compute; reflexivity].
  split; [left; reflexivity |].
  split. { exists "/api/update". split; [vm_compute; reflexivity |].
           intros H. apply is_excluded_spec in H. vm_compute in H. discriminate. }
  split; [eexists _, _; reflexivity |].
  split. { exists "Auth", "eyJhbGciOiJIUzI1NiJ9.x.y".
           split; [simpl; tauto |]. split; [vm_compute; reflexivity |].
           right. exists "", "hbGciOiJIUzI1NiJ9.x.y". reflexivity. }
  exists "email", "email", (VStr "a@b.com"). split.
  - apply (FieldAt_own Plain [("email", VStr "a@b.com")] "" "email"). now left.
  - exists "email", "", "". split; [simpl; tauto | reflexivity].
Qed.

(** Claim C2.  [isEncryptedOrHashed] returns a boolean on every value; it
    returns [false] on every value that is not a string and on the empty
    string; it returns [true] on the payload-and-IV fixture, on every
    hexadecimal string of 64 characters and on every string made of three
    non-empty base64url segments separated by dots; it returns [false] on
    ["MyPassword123"] and on ["12345"]. *)
Theorem isEncryptedOrHashed_total :
  (forall v, exists b : bool, isEncryptedOrHashed v = b)
  /\ (forall v, (forall s, v <> VStr s) -> isEncryptedOrHashed v = false)
  /\ isEncryptedOrHashed (VStr "") = false
  /\ isEncryptedOrHashed (VStr "IdZMA2rdzVBi|Qhk9eJunvTlOVP/ZnwNZPw==") = true
  /\ isEncryptedOrHashed (VStr "MyPassword123") = false
  /\ (forall s, String.length s = 64%nat -> all_chars cls_hex s = true ->
      isEncryptedOrHashed (VStr s) = true)
  /\ (forall a b c,
      a <> "" -> b <> "" -> c <> "" ->
      all_chars cls_base64url a = true -> all_chars cls_base64url b = true ->
      all_chars cls_base64url c = true ->
      isEncryptedOrHashed (VStr (a +:+ "." +:+ b +:+ "." +:+ c)) = true)
  /\ isEncryptedOrHashed (VStr "12345") = false.
Proof.
  split; [intros v; eexists; reflexivity |].
  split. { intros v Hv. destruct v; try reflexivity. now destruct (Hv s). }
  split; [reflexivity |].
  split; [vm_compute; reflexivity |].
  split; [vm_compute; reflexivity |].
  split. { intros s Hlen Hhex. apply isEncryptedOrHashed_hex; [lia | assumption]. }
  split; [apply isEncryptedOrHashed_jwt |].
  vm_compute. reflexivity.
Qed.

(** Claim C2 on a hexadecimal string of 64 characters and on a JWT. *)
Lemma isEncryptedOrHashed_total_witness :
  isEncryptedOrHashed
    (VStr "0123456789abcdef0123456789ABCDEF0123456789abcdef0123456789ABCDEF") = true
  /\ isEncryptedOrHashed (VStr "eyJhbGciOiJIUzI1NiJ9.eyJzdWIiOiIxIn0.c2ln") = true.
Proof.
  destruct isEncryptedOrHashed_total as (_ & _ & _ & _ & _ & Hhex & Hjwt & _).
  split.
  - apply Hhex; vm_compute; reflexivity.
  - apply (Hjwt "eyJhbGciOiJIUzI1NiJ9" "eyJzdWIiOiIxIn0" "c2ln");
      solve [discriminate | vm_compute; reflexivity].
Defined.

(** *** The CORS checker *)

Lemma cors_acao_value responseHeaders v :
  first_read responseHeaders acao_names = Some v -> cors_acao responseHeaders = Some v.
Proof.
  unfold cors_acao, acao_names. simpl. rewrite !or_str_first.
  repeat match goal with
         | |- context [truthy_str (responseHeaders !! ?n)] =>
             destruct (responseHeaders !! n) as [[|? ?]|]; simpl;
             try (intros; assumption); try discriminate
         end.
Qed.

Lemma cors_acac_value responseHeaders v :
  first_read responseHeaders acac_names = Some v -> cors_acac responseHeaders = Some v.
Proof.
  unfold cors_acac, acac_names. simpl. rewrite !or_str_first.
  repeat match goal with
         | |- context [truthy_str (responseHeaders !! ?n)] =>
             destruct (responseHeaders !! n) as [[|? ?]|]; simpl;
             try (intros; assumption); try discriminate
         end.
Qed.

Lemma cors_condition responseHeaders :
  bool_decide (cors_acao responseHeaders = Some "*")
  && truthy_str (cors_acac responseHeaders)
  && bool_decide (toLowerCase <$> cors_acac responseHeaders = Some "true")
  = bool_decide (first_read responseHeaders acao_names = Some "*")
    && bool_decide (toLowerCase <$> first_read responseHeaders acac_names = Some "true").
Proof. now rewrite <- andb_assoc, cors_acac_first_read, cors_acao_first_read. Qed.

Lemma cors_fires_spec responseHeaders :
  bool_decide (first_read responseHeaders acao_names = Some "*")
  && bool_decide (toLowerCase <$> first_read responseHeaders acac_names = Some "true") = true
  <-> CorsFires responseHeaders.
Proof.
  unfold CorsFires. rewrite andb_true_iff, !bool_decide_eq_true, first_read_spec.
  split; intros [Ha Hc]; (split; [exact Ha |]).
  - destruct (first_read responseHeaders acac_names) as [v|] eqn:Hv; [| discriminate].
    injection Hc as Hc. exists v. split; [now apply first_read_spec | exact Hc].
  - destruct Hc as (v & Hv & Hc). apply first_read_spec in Hv. now rewrite Hv, <- Hc.
Qed.

(** Claim C6, as amended.  For a configured rule, the cors-misconfiguration
    checker reports if and only if the response's Access-Control-Allow-Origin
    header is [*] and its Access-Control-Allow-Credentials header is present
    with [true] as its value, letter case apart, each header being read
    under its canonical or its lower-case spelling only, the first of the
    two that carries a non-empty value.  It then reports exactly one issue;
    otherwise it reports none: in particular when no credentials header is
    present, and when no origin header is present, under these spellings. *)
Theorem cors_fires_iff this context rs rule :
  rules this = Some rs ->
  assoc "cors-misconfiguration" rs = Some rule ->
  ((exists issue, checkCorsMisconfiguration this context = Ok [issue])
   <-> CorsFires (response_headers context))
  /\ (CorsFires (response_headers context) ->
      exists v, HeaderRead (response_headers context) acac_names v
        /\ checkCorsMisconfiguration this context
           = Ok [ {| i_message := r_message rule;
                     i_details := VObj Plain [("acao", VStr "*"); ("acac", VStr v)];
                     i_location := Some "response-headers" |} ])
  /\ (~ CorsFires (response_headers context) ->
      checkCorsMisconfiguration this context = Ok [])
  /\ (response_headers context !! "Access-Control-Allow-Credentials" = None ->
      response_headers context !! "access-control-allow-credentials" = None ->
      checkCorsMisconfiguration this context = Ok [])
  /\ (response_headers context !! "Access-Control-Allow-Origin" = None ->
      response_headers context !! "access-control-allow-origin" = None ->
      checkCorsMisconfiguration this context = Ok []).
Proof.
  intros Hrs Hrule.
  cut (((exists issue, checkCorsMisconfiguration this context = Ok [issue])
        <-> CorsFires (response_headers context))
       /\ (CorsFires (response_headers context) ->
           exists v, HeaderRead (response_headers context) acac_names v
             /\ checkCorsMisconfiguration this context
                = Ok [ {| i_message := r_message rule;
                          i_details := VObj Plain [("acao", VStr "*"); ("acac", VStr v)];
                          i_location := Some "response-headers" |} ])
       /\ (~ CorsFires (response_headers context) ->
           checkCorsMisconfiguration this context = Ok [])
       /\ (first_read (response_headers context) acac_names = None ->
           checkCorsMisconfiguration this context = Ok [])
       /\ (first_read (response_headers context) acao_names = None ->
           checkCorsMisconfiguration this context = Ok [])).
  { intros (H1 & H2 & H3 & H4 & H5).
    split; [exact H1 | split; [exact H2 | split; [exact H3 | split]]].
    - intros Ha Hb. apply H4. simpl. now rewrite Ha, Hb.
    - intros Ha Hb. apply H5. simpl. now rewrite Ha, Hb. }
  unfold checkCorsMisconfiguration, with_rule.
  rewrite Hrs, Hrule. set (rh := response_headers context).
  rewrite cors_condition.
  destruct (bool_decide (first_read rh acao_names = Some "*")
            && bool_decide (toLowerCase <$> first_read rh acac_names = Some "true")) eqn:Hb.
  - pose proof (proj1 (cors_fires_spec rh) Hb) as Hfires.
    apply andb_true_iff in Hb as [Ha Hc].
    apply bool_decide_eq_true in Ha. apply bool_decide_eq_true in Hc.
    destruct (first_read rh acac_names) as [v|] eqn:Hv; [| discriminate].
    rewrite (cors_acao_value rh "*" Ha), (cors_acac_value rh v Hv). unfold header_val.
    split; [split; eauto |].
    split; [intros _; exists v; split; [now apply first_read_spec | reflexivity] |].
    split; [tauto |]. split; [discriminate | intros H; congruence].
  - assert (Hno : ~ CorsFires rh).
    { intros H. apply cors_fires_spec in H. congruence. }
    split; [split; [intros [issue Hi]; discriminate | tauto] |].
    split; [tauto |]. repeat split; reflexivity.
Qed.

(** The amended claim C6 on a response that allows any origin with
    credentials. *)
Lemma cors_fires_iff_witness : CorsFires (response_headers Scenario.cors_response).
Proof.
  apply (proj1 (cors_fires_iff (analyzer_over Scenario.registry ∅) Scenario.cors_response
                  Scenario.registry Scenario.cors_rule eq_refl eq_refl)).
  eexists. vm_compute. reflexivity.
Defined.

(** Claim C6, as stated, fails.  A response allows any origin and allows
    credentials, and its server writes the names of the two headers with one
    capital letter, [Access-control-allow-origin] and
    [Access-control-allow-credentials]: the response has both headers with
    the values of the claim, yet the checker reports nothing, because it
    reads each header under two spellings only. *)
Lemma cors_other_letter_case_fails :
  CorsFiresAsStated (response_headers Scenario.cors_response_one_capital)
  /\ @checkCorsMisconfiguration
       (analyzer_over Scenario.registry ∅) Scenario.cors_response_one_capital = Ok [].
Proof.
  split; [| vm_compute; reflexivity].
  split.
  - exists "Access-control-allow-origin". split; vm_compute; reflexivity.
  - exists "true". split; [| reflexivity].
    exists "Access-control-allow-credentials". split; vm_compute; reflexivity.
Qed.

(** Claim C9, as amended.  [findFieldValue] searches depth first with an
    exact, case-insensitive match of the key and returns the value of the
    first matching key in pre-order, the order in which a key that does not
    match has its nested value searched before the next key of the same
    object is looked at (keys in the order of [Object.entries]), provided
    that value is not [null]. *)
Theorem findFieldValue_preorder fieldName v key x :
  List.find (name_eq fieldName) (preorder v) = Some (key, x) ->
  x <> VNull ->
  findFieldValue v fieldName = x.
Proof. apply findFieldValue_first. Qed.

(** The amended claim C9 on [{a: {x: 1}, x: 2}]. *)
Lemma findFieldValue_preorder_witness :
  findFieldValue Scenario.nested_first "x" = VNum 1.
Proof.
  apply (findFieldValue_preorder "x" Scenario.nested_first "x" (VNum 1));
    [vm_compute; reflexivity | discriminate].
Defined.

(** Claim C9, as stated, fails.  In [{a: {x: 1}, x: 2}] the shallowest
    key [x] holds 2; [findFieldValue] returns 1, the value of the nested
    key, because it descends into [a] before it looks at the second key of
    the root. *)
Lemma findFieldValue_not_shallowest :
  shallowest_match Scenario.nested_first "x" = Some (VNum 2)
  /\ findFieldValue Scenario.nested_first "x" = VNum 1
  /\ VNum 1 <> VNum 2.
Proof. split; [| split]; [vm_compute; reflexivity | vm_compute; reflexivity | discriminate]. Qed.

(** *** The missing-security-headers checker *)

Lemma filter_all {A : Type} (P : A -> Prop) `{forall x, Decision (P x)} (l : list A) :
  (forall x, In x l -> P x) -> filter P l = l.
Proof.
  induction l as [|a l IH]; intros Hall; [reflexivity |].
  rewrite filter_cons_True by (apply Hall; now left).
  rewrite IH; [reflexivity |]. intros x Hx. apply Hall. now right.
Qed.

(** Claim C10.  On a context without response headers (the request-phase
    submission of an exchange) the missing-response-security-headers checker
    takes the set of response headers to be empty and, with the security
    headers its rule configures, reports exactly one issue, which lists
    every configured header as missing. *)
Theorem missing_headers_on_absent_response this context rs rule configured :
  rules this = Some rs ->
  assoc "missing-response-security-headers" rs = Some rule ->
  r_headers rule = Some configured ->
  configured <> [] ->
  ctx_callDetails context ≫= cd_responseHeaders = None ->
  response_headers context = ∅
  /\ checkMissingResponseSecurityHeaders this context = Ok [all_missing_issue configured].
Proof.
  intros Hrs Hrule Hh Hne Habs.
  assert (Hempty : response_headers context = ∅).
  { unfold response_headers. now rewrite Habs. }
  split; [exact Hempty |].
  unfold checkMissingResponseSecurityHeaders, with_rule.
  rewrite Hrs, Hrule, Hempty. simpl. rewrite Hh.
  unfold header_keys. rewrite map_to_list_empty. simpl.
  rewrite filter_all by reflexivity.
  destruct configured; [congruence | reflexivity].
Qed.

(** Claim C10 on a request-phase context and two configured headers. *)
Lemma missing_headers_on_absent_response_witness :
  checkMissingResponseSecurityHeaders
     (analyzer_over Scenario.registry ∅) Scenario.update_request
  = Ok [all_missing_issue ["Strict-Transport-Security"; "X-Content-Type-Options"]].
Proof.
  apply (missing_headers_on_absent_response
           (analyzer_over Scenario.registry ∅) Scenario.update_request
           Scenario.registry Scenario.headers_rule
           ["Strict-Transport-Security"; "X-Content-Type-Options"]
           eq_refl eq_refl eq_refl ltac:(discriminate) eq_refl).
Defined.

(** A rule entry that configures no security header is no case of the
    claim: with an empty list the checker has nothing to report, on any
    context; without a list it throws, and [analyzeCall] records no finding
    for the rule. *)
Lemma missing_headers_without_configured_header this context rs rule :
  rules this = Some rs ->
  assoc "missing-response-security-headers" rs = Some rule ->
  (r_headers rule = Some [] -> checkMissingResponseSecurityHeaders this context = Ok [])
  /\ (r_headers rule = None -> checkMissingResponseSecurityHeaders this context = Throw).
Proof.
  intros Hrs Hrule. unfold checkMissingResponseSecurityHeaders, with_rule.
  rewrite Hrs, Hrule. simpl. split; intros ->; reflexivity.
Qed.

(** *** The summary of the panel *)

Lemma unique_issues_known issues : forall seen,
  (forall f, In f issues -> exists g, assoc (issue_key f) seen = Some g) ->
  unique_issues issues seen = seen.
Proof.
  induction issues as [|f rest IH]; intros seen Hseen; [reflexivity |]. simpl.
  destruct (Hseen f (or_introl eq_refl)) as [g ->].
  apply IH. intros f' Hf'. apply Hseen. now right.
Qed.

(** Findings that share severity and message, in any number, are counted
    once, whatever their details. *)
Lemma same_key_counts_once f rest :
  (forall g, In g rest -> f_severity g = f_severity f /\ f_message g = f_message f) ->
  updateSecuritySummary [Some (f :: rest)] = bump (f_severity f) no_counts.
Proof.
  intros Hsame. unfold updateSecuritySummary, count_endpoint. simpl.
  rewrite unique_issues_known; [reflexivity |].
  intros g Hg. destruct (Hsame g Hg) as [Hs Hm]. exists f.
  assert (Hk : issue_key g = issue_key f) by (unfold issue_key; now rewrite Hs, Hm).
  simpl. now rewrite Hk, String.eqb_refl.
Qed.

(** *** The rate-limiting checker *)

Section RateLimiting.
Context {host : Host}.

(** What the checker does for a configured rule on a URL that parses: it
    records the call, keeps the calls of the window, and reports when these
    outnumber the threshold and the request carries no rate-limit header. *)
Lemma checkRateLimiting_spec this now context rs rule threshold window pathname :
  rules this = Some rs ->
  assoc "insufficient-rate-limiting" rs = Some rule ->
  r_threshold rule = Some threshold ->
  r_timeWindow rule = Some window ->
  url_pathname (ctx_url context) = Some pathname ->
  let endpoint := ctx_method context +:+ " " +:+ pathname in
  let recent :=
    filter (fun time => now - time < window)
           (default [] (callFrequency this !! endpoint) ++ [now]) in
  callFrequency (checkRateLimiting this now context).1
  = <[endpoint := recent]> (callFrequency this)
  /\ ((exists issue, (checkRateLimiting this now context).2 = Ok [issue])
      <-> threshold < Z.of_nat (length recent)
          /\ first_read (ctx_headers context) rate_limit_names = None)
  /\ ((checkRateLimiting this now context).2 = Ok []
      \/ exists issue, (checkRateLimiting this now context).2 = Ok [issue]).
Proof.
  intros Hrs Hrule Ht Hw Hurl endpoint recent.
  unfold checkRateLimiting. rewrite Hrs, Hrule, Hurl, Ht, Hw.
  fold endpoint. unfold recent_calls. fold recent.
  assert (Hread :
    truthy_str (or_str (or_str (ctx_headers context !! "X-RateLimit-Limit")
                               (ctx_headers context !! "x-ratelimit-limit"))
                       (ctx_headers context !! "RateLimit-Limit")) = false
    <-> first_read (ctx_headers context) rate_limit_names = None).
  { unfold rate_limit_names. simpl. rewrite !or_str_first.
    repeat match goal with
           | |- context [truthy_str (ctx_headers context !! ?n)] =>
               destruct (ctx_headers context !! n) as [[|? ?]|]; simpl
           end; split; congruence. }
  destruct (threshold <? Z.of_nat (length recent)) eqn:Hover.
  - apply Z.ltb_lt in Hover.
    destruct (truthy_str _) eqn:Hh; simpl.
    + split; [reflexivity |]. split; [| now left].
      split; [intros [issue Hi]; discriminate |].
      intros [_ Hnone]. apply Hread in Hnone. congruence.
    + split; [reflexivity |]. split; [| right; eauto].
      split; [intros _; split; [exact Hover | now apply Hread] | eauto].
  - apply Z.ltb_ge in Hover. simpl.
    split; [reflexivity |]. split; [| now left].
    split; [intros [issue Hi]; discriminate | intros [Hlt _]; lia].
Qed.

(** With [n] earlier calls to the endpoint in the window, a threshold of
    [n] and no rate-limit header on the request, the next call is reported,
    once. *)
Lemma checkRateLimiting_past_threshold this now context rs rule window pathname calls :
  rules this = Some rs ->
  assoc "insufficient-rate-limiting" rs = Some rule ->
  r_threshold rule = Some (Z.of_nat (length calls)) ->
  r_timeWindow rule = Some window ->
  url_pathname (ctx_url context) = Some pathname ->
  callFrequency this !! (ctx_method context +:+ " " +:+ pathname) = Some calls ->
  (forall time, In time calls -> now - time < window) ->
  0 < window ->
  first_read (ctx_headers context) rate_limit_names = None ->
  exists issue, (checkRateLimiting this now context).2 = Ok [issue].
Proof.
  intros Hrs Hrule Ht Hw Hurl Hcalls Hin Hpos Hnone.
  destruct (checkRateLimiting_spec this now context rs rule _ window pathname
              Hrs Hrule Ht Hw Hurl) as (_ & Hiff & _).
  apply Hiff. split; [| exact Hnone].
  rewrite Hcalls. simpl. rewrite filter_all.
  - rewrite length_app. simpl. lia.
  - intros time Ht'. apply in_app_or in Ht' as [Ht' | [<- | []]]; [now apply Hin | lia].
Qed.

End RateLimiting.

(** Claim C3 against the code.  The key [updateSecuritySummary] builds for
    a finding depends on its severity and message alone: the rule id does
    not enter it.  Two findings of different rules with the same severity
    and message have the same key and are counted once, where the triple
    (severity, ruleId, message) tells them apart.  [getVulnerabilitySummary],
    for its part, counts every element of the raw list. *)
Theorem dedup_key_ignores_rule :
  (forall f g,
      f_severity f = f_severity g -> f_message f = f_message g ->
      issue_key f = issue_key g)
  /\ f_ruleId Scenario.finding_a <> f_ruleId Scenario.finding_b
  /\ issue_key Scenario.finding_a = issue_key Scenario.finding_b
  /\ updateSecuritySummary [Some [Scenario.finding_a; Scenario.finding_b]]
     = {| s_critical := 0; s_high := 1; s_medium := 0; s_low := 0 |}
  /\ getVulnerabilitySummary [Scenario.finding_a; Scenario.finding_a]
     = Some (2, {| s_critical := 0; s_high := 2; s_medium := 0; s_low := 0 |}).
Proof.
  split. { intros f g Hs Hm. unfold issue_key. now rewrite Hs, Hm. }
  split; [discriminate |].
  repeat split; vm_compute; reflexivity.
Qed.

(** Claim C7 against the code.  [checkRateLimiting] does not read the call
    record, hence no response header: its result is the same whatever call
    record the context carries.  With threshold 1, the second call to an
    endpoint within the window is reported although the response carries
    [X-RateLimit-Limit]. *)
Theorem rate_limit_ignores_response_headers :
  (forall (host : Host) this now context callDetails,
      checkRateLimiting this now (with_call context callDetails)
      = checkRateLimiting this now context)
  /\ (let first := @analyzeCall Scenario.quiet_host Scenario.rate_only 1000
                     Scenario.limited_call in
      let second := @analyzeCall Scenario.quiet_host first.1 1001 Scenario.limited_call in
      cd_responseHeaders Scenario.limited_call = Some {["X-RateLimit-Limit" := "100"]}
      /\ first.2 = []
      /\ f_ruleId <$> second.2 = ["insufficient-rate-limiting"]).
Proof.
  split; [reflexivity |].
  vm_compute. repeat split; reflexivity.
Qed.

(** *** Findings *)

Lemma without_rule_app id l1 l2 :
  without_rule id (l1 ++ l2) = without_rule id l1 ++ without_rule id l2.
Proof. apply List.filter_app. Qed.

Lemma without_rule_all id l :
  (forall f, In f l -> f_ruleId f = id) -> without_rule id l = [].
Proof.
  induction l as [|f l IH]; intros H; [reflexivity |]. simpl.
  rewrite (H f) by now left. rewrite String.eqb_refl. simpl.
  apply IH. intros g Hg. apply H. now right.
Qed.

Lemma without_rule_none id l :
  (forall f, In f l -> f_ruleId f <> id) -> without_rule id l = l.
Proof.
  induction l as [|f l IH]; intros H; [reflexivity |]. simpl.
  destruct (String.eqb_spec (f_ruleId f) id) as [Heq | _].
  - destruct (H f); [now left | exact Heq].
  - simpl. f_equal. apply IH. intros g Hg. apply H. now right.
Qed.

Lemma without_rule_in id l f : In f (without_rule id l) -> In f l /\ f_ruleId f <> id.
Proof.
  unfold without_rule. rewrite filter_In, negb_true_iff. intros [H1 H2].
  split; [exact H1 |]. intros Heq. rewrite Heq, String.eqb_refl in H2. discriminate.
Qed.

Lemma untimed_stamp f g :
  untimed f = untimed g -> f_timestamp f = f_timestamp g -> f = g.
Proof. destruct f, g. unfold untimed. simpl. intros [= -> -> -> -> -> -> ->] ->. reflexivity. Qed.

Lemma untimed_stamped now l1 : forall l2,
  untimed <$> l1 = untimed <$> l2 ->
  (forall f, In f l1 -> f_timestamp f = now) ->
  (forall f, In f l2 -> f_timestamp f = now) ->
  l1 = l2.
Proof.
  induction l1 as [|f l1 IH]; intros [|g l2] H H1 H2; try discriminate; [reflexivity |].
  rewrite !fmap_cons in H.
  assert (Hfg : untimed f = untimed g) by congruence.
  assert (Hrest : untimed <$> l1 = untimed <$> l2) by congruence.
  clear H. f_equal.
  - apply untimed_stamp; [exact Hfg |].
    rewrite (H1 f), (H2 g); [reflexivity | now left | now left].
  - apply IH; [exact Hrest | |]; intros x Hx; [apply H1 | apply H2]; now right.
Qed.

(** *** Registries *)

Lemma assoc_set_enabled id flag other es :
  other <> id -> assoc other (set_enabled id flag es) = assoc other es.
Proof.
  intros Hne. unfold set_enabled.
  induction es as [|[k r] es IH]; [reflexivity |]. rewrite fmap_cons. simpl.
  destruct (String.eqb_spec k id) as [-> | Hk]; simpl.
  - destruct (String.eqb_spec id other); [congruence | exact IH].
  - destruct (String.eqb_spec k other); [reflexivity | exact IH].
Qed.

Lemma assoc_remove_rule id other es :
  other <> id -> assoc other (remove_rule id es) = assoc other es.
Proof.
  intros Hne. unfold remove_rule.
  induction es as [|[k r] es IH]; [reflexivity |]. simpl.
  destruct (String.eqb_spec k id) as [-> | Hk]; simpl.
  - destruct (String.eqb_spec id other); [congruence | exact IH].
  - destruct (String.eqb_spec k other); [reflexivity | exact IH].
Qed.

Lemma agree_set_enabled id es :
  agree_except id (set_enabled id false es) (set_enabled id true es).
Proof.
  unfold set_enabled. induction es as [|[k r] es IH]; [constructor |].
  rewrite !fmap_cons. simpl. destruct (String.eqb_spec k id) as [-> | Hk].
  - apply agree_left, agree_right, IH.
  - apply agree_same; [exact Hk | exact IH].
Qed.

Lemma agree_refl id es : agree_except id es es.
Proof.
  induction es as [|[k r] es IH]; [constructor |].
  destruct (String.eqb_spec k id) as [-> | Hk].
  - apply agree_left, agree_right, IH.
  - apply agree_same; [exact Hk | exact IH].
Qed.

Lemma agree_remove_rule id es : agree_except id es (remove_rule id es).
Proof.
  unfold remove_rule. induction es as [|[k r] es IH]; [constructor |]. simpl.
  destruct (String.eqb_spec k id) as [-> | Hk]; simpl.
  - apply agree_left, IH.
  - apply agree_same; [exact Hk | exact IH].
Qed.

Lemma set_enabled_off id es rule :
  In (id, rule) (set_enabled id false es) -> r_enabled rule = false.
Proof.
  unfold set_enabled. rewrite <- list_elem_of_In, list_elem_of_fmap.
  intros ([k r] & Heq & _). simpl in Heq.
  destruct (String.eqb_spec k id) as [-> | Hk].
  - injection Heq as ->. reflexivity.
  - injection Heq as <- _. congruence.
Qed.

Lemma remove_rule_out id es rule : ~ In (id, rule) (remove_rule id es).
Proof.
  unfold remove_rule. rewrite filter_In. simpl. rewrite String.eqb_refl.
  intros [_ H]. discriminate.
Qed.

Section Orchestration.
Context {host : Host}.

(** *** The checker table *)

Lemma getRuleChecker_rate_limiting :
  getRuleChecker "insufficient-rate-limiting" = Some checkRateLimiting.
Proof. reflexivity. Qed.

Lemma getRuleChecker_reads_own id c :
  getRuleChecker id = Some c -> id <> "insufficient-rate-limiting" ->
  reads_own_rule id c.
Proof.
  unfold getRuleChecker. intros H Hne.
  destruct (String.eqb_spec id "missing-response-security-headers") as [-> | _].
  { injection H as <-. intros this1 this2 rs1 rs2 now1 now2 context H1 H2 Ha.
    unfold method_of, checkMissingResponseSecurityHeaders, with_rule. simpl.
    now rewrite H1, H2, Ha. }
  destruct (String.eqb_spec id "cors-misconfiguration") as [-> | _].
  { injection H as <-. intros this1 this2 rs1 rs2 now1 now2 context H1 H2 Ha.
    unfold method_of, checkCorsMisconfiguration, with_rule. simpl.
    now rewrite H1, H2, Ha. }
  destruct (String.eqb_spec id "insufficient-rate-limiting") as [-> | _]; [congruence |].
  destruct (String.eqb_spec id "untrusted-client-identity") as [-> | _].
  { injection H as <-. intros this1 this2 rs1 rs2 now1 now2 context H1 H2 Ha.
    unfold method_of, checkUntrustedClientIdentity, with_rule. simpl.
    now rewrite H1, H2, Ha. }
  destruct (array_includes other_rule_ids id); [| discriminate].
  injection H as <-. intros this1 this2 rs1 rs2 now1 now2 context H1 H2 Ha.
  unfold checker_of, method_of, with_rule. simpl. now rewrite H1, H2, Ha.
Qed.

Lemma checkRateLimiting_frame this now context :
  rules (checkRateLimiting this now context).1 = rules this
  /\ initialized (checkRateLimiting this now context).1 = initialized this.
Proof. unfold checkRateLimiting. repeat case_match; simpl; auto. Qed.

Lemma checkRateLimiting_det this1 this2 rs1 rs2 now context :
  rules this1 = Some rs1 -> rules this2 = Some rs2 ->
  assoc "insufficient-rate-limiting" rs1 = assoc "insufficient-rate-limiting" rs2 ->
  callFrequency this1 = callFrequency this2 ->
  callFrequency (checkRateLimiting this1 now context).1
  = callFrequency (checkRateLimiting this2 now context).1
  /\ (checkRateLimiting this1 now context).2 = (checkRateLimiting this2 now context).2.
Proof.
  intros H1 H2 Ha Hcf. unfold checkRateLimiting. rewrite H1, H2, Ha, Hcf.
  repeat case_match; simpl; auto.
Qed.

Lemma checkRateLimiting_throw this1 this2 rs1 rs2 now1 now2 context :
  rules this1 = Some rs1 -> rules this2 = Some rs2 ->
  assoc "insufficient-rate-limiting" rs1 = assoc "insufficient-rate-limiting" rs2 ->
  (checkRateLimiting this1 now1 context).2 = Throw ->
  (checkRateLimiting this2 now2 context).2 = Throw.
Proof.
  intros H1 H2 Ha. unfold checkRateLimiting. rewrite H1, H2, Ha.
  destruct (url_pathname (ctx_url context)); [| reflexivity].
  destruct (assoc "insufficient-rate-limiting" rs2); [| reflexivity].
  repeat case_match; simpl; auto; discriminate.
Qed.

(** *** One turn of the loop *)

#[local] Arguments check_rule : simpl never.

Lemma check_rules_cons table entry rest this now context :
  check_rules table (entry :: rest) this now context =
  ((check_rules table rest (check_rule table entry this now context).1 now context).1,
   (check_rule table entry this now context).2
   ++ (check_rules table rest (check_rule table entry this now context).1 now context).2).
Proof.
  simpl. destruct (check_rule table entry this now context) as [this1 found]. simpl.
  destruct (check_rules table rest this1 now context). reflexivity.
Qed.

#[local] Arguments check_rules : simpl never.

Lemma check_rule_finding table entry this now context f :
  In f (check_rule table entry this now context).2 ->
  f_ruleId f = entry.1 /\ f_timestamp f = now /\ r_enabled entry.2 = true.
Proof.
  unfold check_rule. destruct entry as [ruleId rule]. simpl.
  destruct (r_enabled rule); simpl; [| intros []].
  destruct (table ruleId) as [c|]; [| intros []].
  destruct (c this now context) as [this' [issues|]]; simpl; [| intros []].
  rewrite <- list_elem_of_In, list_elem_of_fmap. intros (issue & -> & _). auto.
Qed.

Lemma check_rules_finding table entries : forall this now context f,
  In f (check_rules table entries this now context).2 ->
  exists rule, In (f_ruleId f, rule) entries /\ r_enabled rule = true /\ f_timestamp f = now.
Proof.
  induction entries as [|[ruleId rule] rest IH]; intros this now context f; [intros [] |].
  rewrite check_rules_cons. simpl. intros H. apply in_app_or in H as [H | H].
  - apply check_rule_finding in H as (Hid & Hts & Hen). simpl in *.
    exists rule. rewrite Hid. split; [now left | auto].
  - apply IH in H as (r & Hin & Hen & Hts). exists r. split; [now right | auto].
Qed.

(** A turn of the loop keeps the registry and the [initialized] flag; it
    keeps the call table unless it runs the rate-limiting checker. *)
Lemma check_rule_state entry this rs now context :
  rules this = Some rs ->
  rules (check_rule getRuleChecker entry this now context).1 = Some rs
  /\ initialized (check_rule getRuleChecker entry this now context).1 = initialized this
  /\ (entry.1 <> "insufficient-rate-limiting" ->
      callFrequency (check_rule getRuleChecker entry this now context).1
      = callFrequency this).
Proof.
  intros Hrs. unfold check_rule. destruct entry as [ruleId rule]. simpl.
  destruct (r_enabled rule); simpl; [| auto].
  destruct (getRuleChecker ruleId) as [c|] eqn:Hc; [| auto].
  destruct (String.eqb_spec ruleId "insufficient-rate-limiting") as [-> | Hne].
  - rewrite getRuleChecker_rate_limiting in Hc. injection Hc as <-.
    destruct (checkRateLimiting_frame this now context) as [Hr Hi].
    destruct (checkRateLimiting this now context) as [this' [issues|]]; simpl in *;
      rewrite Hr, Hi; (split; [exact Hrs | split; [reflexivity | congruence]]).
  - destruct (getRuleChecker_reads_own ruleId c Hc Hne this this rs rs now now context
                Hrs Hrs eq_refl) as [Hst _].
    destruct (c this now context) as [this' [issues|]]; simpl in *; subst; auto.
Qed.

Lemma check_rules_state entries : forall this rs now context,
  rules this = Some rs ->
  rules (check_rules getRuleChecker entries this now context).1 = Some rs
  /\ initialized (check_rules getRuleChecker entries this now context).1 = initialized this.
Proof.
  induction entries as [|entry rest IH]; intros this rs now context Hrs; [auto |].
  rewrite check_rules_cons. simpl.
  destruct (check_rule_state entry this rs now context Hrs) as (Hr & Hi & _).
  destruct (IH _ rs now context Hr) as [Hr' Hi']. rewrite Hr', Hi', Hi. auto.
Qed.

Lemma untimed_finding_of ruleId rule now1 now2 (issues : list Issue) :
  untimed <$> (finding_of ruleId rule now1 <$> issues)
  = untimed <$> (finding_of ruleId rule now2 <$> issues).
Proof. rewrite <- !list_fmap_compose. apply list_fmap_ext. intros; reflexivity. Qed.

(** Two related analyzers take the same turn on a rule other than [id]. *)
Lemma check_rule_related id entry this1 this2 now1 now2 context :
  related id this1 this2 ->
  (id <> "insufficient-rate-limiting" -> now1 = now2) ->
  entry.1 <> id ->
  related id (check_rule getRuleChecker entry this1 now1 context).1
             (check_rule getRuleChecker entry this2 now2 context).1
  /\ untimed <$> (check_rule getRuleChecker entry this1 now1 context).2
     = untimed <$> (check_rule getRuleChecker entry this2 now2 context).2.
Proof.
  intros (rs1 & rs2 & H1 & H2 & Ha & Hi & Hcf) Hnow Hne.
  destruct (check_rule_state entry this1 rs1 now1 context H1) as (Hr1 & Hi1 & Hc1).
  destruct (check_rule_state entry this2 rs2 now2 context H2) as (Hr2 & Hi2 & Hc2).
  destruct entry as [ruleId rule]. simpl in *.
  destruct (String.eqb_spec ruleId "insufficient-rate-limiting") as [-> | Hrl].
  - assert (Hid : id <> "insufficient-rate-limiting") by congruence.
    specialize (Hnow Hid). specialize (Hcf Hid). subst now2.
    destruct (checkRateLimiting_det this1 this2 rs1 rs2 now1 context H1 H2
                (Ha _ Hne) Hcf) as [Hcf' Hres].
    revert Hr1 Hr2 Hi1 Hi2. unfold check_rule.
    destruct (r_enabled rule); cbn [negb].
    2:{ intros. split; [exists rs1, rs2; auto | reflexivity]. }
    rewrite getRuleChecker_rate_limiting.
    destruct (checkRateLimiting this1 now1 context) as [t1 res1].
    destruct (checkRateLimiting this2 now1 context) as [t2 res2].
    simpl in Hcf', Hres. subst res2.
    destruct res1 as [issues|]; simpl; intros Hr1 Hr2 Hi1 Hi2;
      (split; [exists rs1, rs2; repeat split; auto; congruence | reflexivity]).
  - specialize (Hc1 Hrl). specialize (Hc2 Hrl).
    split.
    { exists rs1, rs2. repeat split; auto; [congruence |].
      intros Hid. rewrite Hc1, Hc2. auto. }
    unfold check_rule. destruct (r_enabled rule); simpl; [| reflexivity].
    destruct (getRuleChecker ruleId) as [c|] eqn:Hc; [| reflexivity].
    destruct (getRuleChecker_reads_own ruleId c Hc Hrl this1 this2 rs1 rs2 now1 now2 context
                H1 H2 (Ha _ Hne)) as [_ Hres].
    destruct (c this1 now1 context) as [t1 res1].
    destruct (c this2 now2 context) as [t2 res2].
    simpl in Hres. subst res2.
    destruct res1 as [issues|]; simpl; [apply untimed_finding_of | reflexivity].
Qed.

(** A turn on rule [id] itself contributes findings of rule [id] only. *)
Lemma check_rule_own table id rule this now context :
  without_rule id (check_rule table (id, rule) this now context).2 = [].
Proof.
  apply without_rule_all. intros f Hf. now apply check_rule_finding in Hf as (Hid & _).
Qed.

Lemma related_left id rule this1 this2 now context :
  related id this1 this2 ->
  related id (check_rule getRuleChecker (id, rule) this1 now context).1 this2.
Proof.
  intros (rs1 & rs2 & H1 & H2 & Ha & Hi & Hcf).
  destruct (check_rule_state (id, rule) this1 rs1 now context H1) as (Hr & Hi' & Hc).
  exists rs1, rs2. repeat split; auto; [congruence |].
  intros Hne. rewrite (Hc Hne). auto.
Qed.

Lemma related_right id rule this1 this2 now context :
  related id this1 this2 ->
  related id this1 (check_rule getRuleChecker (id, rule) this2 now context).1.
Proof.
  intros (rs1 & rs2 & H1 & H2 & Ha & Hi & Hcf).
  destruct (check_rule_state (id, rule) this2 rs2 now context H2) as (Hr & Hi' & Hc).
  exists rs1, rs2. repeat split; auto; [congruence |].
  intros Hne. rewrite (Hc Hne). auto.
Qed.

(** *** The loop on two registries that agree but for one rule *)

Lemma check_rules_agree id es1 es2 :
  agree_except id es1 es2 ->
  forall this1 this2 now1 now2 context,
    related id this1 this2 ->
    (id <> "insufficient-rate-limiting" -> now1 = now2) ->
    untimed <$> without_rule id (check_rules getRuleChecker es1 this1 now1 context).2
    = untimed <$> without_rule id (check_rules getRuleChecker es2 this2 now2 context).2.
Proof.
  induction 1 as [|entry es1 es2 Hne _ IH|rule es1 es2 _ IH|rule es1 es2 _ IH];
    intros this1 this2 now1 now2 context Hrel Hnow.
  - reflexivity.
  - rewrite !check_rules_cons. cbn [snd]. rewrite !without_rule_app, !fmap_app.
    destruct (check_rule_related id entry this1 this2 now1 now2 context Hrel Hnow Hne)
      as [Hrel' Hfound].
    rewrite (IH _ _ now1 now2 context Hrel' Hnow). f_equal.
    rewrite !without_rule_none; [exact Hfound | |];
      intros f Hf; apply check_rule_finding in Hf as (Hid & _); congruence.
  - rewrite check_rules_cons. cbn [snd]. rewrite without_rule_app, check_rule_own.
    apply IH; [now apply related_left | exact Hnow].
  - rewrite (check_rules_cons _ _ es2). cbn [snd]. rewrite without_rule_app, check_rule_own.
    apply IH; [now apply related_right | exact Hnow].
Qed.

(** Switching a rule off is not seen by the checker registered for it. *)
Lemma check_rules_override id c table entries :
  (forall rule, In (id, rule) entries -> r_enabled rule = false) ->
  forall this now context,
    check_rules (override id c table) entries this now context
    = check_rules table entries this now context.
Proof.
  induction entries as [|[ruleId rule] rest IH]; intros Hoff this now context;
    [reflexivity |].
  assert (Hstep : check_rule (override id c table) (ruleId, rule) this now context
                  = check_rule table (ruleId, rule) this now context).
  { unfold check_rule, override.
    destruct (String.eqb_spec ruleId id) as [-> | Hne]; [| reflexivity].
    now rewrite (Hoff rule) by now left. }
  rewrite !check_rules_cons, Hstep, IH; [reflexivity |].
  intros r Hr. apply Hoff. now right.
Qed.

(** A checker that throws on a context throws on it whatever the call
    table and the clock. *)
Lemma throw_stable id c this1 this2 rs now1 now2 context :
  getRuleChecker id = Some c ->
  rules this1 = Some rs -> rules this2 = Some rs ->
  (c this1 now1 context).2 = Throw -> (c this2 now2 context).2 = Throw.
Proof.
  intros Hc H1 H2 Ht.
  destruct (String.eqb_spec id "insufficient-rate-limiting") as [-> | Hne].
  - rewrite getRuleChecker_rate_limiting in Hc. injection Hc as <-.
    now apply (checkRateLimiting_throw this1 this2 rs rs now1 now2).
  - destruct (getRuleChecker_reads_own id c Hc Hne this1 this2 rs rs now1 now2 context
                H1 H2 eq_refl) as [_ Hres]. congruence.
Qed.

Lemma check_rules_silent id c rs context entries :
  getRuleChecker id = Some c ->
  (forall this now, rules this = Some rs -> (c this now context).2 = Throw) ->
  forall this now f,
    rules this = Some rs ->
    In f (check_rules getRuleChecker entries this now context).2 -> f_ruleId f <> id.
Proof.
  intros Hc Hthrow. induction entries as [|[ruleId rule] rest IH];
    intros this now f Hrs; [intros [] |].
  rewrite check_rules_cons. cbn [snd]. intros Hf. apply in_app_or in Hf as [Hf | Hf].
  - destruct (String.eqb_spec ruleId id) as [-> | Hne].
    + exfalso. revert Hf. unfold check_rule.
      destruct (r_enabled rule); cbn [negb]; [| intros []].
      rewrite Hc. specialize (Hthrow this now Hrs).
      destruct (c this now context) as [this' res]. simpl in Hthrow. subst res. intros [].
    + apply check_rule_finding in Hf as (Hid & _). simpl in Hid. congruence.
  - destruct (check_rule_state (ruleId, rule) this rs now context Hrs) as (Hr & _).
    now apply (IH _ now f Hr).
Qed.

(** The loop runs every entry: an issue that the checker of an enabled
    rule returns on the analyzer as the call finds it is among the findings.
    The rule is the one the registry holds under its id; the checkers that
    run before it leave alone what it reads. *)
Lemma check_rules_runs id c rule rs now context issues issue this0 :
  getRuleChecker id = Some c -> r_enabled rule = true ->
  rules this0 = Some rs ->
  (c this0 now context).2 = Ok issues -> In issue issues ->
  forall entries this,
    rules this = Some rs ->
    (id = "insufficient-rate-limiting" -> callFrequency this = callFrequency this0) ->
    assoc id entries = Some rule ->
    In (finding_of id rule now issue)
       (check_rules getRuleChecker entries this now context).2.
Proof.
  intros Hc Hen Hrs0 Hres Hin.
  induction entries as [|[k r] rest IH]; intros this Hrs Hcf Hassoc; [discriminate |].
  rewrite check_rules_cons. cbn [snd]. apply in_or_app.
  simpl in Hassoc. destruct (String.eqb_spec k id) as [-> | Hne].
  - injection Hassoc as ->. left. unfold check_rule. rewrite Hen. cbn [negb]. rewrite Hc.
    assert (Hsame : (c this now context).2 = Ok issues).
    { destruct (String.eqb_spec id "insufficient-rate-limiting") as [-> | Hnr].
      - rewrite getRuleChecker_rate_limiting in Hc. injection Hc as <-.
        destruct (checkRateLimiting_det this this0 rs rs now context Hrs Hrs0 eq_refl
                    (Hcf eq_refl)) as [_ H]. congruence.
      - destruct (getRuleChecker_reads_own id c Hc Hnr this this0 rs rs now now context
                    Hrs Hrs0 eq_refl) as [_ H]. congruence. }
    destruct (c this now context) as [this' result]. simpl in Hsame. subst result.
    cbn [snd]. rewrite <- list_elem_of_In, list_elem_of_fmap.
    exists issue. split; [reflexivity | now apply list_elem_of_In].
  - right. destruct (check_rule_state (k, r) this rs now context Hrs) as (Hr & _ & Hkeep).
    apply IH; [exact Hr | | exact Hassoc].
    intros ->. rewrite Hkeep; [now apply Hcf | exact Hne].
Qed.

End Orchestration.

Section Claims.
Context {host : Host}.

Lemma analyzeCall_stamped this now callDetails f :
  In f (analyzeCall this now callDetails).2 -> f_timestamp f = now.
Proof.
  unfold analyzeCall, analyzeCallWith.
  destruct (initialized this); simpl; [| intros []].
  destruct (rules this) as [rs|]; [| intros []].
  intros Hf. now apply check_rules_finding in Hf as (r & _ & _ & Hts).
Qed.

(** Claim C4.  When a rule is disabled, [analyzeCall] does not run its
    checker: whatever checker is registered for the rule, the findings and
    the analyzer after the call are the same.  And the findings with the
    rule disabled are the findings with the rule enabled, less those that
    carry its id, in the same order. *)
Theorem disabled_rule_is_not_run id this now callDetails :
  let off := map_rules (set_enabled id false) this in
  let on := map_rules (set_enabled id true) this in
  (forall c : Checker,
      analyzeCallWith (override id c getRuleChecker) off now callDetails
      = analyzeCall off now callDetails)
  /\ (analyzeCall off now callDetails).2
     = without_rule id (analyzeCall on now callDetails).2.
Proof.
  intros off on. split.
  - intros c. unfold analyzeCall, analyzeCallWith, off, map_rules. simpl.
    destruct (initialized this); simpl; [| reflexivity].
    destruct (rules this) as [rs|]; simpl; [| reflexivity].
    apply check_rules_override. intros rule. apply set_enabled_off.
  - assert (Hoff : forall f, In f (analyzeCall off now callDetails).2 -> f_ruleId f <> id).
    { unfold analyzeCall, analyzeCallWith, off, map_rules. simpl.
      destruct (initialized this); simpl; [| intros f []].
      destruct (rules this) as [rs|]; simpl; [| intros f []].
      intros f Hf Heq. apply check_rules_finding in Hf as (r & Hin & Hen & _).
      rewrite Heq in Hin. apply set_enabled_off in Hin. congruence. }
    rewrite <- (without_rule_none id _ Hoff).
    apply (untimed_stamped now).
    + unfold analyzeCall, analyzeCallWith, off, on, map_rules. simpl.
      destruct (initialized this) eqn:Hinit; simpl; [| reflexivity].
      destruct (rules this) as [rs|]; simpl; [| reflexivity].
      apply check_rules_agree; [apply agree_set_enabled | | reflexivity].
      exists (set_enabled id false rs), (set_enabled id true rs). simpl.
      repeat split; auto. intros other Hne. now rewrite !assoc_set_enabled.
    + intros f Hf. apply without_rule_in in Hf as [Hf _]. now apply analyzeCall_stamped in Hf.
    + intros f Hf. apply without_rule_in in Hf as [Hf _]. now apply analyzeCall_stamped in Hf.
Qed.

(** Claim C5.  When the checker of an enabled rule throws on a call,
    [analyzeCall] still returns, and the loop goes on: the rule contributes
    no finding; the findings are exactly those of the same call on the
    registry without that rule; and every issue that the checker of an
    enabled rule returns on that call is among the findings, under the id
    and the description of its rule. *)
Theorem throwing_checker_is_isolated id c rule rs this now callDetails :
  rules this = Some rs ->
  In (id, rule) rs -> r_enabled rule = true ->
  getRuleChecker id = Some c ->
  (c this now (context_of callDetails)).2 = Throw ->
  (forall f, In f (analyzeCall this now callDetails).2 -> f_ruleId f <> id)
  /\ (analyzeCall this now callDetails).2
     = (analyzeCall (map_rules (remove_rule id) this) now callDetails).2
  /\ (initialized this = true ->
      forall other settings checker issues issue,
        assoc other rs = Some settings -> r_enabled settings = true ->
        getRuleChecker other = Some checker ->
        (checker this now (context_of callDetails)).2 = Ok issues ->
        In issue issues ->
        In (finding_of other settings now issue) (analyzeCall this now callDetails).2).
Proof.
  intros Hrs _ _ Hc Hthrow.
  assert (Hquiet : forall f, In f (analyzeCall this now callDetails).2 -> f_ruleId f <> id).
  { unfold analyzeCall, analyzeCallWith. rewrite Hrs.
    destruct (initialized this); simpl; [| intros f []].
    intros f. apply (check_rules_silent id c rs (context_of callDetails) rs Hc);
      [| exact Hrs].
    intros this' now' Hrs'. now apply (throw_stable id c this this' rs now now'). }
  split; [exact Hquiet |].
  split.
  - assert (Hgone : forall f,
               In f (analyzeCall (map_rules (remove_rule id) this) now callDetails).2 ->
               f_ruleId f <> id).
    { unfold analyzeCall, analyzeCallWith, map_rules. simpl. rewrite Hrs. simpl.
      destruct (initialized this); simpl; [| intros f []].
      intros f Hf Heq. apply check_rules_finding in Hf as (r & Hin & _).
      rewrite Heq in Hin. now apply remove_rule_out in Hin. }
    rewrite <- (without_rule_none id _ Hquiet), <- (without_rule_none id _ Hgone).
    apply (untimed_stamped now).
    + unfold analyzeCall, analyzeCallWith, map_rules. simpl. rewrite Hrs. simpl.
      destruct (initialized this) eqn:Hinit; simpl; [| reflexivity].
      apply check_rules_agree; [apply agree_remove_rule | | reflexivity].
      exists rs, (remove_rule id rs). simpl.
      repeat split; auto. intros other Hne. now rewrite assoc_remove_rule.
    + intros f Hf. apply without_rule_in in Hf as [Hf _]. now apply analyzeCall_stamped in Hf.
    + intros f Hf. apply without_rule_in in Hf as [Hf _]. now apply analyzeCall_stamped in Hf.
  - intros Hinit other settings checker issues issue Hother Hen Hchecker Hissues Hissue.
    unfold analyzeCall, analyzeCallWith. rewrite Hinit, Hrs. cbn [negb].
    now apply (check_rules_runs other checker settings rs now (context_of callDetails)
                 issues issue this).
Qed.

(** Claim C8, as amended.  Two calls of [analyzeCall] in succession on the
    same call record return lists that, the findings of the
    insufficient-rate-limiting rule set aside, are equal element for element
    in every field but the timestamp. *)
Theorem analyze_twice_agrees_but_for_rate_limiting this now1 now2 callDetails :
  let first := analyzeCall this now1 callDetails in
  let second := analyzeCall first.1 now2 callDetails in
  untimed <$> without_rule "insufficient-rate-limiting" first.2
  = untimed <$> without_rule "insufficient-rate-limiting" second.2.
Proof.
  unfold analyzeCall, analyzeCallWith.
  destruct (initialized this) eqn:Hinit; simpl; [| now rewrite Hinit].
  destruct (rules this) as [rs|] eqn:Hrs; simpl; [| now rewrite Hinit, Hrs].
  destruct (check_rules_state rs this rs now1 (context_of callDetails) Hrs) as [Hr Hi].
  rewrite Hi, Hinit, Hr. simpl.
  apply check_rules_agree; [apply agree_refl | | congruence].
  exists rs, rs. repeat split; auto; congruence.
Qed.

End Claims.

(** Claim C5 on a call whose URL does not parse: the
    untrusted-client-identity checker throws, and the finding of the
    missing-response-security-headers rule, which the loop runs after it, is
    returned. *)
Lemma throwing_checker_is_isolated_witness :
  (@analyzeCall Scenario.quiet_host (analyzer_over Scenario.registry ∅) 5
     Scenario.broken_call).2
  = (@analyzeCall Scenario.quiet_host
       (map_rules (remove_rule "untrusted-client-identity")
                  (analyzer_over Scenario.registry ∅)) 5 Scenario.broken_call).2
  /\ In (finding_of "missing-response-security-headers" Scenario.headers_rule 5
           (all_missing_issue ["Strict-Transport-Security"; "X-Content-Type-Options"]))
        (@analyzeCall Scenario.quiet_host (analyzer_over Scenario.registry ∅) 5
           Scenario.broken_call).2.
Proof.
  destruct (@throwing_checker_is_isolated Scenario.quiet_host
              "untrusted-client-identity" (method_of checkUntrustedClientIdentity)
              Scenario.identity_rule Scenario.registry
              (analyzer_over Scenario.registry ∅) 5 Scenario.broken_call
              eq_refl (or_introl eq_refl) eq_refl eq_refl eq_refl) as (_ & Hsame & Hruns).
  split; [exact Hsame |].
  apply (Hruns eq_refl "missing-response-security-headers" Scenario.headers_rule
           (method_of checkMissingResponseSecurityHeaders)
           [all_missing_issue ["Strict-Transport-Security"; "X-Content-Type-Options"]]);
    [reflexivity | reflexivity | reflexivity | vm_compute; reflexivity | now left].
Defined.

(** Claim C8, as stated, fails.  With the rate-limiting rule enabled at
    threshold 1, the first call on a record returns no finding and the
    second, one millisecond later on the same record, returns one. *)
Lemma analyze_twice_differs :
  let first := @analyzeCall Scenario.quiet_host Scenario.rate_only 1000 Scenario.plain_call in
  let second := @analyzeCall Scenario.quiet_host first.1 1001 Scenario.plain_call in
  untimed <$> first.2 <> untimed <$> second.2.
Proof. vm_compute. discriminate. Qed.

(* ================================================================== *)
(** * Further properties *)

(** *** Traversals *)

Lemma getDeepValues_cons k key value rest :
  getDeepValues (VObj k ((key, value) :: rest)) =
  match value with
  | VObj _ _ => getDeepValues value
  | VNull | VUndefined => []
  | _ => [value]
  end ++ getDeepValues (VObj k rest).
Proof. destruct value; reflexivity. Qed.

(** Property X1.  [getDeepValues] returns the values of the entries of a structure,
    nested ones included, in depth-first pre-order, keeping the booleans,
    numbers and texts: it never returns [null], [undefined], an object or
    an array, and it loses no leaf. *)
Theorem getDeepValues_preorder_leaves (obj : JsVal) :
  getDeepValues obj = List.filter is_leaf (snd <$> preorder obj).
Proof.
  induction obj as [| | | | |k props IH] using JsVal_nested_ind; try reflexivity.
  induction IH as [|[key value] rest Hvalue _ IHrest]; [reflexivity |].
  cbn [snd] in Hvalue. rewrite getDeepValues_cons, preorder_cons, fmap_cons, fmap_app, IHrest.
  cbn [snd List.filter]. rewrite List.filter_app, <- Hvalue.
  destruct value; reflexivity.
Qed.

(** Property X2.  [findFieldsInObject] visits the entries in the same pre-order and
    reports one path for every entry whose key matches, duplicates
    included: the values it finds are those of the matching entries, in
    that order. *)
Theorem findFieldsInObject_preorder (obj : JsVal) (fieldNames : list string) :
  snd <$> findFieldsInObjectWithValues obj fieldNames
  = snd <$> List.filter (fun entry => key_matches fieldNames (fst entry)) (preorder obj)
  /\ length (findFieldsInObject obj fieldNames)
     = length (List.filter (fun entry => key_matches fieldNames (fst entry)) (preorder obj)).
Proof.
  assert (H : forall v path,
             snd <$> search fieldNames v path
             = snd <$> List.filter (fun entry => key_matches fieldNames (fst entry))
                                   (preorder v)).
  { induction v as [| | | | |k props IH] using JsVal_nested_ind; try reflexivity.
    induction IH as [|[key value] rest Hvalue _ IHrest]; intros path; [reflexivity |].
    cbn [snd] in Hvalue. rewrite search_cons, preorder_cons, !fmap_app, IHrest.
    cbn [List.filter fst]. rewrite List.filter_app.
    destruct (key_matches fieldNames key); cbn [app];
      rewrite ?fmap_cons, ?fmap_app; cbn [snd];
      (destruct value; try reflexivity; now rewrite Hvalue). }
  split; [apply H |].
  unfold findFieldsInObject. rewrite length_fmap.
  rewrite <- (length_fmap snd (search _ _ _)), H. now rewrite length_fmap.
Qed.

(** *** Texts that never look encrypted *)

Lemma all_chars_app p a b :
  all_chars p (a +:+ b) = all_chars p a && all_chars p b.
Proof.
  induction a as [|c a IH]; [reflexivity |].
  rewrite append_cons. simpl. rewrite IH. now rewrite andb_assoc.
Qed.

Lemma all_chars_forall p s :
  all_chars p s = true <-> forall a c b, s = a +:+ String c b -> p c = true.
Proof.
  split.
  - intros H a c b ->. rewrite all_chars_app in H. simpl in H.
    apply andb_true_iff in H as [_ H]. now apply andb_true_iff in H as [H _].
  - induction s as [|c s IH]; intros H; [reflexivity |]. simpl.
    rewrite (H "" c s eq_refl). simpl. apply IH.
    intros a c' b ->. apply (H (String c a) c' b). reflexivity.
Qed.

(** A text that holds a literal character does not pass a test that
    forbids the character. *)
Lemma all_chars_without p a c b :
  p c = false -> all_chars p (a +:+ String c b) = false.
Proof.
  intros Hc. rewrite all_chars_app. simpl. rewrite Hc. simpl. apply andb_false_r.
Qed.

(** Property X3.  A text shorter than 32 characters that holds no vertical
    bar, no dot and no dollar sign never looks encrypted or hashed: a short
    password in clear is always taken for what it is. *)
Theorem isEncryptedOrHashed_short_clear_text (s : string) :
  (String.length s < 32)%nat ->
  all_chars (fun c => negb (one_of "|.$" c)) s = true ->
  isEncryptedOrHashed (VStr s) = false.
Proof.
  intros Hlen Hclear. rewrite isEncryptedOrHashed_string.
  assert (Hno : forall a c b, s = a +:+ String c b -> one_of "|.$" c = false).
  { intros a c b Hs. apply negb_true_iff.
    exact (proj1 (all_chars_forall _ s) Hclear a c b Hs). }
  assert (H1 : re_test re_payload_iv s = false).
  { apply not_true_is_false. rewrite re_test_lang. unfold re_payload_iv.
    rewrite lang_cat_inv. intros (s1 & s2 & -> & _ & H).
    apply lang_cat_inv in H as (s3 & s4 & -> & H & _). apply lang_lit in H as ->.
    specialize (Hno s1 "|"%char s4 eq_refl). discriminate. }
  assert (H4 : re_test re_jwt s = false).
  { apply not_true_is_false. rewrite re_test_lang. unfold re_jwt.
    rewrite lang_cat_inv. intros (s1 & s2 & -> & _ & H).
    apply lang_cat_inv in H as (s3 & s4 & -> & H & _). apply lang_lit in H as ->.
    specialize (Hno s1 "."%char s4 eq_refl). discriminate. }
  assert (H5 : re_test re_bcrypt s = false).
  { apply not_true_is_false. rewrite re_test_lang. unfold re_bcrypt.
    rewrite lang_cat_inv. intros (s1 & s2 & -> & H & _).
    apply lang_str in H as ->.
    specialize (Hno "" "$"%char ("2" +:+ s2) eq_refl). discriminate. }
  assert (H6 : re_test re_salted s = false).
  { apply not_true_is_false. rewrite re_test_lang. unfold re_salted.
    rewrite lang_cat_inv. intros (s1 & s2 & -> & H & _).
    apply lang_lit in H as ->.
    specialize (Hno "" "$"%char s2 eq_refl). discriminate. }
  rewrite H1, H4, H5, H6.
  replace (32 <=? Z.of_nat (String.length s)) with false by (symmetry; apply Z.leb_gt; lia).
  replace (64 <=? Z.of_nat (String.length s)) with false by (symmetry; apply Z.leb_gt; lia).
  replace (40 <=? Z.of_nat (String.length s)) with false by (symmetry; apply Z.leb_gt; lia).
  simpl. apply andb_false_r.
Qed.

Lemma isEncryptedOrHashed_short_clear_text_witness :
  isEncryptedOrHashed (VStr "hunter2!") = false.
Proof.
  apply isEncryptedOrHashed_short_clear_text; [simpl; lia | reflexivity].
Defined.

(** *** What [analyzeCall] returns and what it changes *)

Section Findings.
Context {host : Host}.

#[local] Arguments check_rule : simpl never.
#[local] Arguments check_rules : simpl never.

Lemma check_rule_issue table entry this now context f :
  In f (check_rule table entry this now context).2 ->
  r_enabled entry.2 = true /\ is_Some (table entry.1)
  /\ exists issue, f = finding_of entry.1 entry.2 now issue.
Proof.
  unfold check_rule. destruct entry as [ruleId rule]. simpl.
  destruct (r_enabled rule); simpl; [| intros []].
  destruct (table ruleId) as [c|]; [| intros []].
  destruct (c this now context) as [this' [issues|]]; simpl; [| intros []].
  rewrite <- list_elem_of_In, list_elem_of_fmap. intros (issue & -> & _). eauto.
Qed.

Lemma check_rules_issue table entries : forall this now context f,
  In f (check_rules table entries this now context).2 ->
  exists rule issue,
    In (f_ruleId f, rule) entries /\ r_enabled rule = true /\ is_Some (table (f_ruleId f))
    /\ f = finding_of (f_ruleId f) rule now issue.
Proof.
  induction entries as [|[ruleId rule] rest IH]; intros this now context f; [intros [] |].
  rewrite check_rules_cons. simpl. intros H. apply in_app_or in H as [H | H].
  - apply check_rule_issue in H as (Hen & Hc & issue & ->). simpl in *.
    exists rule, issue. split; [now left | auto].
  - apply IH in H as (r & issue & Hin & Hen & Hc & Hf).
    exists r, issue. split; [now right | auto].
Qed.

Lemma or_str_nonempty a b s :
  b = Some s -> s <> "" -> exists t, or_str a b = Some t /\ t <> "".
Proof.
  intros -> Hs. destruct a as [[|c a]|]; simpl; [eauto | | eauto].
  exists (String c a). split; [reflexivity | discriminate].
Qed.

(** Property X4.  Every finding [analyzeCall] returns is attributed: it
    carries the id of an enabled entry of the rule table for which a checker
    is registered, the severity, name and description of that entry and the
    clock reading of the call; its location is never empty, its details are
    never falsy, and it has a message whenever the rule has one. *)
Theorem analyzeCall_findings_attributed this now callDetails f :
  In f (analyzeCall this now callDetails).2 ->
  initialized this = true
  /\ exists rs rule,
       rules this = Some rs /\ In (f_ruleId f, rule) rs /\ r_enabled rule = true
       /\ is_Some (getRuleChecker (f_ruleId f))
       /\ f_severity f = r_severity rule /\ f_name f = r_name rule
       /\ f_description f = r_description rule /\ f_timestamp f = now
       /\ f_location f <> "" /\ truthy (f_details f) = true
       /\ (forall s, r_message rule = Some s -> s <> "" ->
           exists t, f_message f = Some t /\ t <> "").
Proof.
  unfold analyzeCall, analyzeCallWith.
  destruct (initialized this); simpl; [| intros []].
  destruct (rules this) as [rs|]; [| intros []].
  intros Hf. split; [reflexivity |].
  apply check_rules_issue in Hf as (rule & issue & Hin & Hen & Hc & Hf).
  exists rs, rule.
  split; [reflexivity |]. split; [exact Hin |]. split; [exact Hen |]. split; [exact Hc |].
  rewrite Hf. simpl. repeat split.
  - destruct (i_location issue) as [[|c l]|]; simpl; discriminate.
  - unfold js_or. destruct (truthy (i_details issue)) eqn:Ht; [exact Ht | reflexivity].
  - intros s Hs Hne. now apply or_str_nonempty with s.
Qed.

(** The rate-limiting checker touches the call table at one key only. *)
Lemma checkRateLimiting_other_keys this now context key :
  (forall pathname, url_pathname (ctx_url context) = Some pathname ->
                    key <> ctx_method context +:+ " " +:+ pathname) ->
  callFrequency (checkRateLimiting this now context).1 !! key = callFrequency this !! key.
Proof.
  intros Hkey. unfold checkRateLimiting.
  destruct (rules this) as [rs|]; [| reflexivity].
  destruct (url_pathname (ctx_url context)) as [pathname|]; [| reflexivity].
  specialize (Hkey pathname eq_refl).
  repeat case_match; simpl; try reflexivity; now rewrite lookup_insert_ne.
Qed.

Lemma getRuleChecker_keeps_this id c this now context :
  getRuleChecker id = Some c -> id <> "insufficient-rate-limiting" ->
  (c this now context).1 = this.
Proof.
  unfold getRuleChecker. intros H Hne.
  destruct (String.eqb id "missing-response-security-headers");
    [injection H as <-; reflexivity |].
  destruct (String.eqb id "cors-misconfiguration"); [injection H as <-; reflexivity |].
  destruct (String.eqb_spec id "insufficient-rate-limiting"); [contradiction |].
  destruct (String.eqb id "untrusted-client-identity"); [injection H as <-; reflexivity |].
  destruct (array_includes other_rule_ids id); [injection H as <-; reflexivity | discriminate].
Qed.

Lemma check_rule_keeps_calls entry this now context :
  entry.1 <> "insufficient-rate-limiting" ->
  callFrequency (check_rule getRuleChecker entry this now context).1 = callFrequency this.
Proof.
  intros Hne. unfold check_rule. destruct entry as [ruleId rule]. simpl in Hne.
  destruct (r_enabled rule); cbn [negb]; [| reflexivity].
  destruct (getRuleChecker ruleId) as [c|] eqn:Hc; [| reflexivity].
  pose proof (getRuleChecker_keeps_this ruleId c this now context Hc Hne) as H.
  destruct (c this now context) as [this' [issues|]]; simpl in H; now subst.
Qed.

Lemma check_rule_other_keys entry this now context key :
  (forall pathname, url_pathname (ctx_url context) = Some pathname ->
                    key <> ctx_method context +:+ " " +:+ pathname) ->
  callFrequency (check_rule getRuleChecker entry this now context).1 !! key
  = callFrequency this !! key.
Proof.
  intros Hkey.
  destruct (String.eqb_spec entry.1 "insufficient-rate-limiting") as [Heq | Hne].
  - unfold check_rule. destruct entry as [ruleId rule]. simpl in Heq. subst ruleId.
    destruct (r_enabled rule); cbn [negb]; [| reflexivity].
    rewrite getRuleChecker_rate_limiting.
    pose proof (checkRateLimiting_other_keys this now context key Hkey) as H.
    destruct (checkRateLimiting this now context) as [this' [issues|]]; exact H.
  - now rewrite check_rule_keeps_calls.
Qed.

Lemma check_rules_other_keys entries : forall this now context key,
  (forall pathname, url_pathname (ctx_url context) = Some pathname ->
                    key <> ctx_method context +:+ " " +:+ pathname) ->
  callFrequency (check_rules getRuleChecker entries this now context).1 !! key
  = callFrequency this !! key.
Proof.
  induction entries as [|entry rest IH]; intros this now context key Hkey; [reflexivity |].
  rewrite check_rules_cons. simpl. rewrite IH by exact Hkey.
  now apply check_rule_other_keys.
Qed.

Lemma check_rules_no_rate_rule entries : forall this now context,
  (forall rule, In ("insufficient-rate-limiting", rule) entries -> r_enabled rule = false) ->
  callFrequency (check_rules getRuleChecker entries this now context).1 = callFrequency this.
Proof.
  induction entries as [|[ruleId rule] rest IH]; intros this now context Hoff; [reflexivity |].
  rewrite check_rules_cons. simpl. rewrite IH by (intros r Hr; apply Hoff; now right).
  destruct (String.eqb_spec ruleId "insufficient-rate-limiting") as [-> | Hne].
  - unfold check_rule. now rewrite (Hoff rule) by now left.
  - now apply check_rule_keeps_calls.
Qed.

(** Property X5.  [analyzeCall] leaves the rule table and the
    [initialized] flag as they are; of the call table it changes at most
    the entry of the endpoint of the call ([method], a space, the path of
    the URL), and nothing at all when the URL does not parse or when no
    enabled rate-limiting rule is configured. *)
Theorem analyzeCall_frame this now callDetails :
  let after := (analyzeCall this now callDetails).1 in
  let method := ctx_method (context_of callDetails) in
  rules after = rules this
  /\ initialized after = initialized this
  /\ (forall key,
        (forall pathname, url_pathname (cd_url callDetails) = Some pathname ->
                          key <> method +:+ " " +:+ pathname) ->
        callFrequency after !! key = callFrequency this !! key)
  /\ (url_pathname (cd_url callDetails) = None -> callFrequency after = callFrequency this)
  /\ (forall rs, rules this = Some rs ->
        (forall rule, In ("insufficient-rate-limiting", rule) rs -> r_enabled rule = false) ->
        callFrequency after = callFrequency this).
Proof.
  unfold analyzeCall, analyzeCallWith.
  destruct (initialized this) eqn:Hinit; simpl.
  2:{ repeat split; auto. }
  destruct (rules this) as [rs|] eqn:Hrs.
  2:{ repeat split; auto. }
  destruct (check_rules_state rs this rs now (context_of callDetails) Hrs) as [Hr Hi].
  split; [exact Hr |]. split; [congruence |]. split; [| split].
  - intros key Hkey. now apply check_rules_other_keys.
  - intros Hnone. apply map_eq. intros key. apply check_rules_other_keys.
    simpl. intros pathname Hp. congruence.
  - intros rs' [= <-] Hoff. now apply check_rules_no_rate_rule.
Qed.

End Findings.

Lemma analyzeCall_findings_attributed_witness :
  let f := Samples.missing_headers_finding in
  initialized (analyzer_over Scenario.registry ∅) = true
  /\ exists rs rule,
       rules (analyzer_over Scenario.registry ∅) = Some rs
       /\ In (f_ruleId f, rule) rs /\ r_enabled rule = true
       /\ is_Some (@getRuleChecker Scenario.quiet_host (f_ruleId f))
       /\ f_severity f = r_severity rule /\ f_name f = r_name rule
       /\ f_description f = r_description rule /\ f_timestamp f = 5
       /\ f_location f <> "" /\ truthy (f_details f) = true
       /\ (forall s, r_message rule = Some s -> s <> "" ->
           exists t, f_message f = Some t /\ t <> "").
Proof.
  apply (@analyzeCall_findings_attributed Scenario.quiet_host
           (analyzer_over Scenario.registry ∅) 5 Scenario.plain_call
           Samples.missing_headers_finding).
  vm_compute. left. reflexivity.
Defined.

(** *** A burst of calls to one endpoint *)

Section Burst.
Context {host : Host}.

Lemma run_checks_cons c this now rest context :
  run_checks c this (now :: rest) context =
  ((run_checks c (c this now context).1 rest context).1,
   (c this now context).2 :: (run_checks c (c this now context).1 rest context).2).
Proof.
  simpl. destruct (c this now context) as [this1 result]. simpl.
  destruct (run_checks c this1 rest context). reflexivity.
Qed.

(** One call of the checker, when every recorded call and the call itself
    fall in the window and the request carries no rate-limit header. *)
Lemma checkRateLimiting_in_window this now context rs rule threshold window pathname calls :
  rules this = Some rs ->
  assoc "insufficient-rate-limiting" rs = Some rule ->
  r_threshold rule = Some threshold ->
  r_timeWindow rule = Some window ->
  url_pathname (ctx_url context) = Some pathname ->
  first_read (ctx_headers context) rate_limit_names = None ->
  default [] (callFrequency this !! (ctx_method context +:+ " " +:+ pathname)) = calls ->
  (forall time, In time (calls ++ [now]) -> now - time < window) ->
  let count := Z.of_nat (length calls) + 1 in
  checkRateLimiting this now context
  = ({| rules := rules this; initialized := initialized this;
        callFrequency :=
          <[ctx_method context +:+ " " +:+ pathname := calls ++ [now]]> (callFrequency this) |},
     if threshold <? count then Ok [rate_limit_issue rule count] else Ok []).
Proof.
  intros Hrs Hrule Ht Hw Hurl Hnone Hcalls Hin count.
  unfold checkRateLimiting. rewrite Hrs, Hrule, Hurl, Ht, Hw, Hcalls.
  unfold recent_calls. rewrite filter_all by exact Hin.
  assert (Hlen : Z.of_nat (length (calls ++ [now])) = count).
  { rewrite length_app. simpl. unfold count. lia. }
  rewrite Hlen.
  assert (Hread :
    truthy_str (or_str (or_str (ctx_headers context !! "X-RateLimit-Limit")
                               (ctx_headers context !! "x-ratelimit-limit"))
                       (ctx_headers context !! "RateLimit-Limit")) = false).
  { revert Hnone. unfold rate_limit_names. simpl. rewrite !or_str_first.
    repeat match goal with
           | |- context [truthy_str (ctx_headers context !! ?n)] =>
               destruct (ctx_headers context !! n) as [[|? ?]|]; simpl
           end; congruence. }
  rewrite Hread. unfold rate_limit_issue. rewrite Ht, Hw.
  destruct (threshold <? count); reflexivity.
Qed.

Lemma run_checks_in_window rs rule threshold window pathname context :
  assoc "insufficient-rate-limiting" rs = Some rule ->
  r_threshold rule = Some threshold ->
  r_timeWindow rule = Some window ->
  url_pathname (ctx_url context) = Some pathname ->
  first_read (ctx_headers context) rate_limit_names = None ->
  forall times calls this,
    rules this = Some rs ->
    default [] (callFrequency this !! (ctx_method context +:+ " " +:+ pathname)) = calls ->
    (forall now time, In now times -> In time (calls ++ times) -> now - time < window) ->
    (run_checks checkRateLimiting this times context).2
    = (fun i => let count := Z.of_nat i in
                if threshold <? count then Ok [rate_limit_issue rule count] else Ok [])
        <$> seq (S (length calls)) (length times)
    /\ default [] (callFrequency (run_checks checkRateLimiting this times context).1
                     !! (ctx_method context +:+ " " +:+ pathname))
       = calls ++ times.
Proof.
  intros Hrule Ht Hw Hurl Hnone.
  induction times as [|now rest IH]; intros calls this Hrs Hcalls Hin.
  - simpl. rewrite app_nil_r. auto.
  - rewrite run_checks_cons. cbn [fst snd].
    rewrite (checkRateLimiting_in_window this now context rs rule threshold window pathname
               calls Hrs Hrule Ht Hw Hurl Hnone Hcalls).
    2:{ intros time Htime. apply Hin; [now left |].
        apply in_app_or in Htime as [H | [<- | []]]; apply in_or_app; [now left |].
        right. now left. }
    cbn [fst snd].
    destruct (IH (calls ++ [now])
                {| rules := rules this; initialized := initialized this;
                   callFrequency :=
                     <[ctx_method context +:+ " " +:+ pathname := calls ++ [now]]>
                       (callFrequency this) |}) as [Hres Hfinal].
    + exact Hrs.
    + simpl. now rewrite lookup_insert_eq.
    + intros t time Ht' Htime. apply Hin; [now right |].
      rewrite <- app_assoc in Htime. exact Htime.
    + rewrite Hres, Hfinal, <- app_assoc. split; [| reflexivity].
      cbn [length seq fmap list_fmap]. rewrite length_app. cbn [length].
      replace (length calls + 1)%nat with (S (length calls)) by lia.
      f_equal. replace (Z.of_nat (length calls) + 1) with (Z.of_nat (S (length calls))) by lia.
      reflexivity.
Qed.

(** Property X6.  In a burst of calls to an endpoint that has no call on
    record, all within the time window of one another and none carrying a
    rate-limit header, the checker lets the first [threshold] calls pass and
    reports every call after them, each with its running count; every call
    of the burst stays on record. *)
Theorem rate_limit_burst this rs rule threshold window pathname context times :
  rules this = Some rs ->
  assoc "insufficient-rate-limiting" rs = Some rule ->
  r_threshold rule = Some threshold ->
  r_timeWindow rule = Some window ->
  url_pathname (ctx_url context) = Some pathname ->
  first_read (ctx_headers context) rate_limit_names = None ->
  callFrequency this !! (ctx_method context +:+ " " +:+ pathname) = None ->
  (forall now time, In now times -> In time times -> now - time < window) ->
  let run := run_checks checkRateLimiting this times context in
  run.2 = (fun i => let count := Z.of_nat i in
                    if threshold <? count then Ok [rate_limit_issue rule count] else Ok [])
            <$> seq 1 (length times)
  /\ default [] (callFrequency run.1 !! (ctx_method context +:+ " " +:+ pathname)) = times.
Proof.
  intros Hrs Hrule Ht Hw Hurl Hnone Hfresh Hin run.
  apply (run_checks_in_window rs rule threshold window pathname context
           Hrule Ht Hw Hurl Hnone times [] this Hrs).
  - now rewrite Hfresh.
  - exact Hin.
Qed.

End Burst.

Lemma rate_limit_burst_witness :
  (run_checks (@checkRateLimiting Scenario.quiet_host) Scenario.rate_only
     [1000; 1001; 1002] (context_of Scenario.plain_call)).2
  = [Ok []; Ok [rate_limit_issue Scenario.rate_rule 2];
     Ok [rate_limit_issue Scenario.rate_rule 3]].
Proof.
  apply (proj1 (@rate_limit_burst Scenario.quiet_host Scenario.rate_only
                  [("insufficient-rate-limiting", Scenario.rate_rule)] Scenario.rate_rule
                  1 60000 "/api/items" (context_of Scenario.plain_call) [1000; 1001; 1002]
                  eq_refl eq_refl eq_refl eq_refl eq_refl eq_refl eq_refl
                  ltac:(simpl; intros; lia))).
Defined.

(** *** Checkers that look for field names in the request body *)

Lemma search_not_object fieldNames v path :
  truthy v && typeof_object v = false -> search fieldNames v path = [].
Proof. destruct v; simpl; try reflexivity; discriminate. Qed.

(** What a checker gets from [findFieldsInObject] when the rule lists the
    names: on a body that is no object, nothing. *)
Lemma find_fields_found (body : JsVal) (names : list string) (A : Type) (some none : A) :
  (if truthy body && typeof_object body
   then if (0 <? Z.of_nat (length (findFieldsInObject body names))) then some else none
   else none)
  = if bool_decide (findFieldsInObject body names = []) then none else some.
Proof.
  destruct (truthy body && typeof_object body) eqn:Hb.
  - destruct (findFieldsInObject body names); reflexivity.
  - unfold findFieldsInObject. now rewrite search_not_object.
Qed.

(** Property X7.  With the field names configured, [checkPiiInRequestBody]
    reports exactly when some key of the body, at any depth, contains a
    configured name, letter case apart; its one finding lists the dotted
    path of every such entry.  A body that is no object is never reported. *)
Theorem pii_in_request_body_reports_matching_paths this context rs rule names :
  rules this = Some rs ->
  assoc "pii-in-request-body" rs = Some rule ->
  as_texts (setting rule "fields") = Some names ->
  let found := findFieldsInObject (ctx_requestBody context) names in
  checkPiiInRequestBody this context
  = (if bool_decide (found = []) then Ok [] else Ok [pii_issue found])
  /\ (forall path,
        In path found <->
        exists key value,
          FieldAt (ctx_requestBody context) "" path key value /\ KeyMatches names key).
Proof.
  intros Hrs Hrule Hnames found. split; [| intros path; apply findFieldsInObject_spec].
  unfold checkPiiInRequestBody, with_rule. rewrite Hrs, Hrule, Hnames. simpl.
  apply (find_fields_found (ctx_requestBody context) names CheckResult
           (Ok [pii_issue (findFieldsInObject (ctx_requestBody context) names)]) (Ok [])).
Qed.

Lemma pii_in_request_body_reports_matching_paths_witness :
  checkPiiInRequestBody Samples.engine Samples.signup = Ok [pii_issue ["user.Email"]].
Proof.
  exact (proj1 (pii_in_request_body_reports_matching_paths Samples.engine Samples.signup
                  Samples.rule_table Samples.pii_rule ["email"; "ssn"]
                  eq_refl eq_refl eq_refl)).
Defined.

(** Property X8.  With the sensitive field names configured,
    [checkMassAssignment] reports exactly when some key of the body, at any
    depth, contains a configured name, letter case apart; its one finding
    carries the message of the rule and the dotted path of every such
    entry. *)
Theorem mass_assignment_reports_matching_paths this context rs rule names :
  rules this = Some rs ->
  assoc "mass-assignment" rs = Some rule ->
  as_texts (setting rule "sensitiveFields") = Some names ->
  let found := findFieldsInObject (ctx_requestBody context) names in
  checkMassAssignment this context
  = (if bool_decide (found = []) then Ok [] else Ok [mass_assignment_issue rule found])
  /\ (forall path,
        In path found <->
        exists key value,
          FieldAt (ctx_requestBody context) "" path key value /\ KeyMatches names key).
Proof.
  intros Hrs Hrule Hnames found. split; [| intros path; apply findFieldsInObject_spec].
  unfold checkMassAssignment, with_rule. rewrite Hrs, Hrule, Hnames. simpl.
  apply (find_fields_found (ctx_requestBody context) names CheckResult
           (Ok [mass_assignment_issue rule
                  (findFieldsInObject (ctx_requestBody context) names)]) (Ok [])).
Qed.

Lemma mass_assignment_reports_matching_paths_witness :
  checkMassAssignment Samples.engine Samples.signup
  = Ok [mass_assignment_issue Samples.mass_assignment_rule ["role"]].
Proof.
  exact (proj1 (mass_assignment_reports_matching_paths Samples.engine Samples.signup
                  Samples.rule_table Samples.mass_assignment_rule ["isAdmin"; "role"]
                  eq_refl eq_refl eq_refl)).
Defined.

(** Property X9.  [checkUnencryptedSensitiveData] reports for URLs that
    start with [http://] only, and then at most once: whenever it reports,
    [checkInsecureHttp] reports the same call, provided its rule is
    configured; and on such a URL it reports the same paths as the search
    for the configured names finds. *)
Theorem unencrypted_data_comes_with_insecure_http this context rs rule names :
  rules this = Some rs ->
  assoc "unencrypted-sensitive-data" rs = Some rule ->
  as_texts (setting rule "fields") = Some names ->
  let found := findFieldsInObject (ctx_requestBody context) names in
  checkUnencryptedSensitiveData this context
  = (if startsWith (ctx_url context) "http://" && negb (bool_decide (found = []))
     then Ok [unencrypted_issue rule found] else Ok [])
  /\ (forall issue issues other,
        checkUnencryptedSensitiveData this context = Ok (issue :: issues) ->
        assoc "insecure-http" rs = Some other ->
        checkInsecureHttp this context = Ok [insecure_http_issue other]).
Proof.
  intros Hrs Hrule Hnames found.
  assert (Heq : checkUnencryptedSensitiveData this context
                = (if startsWith (ctx_url context) "http://" && negb (bool_decide (found = []))
                   then Ok [unencrypted_issue rule found] else Ok [])).
  { unfold checkUnencryptedSensitiveData, with_rule. rewrite Hrs. cbv beta iota zeta.
    rewrite Hrule, Hnames. cbv beta iota zeta. unfold find_fields.
    destruct (startsWith (ctx_url context) "http://"); [| reflexivity].
    cbn [andb]. cbv beta iota zeta.
    etransitivity;
      [apply (find_fields_found (ctx_requestBody context) names CheckResult
                (Ok [unencrypted_issue rule found]) (Ok [])) |].
    fold found. destruct (bool_decide (found = [])); reflexivity. }
  split; [exact Heq |].
  intros issue issues other Hreport Hother. rewrite Heq in Hreport.
  unfold checkInsecureHttp, with_rule. rewrite Hrs. cbv beta iota zeta. rewrite Hother.
  destruct (startsWith (ctx_url context) "http://"); [reflexivity | discriminate].
Qed.

Lemma unencrypted_data_comes_with_insecure_http_witness :
  checkUnencryptedSensitiveData Samples.engine Samples.signup
  = Ok [unencrypted_issue Samples.unencrypted_rule ["user.password"]]
  /\ checkInsecureHttp Samples.engine Samples.signup
     = Ok [insecure_http_issue Samples.insecure_http_rule].
Proof.
  pose proof (unencrypted_data_comes_with_insecure_http Samples.engine Samples.signup
                Samples.rule_table Samples.unencrypted_rule ["password"]
                eq_refl eq_refl eq_refl) as [Hreport Hboth].
  split; [exact Hreport |].
  exact (Hboth _ [] Samples.insecure_http_rule Hreport eq_refl).
Defined.

(** *** Letter case *)

Lemma lower_char_not_upper c : is_upper (lower_char c) = false.
Proof. destruct c as [[] [] [] [] [] [] [] []]; reflexivity. Qed.

Lemma lower_char_idem c : lower_char (lower_char c) = lower_char c.
Proof. destruct c as [[] [] [] [] [] [] [] []]; reflexivity. Qed.

Lemma toLowerCase_no_upper s : no_upper (toLowerCase s) = true.
Proof.
  unfold no_upper. induction s as [|c s IH]; [reflexivity |]. simpl.
  now rewrite lower_char_not_upper, IH.
Qed.

Lemma toLowerCase_idem s : toLowerCase (toLowerCase s) = toLowerCase s.
Proof. induction s as [|c s IH]; [reflexivity |]. simpl. now rewrite lower_char_idem, IH. Qed.

(** A text contained in a lower-cased text has no upper-case letter. *)
Lemma contained_in_lower s sub : Contains (toLowerCase s) sub -> no_upper sub = true.
Proof.
  intros (a & b & H). pose proof (toLowerCase_no_upper s) as Hs. rewrite H in Hs.
  unfold no_upper in *. rewrite !all_chars_app in Hs.
  apply andb_true_iff in Hs as [_ Hs]. now apply andb_true_iff in Hs as [Hs _].
Qed.

(** *** [checkSensitiveHeaders] *)

Lemma header_keys_spec (h : gmap string string) name :
  In name (header_keys h) <-> is_Some (h !! name).
Proof.
  unfold header_keys. rewrite <- list_elem_of_In, list_elem_of_fmap. split.
  - intros ([k v] & -> & H). apply elem_of_map_to_list in H. simpl. eauto.
  - intros [v Hv]. exists (name, v). split; [reflexivity |]. now apply elem_of_map_to_list.
Qed.

(** Property X10.  With its header list configured, [checkSensitiveHeaders]
    reports a header exactly when the request carries it and its name,
    lower-cased, contains a configured text as it is written: a configured
    text with an upper-case letter matches no header. *)
Theorem sensitive_headers_match_lower_case_only this context rs rule configured :
  rules this = Some rs ->
  assoc "sensitive-headers" rs = Some rule ->
  r_headers rule = Some configured ->
  exists issues,
    checkSensitiveHeaders this context = Ok issues
    /\ forall name,
         In (sensitive_header_issue name) issues <->
         is_Some (ctx_headers context !! name)
         /\ exists h, In h configured /\ no_upper h = true
                      /\ Contains (toLowerCase name) h.
Proof.
  intros Hrs Hrule Hconf.
  set (matching := List.filter
         (fun headerName => existsb (fun h => includes (toLowerCase headerName) h) configured)
         (header_keys (ctx_headers context))).
  exists (sensitive_header_issue <$> matching). split.
  - unfold checkSensitiveHeaders, with_rule. rewrite Hrs. cbv beta iota zeta.
    rewrite Hrule. cbn [mbind option_bind]. rewrite Hconf.
    subst matching. destruct (header_keys (ctx_headers context)); reflexivity.
  - intros name. rewrite <- list_elem_of_In, list_elem_of_fmap.
    assert (Hinj : forall a b, sensitive_header_issue a = sensitive_header_issue b -> a = b).
    { unfold sensitive_header_issue. intros a b H. now injection H. }
    split.
    + intros (name' & Heq & Hin). apply Hinj in Heq as <-.
      apply list_elem_of_In in Hin. subst matching. apply filter_In in Hin as [Hk Hm].
      split; [now apply header_keys_spec |].
      apply existsb_exists in Hm as (h & Hh & Hinc). apply includes_spec in Hinc.
      exists h. split; [exact Hh |]. split; [| exact Hinc].
      now apply contained_in_lower with name.
    + intros (Hk & h & Hh & _ & Hinc). exists name. split; [reflexivity |].
      apply list_elem_of_In. subst matching. apply filter_In.
      split; [now apply header_keys_spec |].
      apply existsb_exists. exists h. split; [exact Hh |]. now apply includes_spec.
Qed.

Lemma sensitive_headers_match_lower_case_only_witness :
  exists issues,
    checkSensitiveHeaders Samples.engine Samples.signup = Ok issues
    /\ forall name,
         In (sensitive_header_issue name) issues <->
         is_Some (ctx_headers Samples.signup !! name)
         /\ exists h, In h ["x-user-email"; "X-User-SSN"] /\ no_upper h = true
                      /\ Contains (toLowerCase name) h.
Proof.
  exact (sensitive_headers_match_lower_case_only Samples.engine Samples.signup
           Samples.rule_table Samples.sensitive_headers_rule ["x-user-email"; "X-User-SSN"]
           eq_refl eq_refl eq_refl).
Defined.

(** *** [checkExcessiveDataExposure] *)

Lemma lower_is_not_pageSize key : String.eqb "pageSize" (toLowerCase key) = false.
Proof.
  destruct (String.eqb_spec "pageSize" (toLowerCase key)) as [H |]; [| reflexivity].
  pose proof (toLowerCase_no_upper key) as Hk. rewrite <- H in Hk. discriminate.
Qed.

(** Property X11.  With a message configured, [checkExcessiveDataExposure]
    reports a GET request exactly when no query parameter is named, letter
    case apart, [limit], [page], [size] or [per_page].  The fifth name the
    source lists, [pageSize], is never matched: the parameter name is
    lower-cased before it is compared. *)
Theorem excessive_data_exposure_ignores_pageSize this context rs rule check message :
  rules this = Some rs ->
  assoc "excessive-data-exposure" rs = Some rule ->
  member (setting rule "checks") "0" = Some check ->
  member check "message" = Some message ->
  checkExcessiveDataExposure this context
  = if String.eqb (ctx_method context) "GET"
       && forallb (fun key => negb (array_includes ["limit"; "page"; "size"; "per_page"]
                                      (toLowerCase key)))
                  (ctx_queryParams context).*1
    then Ok [exposure_issue message] else Ok [].
Proof.
  intros Hrs Hrule Hcheck Hmessage.
  unfold checkExcessiveDataExposure, with_rule. rewrite Hrs. cbv beta iota zeta.
  rewrite Hrule. cbn [mbind option_bind]. rewrite Hcheck. cbn [mbind option_bind].
  rewrite Hmessage.
  destruct (String.eqb (ctx_method context) "GET"); [| reflexivity]. cbn [andb].
  assert (Hsame : existsb (fun key => array_includes limit_names (toLowerCase key))
                          (ctx_queryParams context).*1
                  = negb (forallb (fun key => negb (array_includes
                                                      ["limit"; "page"; "size"; "per_page"]
                                                      (toLowerCase key)))
                                  (ctx_queryParams context).*1)).
  { induction ((ctx_queryParams context).*1) as [|key keys IH]; [reflexivity |].
    cbn [existsb forallb]. rewrite IH, negb_andb, negb_involutive. f_equal.
    unfold array_includes, limit_names. cbn [existsb].
    rewrite (String.eqb_sym (toLowerCase key) "pageSize"), lower_is_not_pageSize.
    now rewrite !orb_false_r. }
  rewrite Hsame, negb_involutive. reflexivity.
Qed.

Lemma excessive_data_exposure_ignores_pageSize_witness :
  checkExcessiveDataExposure Samples.engine Samples.listing
  = Ok [exposure_issue (VStr "No pagination parameter")].
Proof.
  exact (excessive_data_exposure_ignores_pageSize Samples.engine Samples.listing
           Samples.rule_table Samples.exposure_rule
           (VObj Plain [("message", VStr "No pagination parameter")])
           (VStr "No pagination parameter") eq_refl eq_refl eq_refl eq_refl).
Defined.

(** *** Checkers that look at the path of the URL *)

Lemma contains_empty s : Contains s "".
Proof. exists "", s. reflexivity. Qed.

Lemma find_first {A : Type} (f : A -> bool) (l : list A) (x : A) :
  List.find f l = Some x <->
  exists before after,
    l = before ++ x :: after /\ f x = true /\ forall y, In y before -> f y = false.
Proof.
  split.
  - induction l as [|a l IH]; [discriminate |]. simpl.
    destruct (f a) eqn:Ha.
    + intros [= ->]. exists [], l. repeat split; [exact Ha | intros y []].
    + intros H. destruct (IH H) as (before & after & -> & Hx & Hb).
      exists (a :: before), after. repeat split; [exact Hx |].
      intros y [<- | Hy]; [exact Ha | now apply Hb].
  - intros (before & after & -> & Hx & Hb).
    induction before as [|a before IH]; simpl; [now rewrite Hx |].
    rewrite (Hb a) by now left. apply IH. intros y Hy. apply Hb. now right.
Qed.

Lemma find_none_iff {A : Type} (f : A -> bool) (l : list A) :
  List.find f l = None <-> forall y, In y l -> f y = false.
Proof.
  split.
  - intros H y Hy. now apply (List.find_none f l H).
  - induction l as [|a l IH]; intros H; [reflexivity |]. simpl.
    rewrite (H a) by now left. apply IH. intros y Hy. apply H. now right.
Qed.

Lemma includes_false s sub : includes s sub = false <-> ~ Contains s sub.
Proof.
  unfold Contains. rewrite <- includes_spec. destruct (includes s sub); split; congruence.
Qed.

Section Paths.
Context {host : Host}.

Lemma credential_read (headers : gmap string string) :
  truthy_str
    (or_str (or_str (or_str (or_str (or_str (headers !! "Authorization")
                                            (headers !! "authorization"))
                                    (headers !! "X-API-Key"))
                            (headers !! "x-api-key"))
                    (headers !! "Cookie"))
            (headers !! "cookie"))
  = truthy_str (first_read headers credential_names).
Proof.
  unfold credential_names. simpl. rewrite !or_str_first.
  repeat match goal with
         | |- context [truthy_str (headers !! ?n)] =>
             destruct (headers !! n) as [[|? ?]|]; simpl
         end; reflexivity.
Qed.

(** Property X12.  With its excluded paths configured and a URL that
    parses, [checkMissingAuthentication] reports exactly when the path
    contains no excluded text, letter case apart, and none of the headers
    [Authorization], [X-API-Key] and [Cookie], in either spelling, carries a
    non-empty value; the finding quotes the path as the URL spells it.  An
    empty text among the excluded paths silences the rule on every URL. *)
Theorem missing_authentication_reports this context rs rule excluded pathname :
  rules this = Some rs ->
  assoc "missing-authentication" rs = Some rule ->
  as_texts (setting rule "excludePaths") = Some excluded ->
  url_pathname (ctx_url context) = Some pathname ->
  ((checkMissingAuthentication this context = Ok [missing_authentication_issue rule pathname]
    /\ ~ PathExcluded excluded pathname
    /\ first_read (ctx_headers context) credential_names = None)
   \/ (checkMissingAuthentication this context = Ok []
       /\ (PathExcluded excluded pathname
           \/ exists v, HeaderRead (ctx_headers context) credential_names v)))
  /\ (In "" excluded -> checkMissingAuthentication this context = Ok []).
Proof.
  intros Hrs Hrule Hex Hurl.
  assert (Heq : checkMissingAuthentication this context
                = if negb (is_excluded excluded (toLowerCase pathname))
                     && negb (truthy_str (first_read (ctx_headers context) credential_names))
                  then Ok [missing_authentication_issue rule pathname] else Ok []).
  { unfold checkMissingAuthentication, with_rule. rewrite Hrs. cbv beta iota zeta.
    rewrite Hrule, Hurl, Hex. cbv beta iota zeta. rewrite credential_read.
    destruct (is_excluded excluded (toLowerCase pathname)); [reflexivity |].
    destruct (truthy_str _); reflexivity. }
  rewrite Heq. split.
  - destruct (is_excluded excluded (toLowerCase pathname)) eqn:Hexcl.
    + right. split; [reflexivity |]. left. now apply is_excluded_spec.
    + assert (Hnot : ~ PathExcluded excluded pathname)
        by (rewrite <- is_excluded_spec; congruence).
      destruct (first_read (ctx_headers context) credential_names) as [v|] eqn:Hread.
      * right. assert (Hv : HeaderRead (ctx_headers context) credential_names v)
          by now apply first_read_spec.
        destruct Hv as (i & name & Hi & Hname & Hne & Hfirst).
        assert (Ht : truthy_str (Some v) = true) by (apply truthy_str_true; eauto).
        rewrite Ht. split; [reflexivity |]. right. exists v, i, name. auto.
      * left. auto.
  - intros Hempty.
    assert (Hexcl : is_excluded excluded (toLowerCase pathname) = true).
    { apply is_excluded_spec. exists "", "", (toLowerCase pathname).
      split; [exact Hempty | reflexivity]. }
    now rewrite Hexcl.
Qed.

(** Property X13.  With its patterns configured and a URL that parses,
    [checkDebugEndpoints] looks at the first configured pattern that the
    path contains, letter case apart, and at that one only: it reports it
    when it is not empty and reports nothing when it is empty or when the
    path contains no pattern.  An empty pattern, which every path contains,
    hides every pattern configured after it. *)
Theorem debug_endpoints_first_pattern this context rs rule patterns pathname :
  rules this = Some rs ->
  assoc "debug-endpoints" rs = Some rule ->
  as_texts (setting rule "patterns") = Some patterns ->
  url_pathname (ctx_url context) = Some pathname ->
  let contained pattern := Contains (toLowerCase pathname) (toLowerCase pattern) in
  (forall before pattern after,
      patterns = before ++ pattern :: after ->
      (forall q, In q before -> ~ contained q) ->
      contained pattern ->
      checkDebugEndpoints this context
      = if nonempty pattern then Ok [debug_endpoint_issue pattern] else Ok [])
  /\ ((forall q, In q patterns -> ~ contained q) ->
      checkDebugEndpoints this context = Ok [])
  /\ (forall before after,
        patterns = before ++ "" :: after ->
        (forall q, In q before -> ~ contained q) ->
        checkDebugEndpoints this context = Ok []).
Proof.
  intros Hrs Hrule Hpat Hurl contained.
  assert (Heq : checkDebugEndpoints this context
                = match List.find (fun pattern =>
                                     includes (toLowerCase pathname) (toLowerCase pattern))
                                  patterns with
                  | Some matchedPattern =>
                      if nonempty matchedPattern then Ok [debug_endpoint_issue matchedPattern]
                      else Ok []
                  | None => Ok []
                  end).
  { unfold checkDebugEndpoints, with_rule. rewrite Hrs. cbv beta iota zeta.
    rewrite Hrule, Hurl. cbn [mbind option_bind]. now rewrite Hpat. }
  assert (Hfirst : forall before pattern after,
             patterns = before ++ pattern :: after ->
             (forall q, In q before -> ~ contained q) ->
             contained pattern ->
             checkDebugEndpoints this context
             = if nonempty pattern then Ok [debug_endpoint_issue pattern] else Ok []).
  { intros before pattern after Hsplit Hbefore Hin. rewrite Heq.
    replace (List.find _ patterns) with (Some pattern); [reflexivity |].
    symmetry. apply find_first. exists before, after. split; [exact Hsplit |].
    split; [now apply includes_spec |].
    intros q Hq. apply includes_false. now apply Hbefore. }
  split; [exact Hfirst |]. split.
  - intros Hnone. rewrite Heq.
    replace (List.find _ patterns) with (@None string); [reflexivity |].
    symmetry. apply find_none_iff. intros q Hq. apply includes_false. now apply Hnone.
  - intros before after Hsplit Hbefore.
    apply (Hfirst before "" after Hsplit Hbefore). apply contains_empty.
Qed.

End Paths.

Lemma debug_endpoints_first_pattern_witness :
  @checkDebugEndpoints Scenario.quiet_host Samples.engine Samples.signup = Ok [].
Proof.
  apply (proj2 (proj2 (@debug_endpoints_first_pattern Scenario.quiet_host Samples.engine
                         Samples.signup Samples.rule_table Samples.debug_rule
                         ["/debug"; ""; "/admin"] "/admin/signup"
                         eq_refl eq_refl eq_refl eq_refl)) ["/debug"] ["/admin"] eq_refl).
  intros q [<- | []]. apply includes_false. reflexivity.
Defined.

Lemma missing_authentication_reports_witness :
  @checkMissingAuthentication Scenario.quiet_host Samples.engine Samples.signup
  = Ok [missing_authentication_issue Samples.authentication_rule "/admin/signup"].
Proof.
  destruct (proj1 (@missing_authentication_reports Scenario.quiet_host Samples.engine
                     Samples.signup Samples.rule_table Samples.authentication_rule
                     ["/login"; "/health"] "/admin/signup"
                     eq_refl eq_refl eq_refl eq_refl)) as [[H _] | [H _]].
  - exact H.
  - discriminate H.
Defined.

(** *** [checkOpenRedirect] *)

Lemma assoc_some_key {A : Type} key (entries : list (string * A)) v :
  assoc key entries = Some v -> In key entries.*1.
Proof.
  induction entries as [|[k x] rest IH]; [discriminate |]. simpl.
  destruct (String.eqb_spec k key) as [-> | _]; [now left | intros H; right; auto].
Qed.

Lemma looks_like_url_nonempty value : looks_like_url value = true -> nonempty value = true.
Proof. destruct value; [discriminate | reflexivity]. Qed.

Lemma for_each_found {A : Type} (body : A -> option (list Issue)) (xs : list A) issues x :
  for_each body xs = Some issues -> In x xs ->
  exists found, body x = Some found /\ forall issue, In issue found -> In issue issues.
Proof.
  revert issues. induction xs as [|y xs IH]; intros issues H Hx; [destruct Hx |].
  cbn [for_each] in H. destruct (body y) as [found|] eqn:Hy; [| discriminate].
  destruct (for_each body xs) as [rest|]; [| discriminate].
  simpl in H. injection H as <-. destruct Hx as [-> | Hx].
  - exists found. split; [exact Hy |]. intros issue Hi. apply in_or_app. now left.
  - destruct (IH rest eq_refl Hx) as (found' & Hf & Hin). exists found'.
    split; [exact Hf |]. intros issue Hi. apply in_or_app. right. now apply Hin.
Qed.

Lemma for_each_source {A : Type} (body : A -> option (list Issue)) (xs : list A) issues issue :
  for_each body xs = Some issues -> In issue issues ->
  exists x found, In x xs /\ body x = Some found /\ In issue found.
Proof.
  revert issues. induction xs as [|y xs IH]; intros issues H Hi.
  - injection H as <-. destruct Hi.
  - cbn [for_each] in H. destruct (body y) as [found|] eqn:Hy; [| discriminate].
    destruct (for_each body xs) as [rest|]; [| discriminate].
    simpl in H. injection H as <-. apply in_app_or in Hi as [Hi | Hi].
    + exists y, found. split; [now left | auto].
    + destruct (IH rest eq_refl Hi) as (x & found' & Hx & Hf & Hin).
      exists x, found'. split; [now right | auto].
Qed.

Lemma for_each_none {A : Type} (body : A -> option (list Issue)) (xs : list A) :
  for_each body xs = None <-> exists x, In x xs /\ body x = None.
Proof.
  induction xs as [|y xs IH]; cbn [for_each].
  - split; [discriminate | intros (? & [] & _)].
  - destruct (body y) as [found|] eqn:Hy.
    + destruct (for_each body xs) as [rest|]; simpl.
      * split; [discriminate |]. intros (x & [<- | Hx] & Hnone); [congruence |].
        assert (H : Some rest = None) by (apply IH; now exists x). discriminate H.
      * split; [| reflexivity]. intros _.
        destruct (proj1 IH eq_refl) as (x & Hx & Hnone). exists x. split; [now right | exact Hnone].
    + split; [| reflexivity]. intros _. exists y. split; [now left | exact Hy].
Qed.

Lemma query_member_own queryParams name value :
  query_member queryParams name = Own value -> In name queryParams.*1.
Proof.
  unfold query_member. destruct (assoc name queryParams) as [v|] eqn:Hv.
  - intros _. now apply assoc_some_key with v.
  - destruct (array_includes object_prototype_names name); discriminate.
Qed.

Lemma query_member_inherited queryParams name :
  query_member queryParams name = Inherited ->
  array_includes object_prototype_names name = true.
Proof.
  unfold query_member. destruct (assoc name queryParams); [discriminate |].
  destruct (array_includes object_prototype_names name); [reflexivity | discriminate].
Qed.

Lemma redirect_value_own queryParams param value :
  redirect_value queryParams param = Own value -> nonempty value = true ->
  exists key, In key queryParams.*1 /\ toLowerCase key = toLowerCase param.
Proof.
  unfold redirect_value. intros H Hvalue.
  destruct (query_member queryParams param) as [v| |] eqn:Hfirst; [| discriminate |].
  - destruct (nonempty v) eqn:Hv.
    + exists param. split; [now apply query_member_own with v | reflexivity].
    + exists (toLowerCase param).
      split; [now apply query_member_own with value | apply toLowerCase_idem].
  - exists (toLowerCase param).
    split; [now apply query_member_own with value | apply toLowerCase_idem].
Qed.

Lemma redirect_value_inherited queryParams param :
  redirect_value queryParams param = Inherited ->
  array_includes object_prototype_names param = true
  \/ array_includes object_prototype_names (toLowerCase param) = true.
Proof.
  unfold redirect_value.
  destruct (query_member queryParams param) as [v| |] eqn:Hfirst.
  - destruct (nonempty v); [discriminate |]. intros H. right.
    now apply query_member_inherited with queryParams.
  - intros _. left. now apply query_member_inherited with queryParams.
  - intros H. right. now apply query_member_inherited with queryParams.
Qed.

(** Property X14.  With its parameter names configured, [checkOpenRedirect]
    looks at the configured names that the query has under some letter case,
    and reads each under the configured spelling or, failing a non-empty
    value there, under the lower-case spelling.  It throws exactly when one
    of these reads finds no property of the query itself and lands on a
    member inherited from [Object.prototype] (a name such as [constructor]);
    this never happens when no configured name, as written or lower-cased,
    is such a member.  When it returns, it reports a configured name exactly
    when the value read is a text of the query that starts with [http://],
    [https://] or [//]: a redirect parameter that the query spells in
    another letter case is found and not reported. *)
Theorem open_redirect_reads_two_spellings this context rs rule params :
  rules this = Some rs ->
  assoc "open-redirect" rs = Some rule ->
  as_texts (setting rule "params") = Some params ->
  let query := ctx_queryParams context in
  (checkOpenRedirect this context = Throw <->
   exists param,
     In param params
     /\ (exists key, In key query.*1 /\ toLowerCase key = toLowerCase param)
     /\ redirect_value query param = Inherited)
  /\ (forall issues,
        checkOpenRedirect this context = Ok issues ->
        forall param,
          In (open_redirect_issue param) issues <->
          In param params
          /\ exists value,
               redirect_value query param = Own value /\ looks_like_url value = true)
  /\ ((forall param,
         In param params ->
         array_includes object_prototype_names param = false
         /\ array_includes object_prototype_names (toLowerCase param) = false) ->
      exists issues, checkOpenRedirect this context = Ok issues).
Proof.
  intros Hrs Hrule Hparams query.
  unfold checkOpenRedirect, with_rule. rewrite Hrs. cbv beta iota zeta.
  rewrite Hrule. cbn [mbind option_bind]. rewrite Hparams. fold query.
  set (body := fun param : string =>
                 match redirect_value query param with
                 | Own value =>
                     Some (if nonempty value && looks_like_url value
                           then [open_redirect_issue param] else [])
                 | Inherited => None
                 | NoMember => Some []
                 end).
  set (foundParams := List.filter _ params).
  assert (Hfound : forall param,
             In param foundParams <->
             In param params
             /\ exists key, In key query.*1 /\ toLowerCase key = toLowerCase param).
  { intros param. unfold foundParams. rewrite filter_In, existsb_exists.
    split; intros [Hp (key & Hkey & Heq)]; (split; [exact Hp |]); exists key;
      (split; [exact Hkey |]); now apply String.eqb_eq. }
  assert (Hbody : forall param, body param = None <-> redirect_value query param = Inherited).
  { intros param. unfold body. destruct (redirect_value query param); split;
      solve [discriminate | reflexivity]. }
  assert (Hinj : forall a b, open_redirect_issue a = open_redirect_issue b -> a = b).
  { unfold open_redirect_issue. intros a b H. now injection H. }
  assert (Hthrow : for_each body foundParams = None <->
                   exists param,
                     In param params
                     /\ (exists key, In key query.*1 /\ toLowerCase key = toLowerCase param)
                     /\ redirect_value query param = Inherited).
  { rewrite for_each_none. split.
    - intros (param & Hin & Hnone). exists param. apply Hfound in Hin as [Hp Hkey].
      split; [exact Hp | split; [exact Hkey | now apply Hbody]].
    - intros (param & Hp & Hkey & Hread). exists param.
      split; [apply Hfound; now split | now apply Hbody]. }
  split; [| split].
  - rewrite <- Hthrow. destruct (for_each body foundParams); simpl;
      split; solve [discriminate | reflexivity].
  - intros issues Hissues.
    destruct (for_each body foundParams) as [found|] eqn:Hloop; [| discriminate].
    simpl in Hissues. injection Hissues as <-. intros param. split.
    + intros Hin. destruct (for_each_source body foundParams found _ Hloop Hin)
        as (p & pushed & Hp & Hpushed & Hissue).
      unfold body in Hpushed.
      destruct (redirect_value query p) as [value| |] eqn:Hvalue; [| discriminate |].
      * injection Hpushed as <-.
        destruct (nonempty value && looks_like_url value) eqn:Hok; [| destruct Hissue].
        destruct Hissue as [Hissue | []]. apply Hinj in Hissue as ->.
        apply andb_true_iff in Hok as [_ Hok].
        split; [now apply Hfound in Hp | now exists value].
      * injection Hpushed as <-. destruct Hissue.
    + intros (Hp & value & Hvalue & Hok).
      assert (Hin : In param foundParams).
      { apply Hfound. split; [exact Hp |].
        apply (redirect_value_own query param value Hvalue).
        now apply looks_like_url_nonempty. }
      destruct (for_each_found body foundParams found param Hloop Hin)
        as (pushed & Hpushed & Hall).
      apply Hall. unfold body in Hpushed. rewrite Hvalue in Hpushed.
      injection Hpushed as <-.
      rewrite Hok, (looks_like_url_nonempty value Hok). now left.
  - intros Hnames. destruct (for_each body foundParams) as [found|] eqn:Hloop;
      [now exists found |].
    destruct (proj1 Hthrow eq_refl) as (param & Hp & _ & Hread). exfalso.
    destruct (Hnames param Hp) as [H1 H2].
    apply redirect_value_inherited in Hread as [H | H]; congruence.
Qed.

(** Property X14 on a registration request whose query spells [redirect]
    with a capital letter, and on a rule that configures [constructor]. *)
Lemma open_redirect_reads_two_spellings_witness :
  (exists issues,
      checkOpenRedirect Samples.engine Samples.signup = Ok issues
      /\ In (open_redirect_issue "next") issues
      /\ ~ In (open_redirect_issue "redirect") issues)
  /\ checkOpenRedirect (analyzer_over [("open-redirect", Samples.constructor_rule)] ∅)
       Samples.constructor_query = Throw.
Proof.
  split.
  - destruct (open_redirect_reads_two_spellings Samples.engine Samples.signup
                Samples.rule_table Samples.redirect_rule ["redirect"; "next"]
                eq_refl eq_refl eq_refl) as (_ & Hreports & Hreturns).
    destruct Hreturns as [issues Hissues].
    { intros param [<- | [<- | []]]; split; vm_compute; reflexivity. }
    exists issues. split; [exact Hissues |]. split.
    + apply (Hreports issues Hissues "next"). split; [simpl; tauto |].
      exists "//evil.example". split; vm_compute; reflexivity.
    + intros H. apply (Hreports issues Hissues "redirect") in H as (_ & value & Hvalue & _).
      vm_compute in Hvalue. discriminate Hvalue.
  - apply (proj1 (open_redirect_reads_two_spellings
                    (analyzer_over [("open-redirect", Samples.constructor_rule)] ∅)
                    Samples.constructor_query
                    [("open-redirect", Samples.constructor_rule)]
                    Samples.constructor_rule ["constructor"]
                    eq_refl eq_refl eq_refl)).
    exists "constructor". split; [now left |]. split; [| vm_compute; reflexivity].
    exists "Constructor". split; [now left | vm_compute; reflexivity].
Defined.

(** *** [checkWeakPasswordPolicy] *)

Lemma weak_password_check_verdict body check field required message :
  member check "field" = Some (VStr field) ->
  member check "min_length" = Some (VNum required) ->
  member check "message" = Some message ->
  exists result,
    weak_password_check body check = Some result
    /\ password_verdict body field required message result.
Proof.
  intros Hf Hr Hm. unfold weak_password_check, password_verdict.
  rewrite Hf, Hr, Hm. cbn [as_text as_number].
  destruct (List.find (name_eq field) (preorder body)) as [[key x]|] eqn:Hfind.
  - assert (Hdec : x = VNull \/ x <> VNull)
      by (destruct x; (now left) || (right; discriminate)).
    destruct Hdec as [-> | Hx].
    + destruct (findFieldValue body field) as [| | | |s|]; try (eexists; split; eauto; fail).
      destruct (nonempty s); [destruct (_ <? _) |]; eauto.
    + rewrite (findFieldValue_first field body key x Hfind Hx).
      destruct x as [| |b|n|s|k props]; [eauto | now destruct Hx | eauto | eauto | | eauto].
      destruct (nonempty s); [destruct (_ <? _) |]; eexists; split; reflexivity.
  - rewrite (findFieldValue_none field body Hfind). eauto.
Qed.

(** Property X15.  With its checks configured, [checkWeakPasswordPolicy]
    decides each check on one entry of the body: the first one, in
    depth-first pre-order, whose key is the configured field, letter case
    apart.  It reports the check when that entry holds a non-empty text
    shorter than the configured length.  When that entry holds anything else
    but [null] (a number, an object, a text that is long enough) the check is
    not reported, whatever entries of the same name follow; nor is it when
    no key is the field. *)
Theorem weak_password_first_entry_decides this context rs rule checks :
  rules this = Some rs ->
  assoc "weak-password-policy" rs = Some rule ->
  as_array (setting rule "checks") = Some checks ->
  Structured (ctx_requestBody context) ->
  Forall (fun check =>
            exists field required message,
              member check "field" = Some (VStr field)
              /\ member check "min_length" = Some (VNum required)
              /\ member check "message" = Some message) checks ->
  exists results,
    checkWeakPasswordPolicy this context = Ok (concat results)
    /\ Forall2 (fun check result =>
                  forall field required message,
                    member check "field" = Some (VStr field) ->
                    member check "min_length" = Some (VNum required) ->
                    member check "message" = Some message ->
                    password_verdict (ctx_requestBody context) field required message result)
               checks results.
Proof.
  intros Hrs Hrule Hchecks Hbody Hshape.
  unfold checkWeakPasswordPolicy, with_rule. rewrite Hrs. cbv beta iota zeta.
  rewrite Hrule. cbn [mbind option_bind]. rewrite Hchecks. clear Hchecks.
  apply structured_spec in Hbody.
  replace (truthy (ctx_requestBody context) && typeof_object (ctx_requestBody context))
    with true
    by (destruct (truthy _), (typeof_object _); simpl in *; congruence).
  induction Hshape as [|check rest (field & required & message & Hf & Hr & Hm) _ IH].
  - exists []. split; [reflexivity | constructor].
  - destruct IH as (results & Hres & Hall).
    destruct (weak_password_check_verdict (ctx_requestBody context) check field required
                message Hf Hr Hm) as (result & Hturn & Hverdict).
    exists (result :: results). split.
    + cbn [for_each]. rewrite Hturn.
      destruct (for_each (weak_password_check (ctx_requestBody context)) rest)
        as [issues|]; [| discriminate].
      simpl in Hres. injection Hres as ->. reflexivity.
    + constructor; [| exact Hall].
      intros field' required' message' Hf' Hr' Hm'.
      rewrite Hf in Hf'. rewrite Hr in Hr'. rewrite Hm in Hm'.
      injection Hf' as <-. injection Hr' as <-. injection Hm' as <-. exact Hverdict.
Qed.

Lemma weak_password_first_entry_decides_witness :
  exists results,
    checkWeakPasswordPolicy Samples.engine Samples.signup = Ok (concat results)
    /\ Forall2 (fun check result =>
                  forall field required message,
                    member check "field" = Some (VStr field) ->
                    member check "min_length" = Some (VNum required) ->
                    member check "message" = Some message ->
                    password_verdict (ctx_requestBody Samples.signup) field required
                      message result)
               [VObj Plain [("field", VStr "password"); ("min_length", VNum 8);
                            ("message", VStr "Password is too short")]]
               results.
Proof.
  apply (weak_password_first_entry_decides Samples.engine Samples.signup
           Samples.rule_table Samples.password_rule _ eq_refl eq_refl eq_refl).
  - now exists Plain, [("user", VObj Plain [("Email", VStr "a@b.com"); ("password", VStr "abc")]);
                      ("role", VStr "admin"); ("comment", VStr "<b>hi</b>")].
  - constructor; [| constructor].
    now exists "password", 8, (VStr "Password is too short").
Defined.

(** *** Texts, continued *)

Lemma append_associative (a b c : string) : (a +:+ b) +:+ c = a +:+ (b +:+ c).
Proof. induction a as [|x a IH]; [reflexivity |]. now rewrite !append_cons, IH. Qed.

Lemma append_empty_r (a : string) : a +:+ "" = a.
Proof. induction a as [|x a IH]; [reflexivity |]. now rewrite append_cons, IH. Qed.

Lemma toLowerCase_app a b : toLowerCase (a +:+ b) = toLowerCase a +:+ toLowerCase b.
Proof. induction a as [|x a IH]; [reflexivity |]. rewrite append_cons. simpl. now rewrite IH. Qed.

Lemma toLowerCase_split x : forall a b,
  toLowerCase x = a +:+ b ->
  exists x1 x2, x = x1 +:+ x2 /\ toLowerCase x1 = a /\ toLowerCase x2 = b.
Proof.
  induction x as [|c x IH]; intros a b H.
  - simpl in H. symmetry in H. apply append_eq_empty in H as [-> ->].
    exists "", "". auto.
  - simpl in H. symmetry in H. apply append_eq_cons in H as [[-> Hb] | (a' & -> & Hx)].
    + exists "", (String c x). repeat split. simpl. now rewrite Hb.
    + destruct (IH a' b Hx) as (x1 & x2 & -> & H1 & H2).
      exists (String c x1), x2. repeat split; [| exact H2]. simpl. now rewrite H1.
Qed.

Lemma lang_anywhere r s :
  lang (anywhere r) s <-> exists a x b, s = a +:+ x +:+ b /\ lang r x.
Proof.
  unfold anywhere. rewrite lang_cat_inv. split.
  - intros (a & rest & -> & _ & H). apply lang_cat_inv in H as (x & b & -> & Hx & _).
    now exists a, x, b.
  - intros (a & x & b & -> & Hx). exists a, (x +:+ b). split; [reflexivity |].
    split; [apply lang_any_tail |]. apply lang_cat_inv. exists x, b.
    split; [reflexivity |]. split; [exact Hx | apply lang_any_tail].
Qed.

Lemma lang_alt_inv r1 r2 s : lang (Alt r1 r2) s <-> lang r1 s \/ lang r2 s.
Proof.
  split.
  - intros H. inversion H; subst; auto.
  - intros [H | H]; [now apply lang_alt_l | now apply lang_alt_r].
Qed.

(** *** [checkInsecureCookies] *)

(** A pattern of [checkInsecureCookies] finds its attribute wherever the
    cookie text holds it after a semicolon. *)
Lemma re_attribute_spec (name : regex) (texts : list string) (cookie : string) :
  (forall x, lang name x <-> In (toLowerCase x) texts) ->
  re_test (re_attribute name) cookie = true <-> AttributeAt cookie texts.
Proof.
  intros Hname. rewrite re_test_lang. unfold re_attribute. rewrite lang_anywhere. split.
  - intros (a & x & b & -> & H).
    apply lang_cat_inv in H as (semi & rest & -> & Hsemi & H). apply lang_lit in Hsemi as ->.
    apply lang_cat_inv in H as (ws & attr & -> & Hws & Hattr).
    apply lang_star_chars in Hws. apply Hname in Hattr.
    exists a, ws, attr, b. split; [| auto].
    now rewrite append_cons, append_nil, append_cons, append_associative.
  - intros (a & ws & x & b & -> & Hws & Hx).
    exists a, (";" +:+ ws +:+ x), b. split.
    + now rewrite !append_cons, !append_nil, append_associative.
    + apply lang_cat_inv. exists ";", (ws +:+ x). split; [reflexivity |].
      split; [now apply lang_lit |]. apply lang_cat_inv. exists ws, x.
      split; [reflexivity |]. split; [now apply lang_star_chars | now apply Hname].
Qed.

Lemma lang_one_text p x : lang (StrI p) x <-> In (toLowerCase x) [toLowerCase p].
Proof. rewrite lang_stri. simpl. split; [auto | intros [H | []]; auto]. Qed.

Lemma lang_samesite x :
  lang (Cat (StrI "SameSite=") (Alt (StrI "Strict") (Alt (StrI "Lax") (StrI "None")))) x
  <-> In (toLowerCase x) ["samesite=strict"; "samesite=lax"; "samesite=none"].
Proof.
  rewrite lang_cat_inv. split.
  - intros (x1 & x2 & -> & H1 & H2). apply lang_stri in H1. rewrite toLowerCase_app, H1.
    apply lang_alt_inv in H2 as [H | H]; [| apply lang_alt_inv in H as [H | H]];
      apply lang_stri in H; rewrite H; simpl; auto.
  - intros H.
    assert (Hsplit : exists value,
               toLowerCase x = "samesite=" +:+ value
               /\ In value ["strict"; "lax"; "none"]).
    { destruct H as [H | [H | [H | []]]]; rewrite <- H; eexists; (split; [reflexivity |]);
        simpl; auto. }
    destruct Hsplit as (value & Hx & Hvalue).
    apply toLowerCase_split in Hx as (x1 & x2 & -> & H1 & H2).
    exists x1, x2. split; [reflexivity |]. split; [now apply lang_stri |].
    destruct Hvalue as [<- | [<- | [<- | []]]].
    + apply lang_alt_l. now apply lang_stri.
    + apply lang_alt_r, lang_alt_l. now apply lang_stri.
    + apply lang_alt_r, lang_alt_r. now apply lang_stri.
Qed.

Lemma before_char_whole c s : ~ Contains s (String c "") -> before_char c s = s.
Proof.
  induction s as [|a s IH]; intros H; [reflexivity |]. simpl.
  destruct (Ascii.eqb_spec a c) as [-> | Hne].
  - destruct H. exists "", s. reflexivity.
  - f_equal. apply IH. intros (x & y & ->). apply H. exists (String a x), y. reflexivity.
Qed.

Lemma attribute_needs_semicolon cookie texts :
  AttributeAt cookie texts -> Contains cookie ";".
Proof. intros (a & ws & x & b & -> & _). exists a, (ws +:+ x +:+ b). reflexivity. Qed.

(** Property X16.  On a response whose [Set-Cookie] header (in either
    spelling) is not empty, [checkInsecureCookies] takes an attribute for
    present when the text holds its name, in any letter case, after a
    semicolon and optional white space; it reports the cookie unless
    [Secure], [HttpOnly] and [SameSite] with a value of [Strict], [Lax] or
    [None] are all present, and lists the missing ones in that order.  A
    cookie text without a semicolon is always reported, with all three
    attributes missing and the whole text as preview. *)
Theorem insecure_cookies_missing_attributes this context rs rule cookie :
  rules this = Some rs ->
  assoc "insecure-cookies" rs = Some rule ->
  first_read (response_headers context) ["Set-Cookie"; "set-cookie"] = Some cookie ->
  checkInsecureCookies this context
  = (if bool_decide (missing_attributes cookie = []) then Ok []
     else Ok [insecure_cookie_issue rule cookie])
  /\ (In "Secure" (missing_attributes cookie) <-> ~ AttributeAt cookie ["secure"])
  /\ (In "HttpOnly" (missing_attributes cookie) <-> ~ AttributeAt cookie ["httponly"])
  /\ (In "SameSite" (missing_attributes cookie) <->
      ~ AttributeAt cookie ["samesite=strict"; "samesite=lax"; "samesite=none"])
  /\ (~ Contains cookie ";" ->
      missing_attributes cookie = ["Secure"; "HttpOnly"; "SameSite"]
      /\ before_char ";" cookie = cookie).
Proof.
  intros Hrs Hrule Hread.
  pose proof (re_attribute_spec (StrI "Secure") ["secure"] cookie (lang_one_text "Secure"))
    as Hsecure.
  pose proof (re_attribute_spec (StrI "HttpOnly") ["httponly"] cookie
                (lang_one_text "HttpOnly")) as Hhttp.
  pose proof (re_attribute_spec _ _ cookie lang_samesite) as Hsame.
  fold re_secure in Hsecure. fold re_httponly in Hhttp. fold re_samesite in Hsame.
  split; [| split; [| split; [| split]]].
  - unfold checkInsecureCookies, with_rule. rewrite Hrs. cbv beta iota zeta. rewrite Hrule.
    assert (Hheader :
      or_str (response_headers context !! "Set-Cookie")
             (response_headers context !! "set-cookie") = Some cookie
      /\ nonempty cookie = true).
    { revert Hread. simpl. rewrite or_str_first.
      destruct (response_headers context !! "Set-Cookie") as [[|c1 s1]|]; simpl;
        destruct (response_headers context !! "set-cookie") as [[|c2 s2]|]; simpl;
        try discriminate; intros [= <-]; auto. }
    destruct Hheader as [-> ->]. cbn [negb].
    unfold insecure_cookie_issue, missing_attributes.
    destruct (re_test re_secure cookie), (re_test re_httponly cookie),
      (re_test re_samesite cookie); reflexivity.
  - unfold missing_attributes. rewrite <- Hsecure.
    destruct (re_test re_secure cookie), (re_test re_httponly cookie),
      (re_test re_samesite cookie); simpl; intuition congruence.
  - unfold missing_attributes. rewrite <- Hhttp.
    destruct (re_test re_secure cookie), (re_test re_httponly cookie),
      (re_test re_samesite cookie); simpl; intuition congruence.
  - unfold missing_attributes. rewrite <- Hsame.
    destruct (re_test re_secure cookie), (re_test re_httponly cookie),
      (re_test re_samesite cookie); simpl; intuition congruence.
  - intros Hno. split; [| now apply before_char_whole].
    assert (H1 : re_test re_secure cookie = false)
      by (apply not_true_is_false; intros H;
          apply Hsecure, attribute_needs_semicolon in H; contradiction).
    assert (H2 : re_test re_httponly cookie = false)
      by (apply not_true_is_false; intros H;
          apply Hhttp, attribute_needs_semicolon in H; contradiction).
    assert (H3 : re_test re_samesite cookie = false)
      by (apply not_true_is_false; intros H;
          apply Hsame, attribute_needs_semicolon in H; contradiction).
    unfold missing_attributes. now rewrite H1, H2, H3.
Qed.

Lemma insecure_cookies_missing_attributes_witness :
  checkInsecureCookies Samples.engine Samples.signup
  = Ok [insecure_cookie_issue Samples.cookies_rule "sid=1; Secure; httponly"].
Proof.
  exact (proj1 (insecure_cookies_missing_attributes Samples.engine Samples.signup
                  Samples.rule_table Samples.cookies_rule "sid=1; Secure; httponly"
                  eq_refl eq_refl eq_refl)).
Defined.

(** *** [checkMissingInputValidation] *)

(** The values [getDeepValues] returns are the leaves of the entries. *)
Lemma getDeepValues_in (obj v : JsVal) :
  In v (getDeepValues obj) <-> is_leaf v = true /\ exists key, In (key, v) (preorder obj).
Proof.
  revert v. induction obj as [| | | | |k props IH] using JsVal_nested_ind;
    try (intros v; simpl; split; [intros [] | intros [_ [key []]]]).
  induction IH as [|[key value] rest Hvalue _ IHrest]; intros v.
  { simpl. split; [intros [] | intros [_ [key []]]]. }
  cbn [snd] in Hvalue. rewrite getDeepValues_cons, preorder_cons, in_app_iff, IHrest.
  split.
  - intros [H | (Hleaf & key' & Hin)].
    + destruct value; simpl in H; try (destruct H as [<- | []]);
        try (split; [reflexivity | exists key; now left]); try destruct H.
      apply Hvalue in H as (Hleaf & key' & Hin). split; [exact Hleaf |].
      exists key'. right. apply in_or_app. now left.
    + split; [exact Hleaf |]. exists key'. right. apply in_or_app. now right.
  - intros (Hleaf & key' & [Heq | Hin]).
    + injection Heq as _ <-. left. destruct value; try discriminate; now left.
    + apply in_app_or in Hin as [Hin | Hin].
      * left. destruct value; try destruct Hin. apply Hvalue. eauto.
      * right. eauto.
Qed.

Lemma dangerous_input_spec s : dangerous_input (VStr s) = true <-> Dangerous s.
Proof.
  unfold dangerous_input, Dangerous. rewrite orb_true_iff, Z.ltb_lt, re_test_lang, lang_anywhere.
  split.
  - intros [H | (a & x & b & -> & H)]; [left; lia | right].
    apply lang_chars_inv in H as (c & -> & Hc). exists a, c, b. now rewrite append_cons.
  - intros [H | (a & c & b & -> & Hc)]; [left; lia | right].
    exists a, (String c ""), b. split; [now rewrite append_cons |].
    apply lang_chars_inv. eauto.
Qed.

Lemma dangerous_values_spec context :
  existsb dangerous_input (values_to_check context) = true <->
  (exists key value, In (key, value) (ctx_queryParams context) /\ Dangerous value)
  \/ (exists key s, In (key, VStr s) (preorder (ctx_requestBody context)) /\ Dangerous s).
Proof.
  rewrite existsb_exists. unfold values_to_check. split.
  - intros (v & Hin & Hd). apply in_app_or in Hin as [Hin | Hin].
    + left. apply list_elem_of_In, list_elem_of_fmap in Hin as (value & -> & Hin).
      apply list_elem_of_fmap in Hin as ([key value'] & -> & Hin).
      exists key, value'. split; [now apply list_elem_of_In | now apply dangerous_input_spec].
    + right. apply getDeepValues_in in Hin as (_ & key & Hin).
      destruct v; try discriminate. exists key, s. split; [exact Hin |].
      now apply dangerous_input_spec.
  - intros [(key & value & Hin & Hd) | (key & s & Hin & Hd)].
    + exists (VStr value). split; [| now apply dangerous_input_spec].
      apply in_or_app. left. apply list_elem_of_In, list_elem_of_fmap.
      exists value. split; [reflexivity |]. apply list_elem_of_fmap.
      exists (key, value). split; [reflexivity | now apply list_elem_of_In].
    + exists (VStr s). split; [| now apply dangerous_input_spec].
      apply in_or_app. right. apply getDeepValues_in. split; [reflexivity | eauto].
Qed.

(** Property X17.  With its rule configured, [checkMissingInputValidation]
    reports, once, exactly when the method is not [GET], the response
    carries no non-empty [X-Content-Type-Options] header in either spelling,
    and some query value or some text held at any depth of the request body
    is longer than 100 characters or holds an angle bracket, a quote or a
    backslash.  Keys, numbers and booleans are never looked at. *)
Theorem missing_input_validation_reports this context rs rule :
  rules this = Some rs ->
  assoc "missing-input-validation" rs = Some rule ->
  (checkMissingInputValidation this context = Ok [input_validation_issue rule]
   \/ checkMissingInputValidation this context = Ok [])
  /\ (checkMissingInputValidation this context = Ok [input_validation_issue rule] <->
      ctx_method context <> "GET"
      /\ first_read (response_headers context)
           ["X-Content-Type-Options"; "x-content-type-options"] = None
      /\ ((exists key value, In (key, value) (ctx_queryParams context) /\ Dangerous value)
          \/ (exists key s,
                In (key, VStr s) (preorder (ctx_requestBody context)) /\ Dangerous s))).
Proof.
  intros Hrs Hrule.
  assert (Heq : checkMissingInputValidation this context
                = if existsb dangerous_input (values_to_check context)
                     && negb (truthy_str (first_read (response_headers context)
                                ["X-Content-Type-Options"; "x-content-type-options"]))
                     && negb (String.eqb (ctx_method context) "GET")
                  then Ok [input_validation_issue rule] else Ok []).
  { unfold checkMissingInputValidation, with_rule. rewrite Hrs. cbv beta iota zeta.
    rewrite Hrule.
    destruct (existsb dangerous_input (values_to_check context)); [| reflexivity].
    cbn [andb first_read]. rewrite or_str_first.
    destruct (response_headers context !! "X-Content-Type-Options") as [[|c1 s1]|];
      destruct (response_headers context !! "x-content-type-options") as [[|c2 s2]|];
      simpl; destruct (String.eqb (ctx_method context) "GET"); reflexivity. }
  rewrite Heq. rewrite <- dangerous_values_spec.
  destruct (existsb dangerous_input (values_to_check context)); cbn [andb].
  2:{ split; [now right |]. split; [discriminate | intros (_ & _ & H); discriminate]. }
  destruct (first_read (response_headers context) _) as [v|] eqn:Hread.
  - assert (Hv : truthy_str (Some v) = true).
    { apply first_read_spec in Hread as (i & name & _ & _ & Hne & _).
      apply truthy_str_true. eauto. }
    rewrite Hv. cbn [negb andb].
    split; [now right |]. split; [discriminate | intros (_ & H & _); discriminate].
  - cbn [truthy_str negb andb].
    destruct (String.eqb_spec (ctx_method context) "GET") as [Hget | Hget]; cbn [negb].
    + split; [now right |]. split; [discriminate | intros (H & _); contradiction].
    + split; [now left |]. split; auto.
Qed.

Lemma missing_input_validation_reports_witness :
  checkMissingInputValidation Samples.engine Samples.signup
  = Ok [input_validation_issue Samples.validation_rule].
Proof.
  apply (proj2 (proj2 (missing_input_validation_reports Samples.engine Samples.signup
                         Samples.rule_table Samples.validation_rule eq_refl eq_refl))).
  split; [discriminate |]. split; [reflexivity |].
  right. exists "comment", "<b>hi</b>". split; [simpl; tauto |].
  right. exists "", "<"%char, "b>hi</b>". split; reflexivity.
Defined.

(** *** The severity shown for an endpoint *)

Lemma severityOrder_known severity :
  0 < severityOrder severity -> In severity ["critical"; "high"; "medium"; "low"].
Proof.
  unfold severityOrder.
  destruct (String.eqb_spec severity "critical") as [-> | _]; [simpl; auto |].
  destruct (String.eqb_spec severity "high") as [-> | _]; [simpl; auto |].
  destruct (String.eqb_spec severity "medium") as [-> | _]; [simpl; auto |].
  destruct (String.eqb_spec severity "low") as [-> | _]; [simpl; auto | lia].
Qed.

Lemma highest_fold issues : forall acc,
  0 <= snd acc <= severityOrder (fst acc) ->
  In (fst acc) ["critical"; "high"; "medium"; "low"] ->
  let r := fold_left highest_step issues acc in
  0 <= snd r <= severityOrder (fst r)
  /\ In (fst r) ["critical"; "high"; "medium"; "low"]
  /\ snd acc <= snd r
  /\ (forall issue, In issue issues -> severityOrder (f_severity issue) <= snd r)
  /\ (r = acc \/ exists issue, In issue issues /\ f_severity issue = fst r).
Proof.
  induction issues as [|issue rest IH]; intros acc Hacc Hin.
  - simpl. repeat split; try tauto; try lia; try (now intros ? []).
  - cbn [fold_left].
    assert (Hstep : 0 <= snd (highest_step acc issue)
                         <= severityOrder (fst (highest_step acc issue))
                    /\ In (fst (highest_step acc issue)) ["critical"; "high"; "medium"; "low"]
                    /\ snd acc <= snd (highest_step acc issue)
                    /\ severityOrder (f_severity issue) <= snd (highest_step acc issue)
                    /\ (highest_step acc issue = acc
                        \/ f_severity issue = fst (highest_step acc issue))).
    { unfold highest_step. destruct (snd acc <? severityOrder (f_severity issue)) eqn:Hlt.
      - apply Z.ltb_lt in Hlt. cbn [fst snd].
        repeat split; try lia; [| now right]. apply severityOrder_known. lia.
      - apply Z.ltb_ge in Hlt. repeat split; try tauto; try lia. }
    destruct Hstep as (H1 & H2 & H3 & H4 & H5).
    destruct (IH (highest_step acc issue) H1 H2) as (R1 & R2 & R3 & R4 & R5).
    split; [exact R1 |]. split; [exact R2 |]. split; [lia |]. split.
    + intros x [<- | Hx]; [lia | now apply R4].
    + destruct R5 as [R5 | (x & Hx & Hsev)].
      * rewrite R5. destruct H5 as [H5 | H5]; [left; exact H5 |].
        right. exists issue. split; [now left | exact H5].
      * right. exists x. split; [now right | exact Hsev].
Qed.

(** Property X18.  [getHighestSeverity] returns one of the four severity
    names, whatever the findings carry; no finding of the list ranks above
    the name returned; and the name is the severity of a finding of the
    list, unless no finding has a known severity, in which case it is
    [low]. *)
Theorem getHighestSeverity_is_highest (issues : list Finding) :
  In (getHighestSeverity issues) ["critical"; "high"; "medium"; "low"]
  /\ (forall issue,
        In issue issues ->
        severityOrder (f_severity issue) <= severityOrder (getHighestSeverity issues))
  /\ ((exists issue, In issue issues /\ f_severity issue = getHighestSeverity issues)
      \/ (getHighestSeverity issues = "low"
          /\ forall issue, In issue issues -> severityOrder (f_severity issue) = 0)).
Proof.
  unfold getHighestSeverity.
  destruct (highest_fold issues ("low", 0)) as (R1 & R2 & _ & R4 & R5);
    [vm_compute; split; discriminate | simpl; auto |].
  split; [exact R2 |]. split.
  - intros issue Hin. specialize (R4 issue Hin). lia.
  - destruct R5 as [R5 | R5]; [right | now left].
    rewrite R5. split; [reflexivity |].
    intros issue Hin. specialize (R4 issue Hin). rewrite R5 in R4. simpl in R4.
    assert (0 <= severityOrder (f_severity issue)); [| lia].
    unfold severityOrder. repeat case_match; lia.
Qed.

(** *** The summary of the panel, continued *)

Lemma assoc_app {A : Type} key (l1 l2 : list (string * A)) :
  assoc key (l1 ++ l2) = match assoc key l1 with Some v => Some v | None => assoc key l2 end.
Proof.
  induction l1 as [|[k v] l1 IH]; [reflexivity |]. simpl.
  destruct (String.eqb k key); [reflexivity | exact IH].
Qed.

Lemma assoc_none_keys {A : Type} key (l : list (string * A)) :
  assoc key l = None <-> ~ In key l.*1.
Proof.
  induction l as [|[k v] l IH]; simpl; [tauto |].
  destruct (String.eqb_spec k key) as [-> | Hne].
  - split; [discriminate | intros H; destruct H; now left].
  - rewrite IH. split; [intros H [Heq | Hin]; [congruence | tauto] | tauto].
Qed.

Lemma unique_issues_app issues again : forall seen,
  unique_issues (issues ++ again) seen = unique_issues again (unique_issues issues seen).
Proof.
  induction issues as [|f rest IH]; intros seen; [reflexivity |]. simpl.
  destruct (assoc (issue_key f) seen); apply IH.
Qed.

(** What the loop adds to the map: the first finding of every new key. *)
Lemma unique_issues_adds issues : forall seen,
  exists added,
    unique_issues issues seen = seen ++ added
    /\ sublist added.*2 issues
    /\ (forall key f, In (key, f) added ->
          key = issue_key f /\ ~ In key seen.*1
          /\ List.find (fun g => String.eqb (issue_key g) key) issues = Some f)
    /\ (NoDup seen.*1 -> NoDup (seen ++ added).*1)
    /\ (forall f, In f issues -> In (issue_key f) (seen ++ added).*1).
Proof.
  induction issues as [|f rest IH]; intros seen.
  - exists []. rewrite app_nil_r. simpl.
    split; [reflexivity |]. split; [constructor |]. split; [intros key f [] |].
    split; [auto | intros f []].
  - simpl. destruct (assoc (issue_key f) seen) as [g|] eqn:Hseen.
    + destruct (IH seen) as (added & Heq & Hsub & Hfirst & Hnodup & Hcover).
      exists added. split; [exact Heq |]. split; [now apply sublist_cons |]. split; [| split].
      * intros key x Hin. destruct (Hfirst key x Hin) as (Hkey & Hnew & Hfind).
        repeat split; auto.
        destruct (String.eqb_spec (issue_key f) key) as [Hk | _]; [| exact Hfind].
        exfalso. apply Hnew. rewrite <- Hk. now apply assoc_some_key with g.
      * exact Hnodup.
      * intros x [<- | Hx]; [| now apply Hcover].
        rewrite fmap_app. apply in_or_app. left. now apply assoc_some_key with g.
    + destruct (IH (seen ++ [(issue_key f, f)])) as (added & Heq & Hsub & Hfirst & Hnodup & Hcover).
      exists ((issue_key f, f) :: added). rewrite Heq, <- app_assoc. simpl.
      split; [reflexivity |]. split; [now apply sublist_skip |]. split; [| split].
      * intros key x [Hin | Hin].
        -- injection Hin as <- <-. rewrite String.eqb_refl.
           split; [reflexivity |]. split; [now apply assoc_none_keys | reflexivity].
        -- destruct (Hfirst key x Hin) as (Hkey & Hnew & Hfind).
           split; [exact Hkey |]. rewrite fmap_app in Hnew. simpl in Hnew.
           split; [intros H; apply Hnew, in_or_app; now left |].
           destruct (String.eqb_spec (issue_key f) key) as [Hk | _]; [| exact Hfind].
           exfalso. apply Hnew, in_or_app. right. left. exact Hk.
      * intros Hnd. rewrite <- app_assoc in Hnodup. simpl in Hnodup. apply Hnodup.
        rewrite fmap_app. simpl. apply NoDup_app. split; [exact Hnd |]. split.
        -- intros key Hkey [<- | []]%list_elem_of_In. apply list_elem_of_In in Hkey.
           now apply assoc_none_keys in Hseen.
        -- apply NoDup_singleton.
      * intros x [<- | Hx].
        -- rewrite fmap_app. apply in_or_app. right. now left.
        -- specialize (Hcover x Hx). now rewrite <- app_assoc in Hcover.
Qed.

(** Property X19.  The map [updateSecuritySummary] builds for an endpoint
    keeps, for each key, the first finding of the list that has it, and
    nothing else: its keys are distinct, every finding of the list has its
    key in it, and its findings are a subsequence of the list. *)
Theorem unique_issues_keeps_first_of_each_key (issues : list Finding) :
  let kept := unique_issues issues [] in
  NoDup kept.*1
  /\ sublist kept.*2 issues
  /\ (forall f, In f issues -> In (issue_key f) kept.*1)
  /\ (forall key f,
        In (key, f) kept ->
        key = issue_key f
        /\ List.find (fun g => String.eqb (issue_key g) key) issues = Some f).
Proof.
  destruct (unique_issues_adds issues []) as (added & Heq & Hsub & Hfirst & Hnodup & Hcover).
  simpl in *. rewrite Heq.
  split; [apply Hnodup; constructor |]. split; [exact Hsub |]. split; [exact Hcover |].
  intros key f Hin. destruct (Hfirst key f Hin) as (Hkey & _ & Hfind). auto.
Qed.

Lemma updateSecuritySummary_app before after :
  updateSecuritySummary (before ++ after)
  = fold_left (fun acc issues => count_endpoint issues acc) after
              (updateSecuritySummary before).
Proof. unfold updateSecuritySummary. apply fold_left_app. Qed.

(** Property X20.  Findings appended to the list of an endpoint, with the
    severity and the message of findings the list already has, do not change
    the counters [updateSecuritySummary] returns, whatever their rule, time
    stamps and details. *)
Theorem dedup_absorbs_repeated_findings before issues again after :
  (forall g, In g again ->
     exists f, In f issues
               /\ f_severity g = f_severity f /\ f_message g = f_message f) ->
  updateSecuritySummary (before ++ Some (issues ++ again) :: after)
  = updateSecuritySummary (before ++ Some issues :: after).
Proof.
  intros Hagain. rewrite !updateSecuritySummary_app. cbn [fold_left]. f_equal.
  unfold count_endpoint. f_equal. rewrite unique_issues_app.
  apply unique_issues_known. intros g Hg.
  destruct (Hagain g Hg) as (f & Hf & Hs & Hm).
  assert (Hk : issue_key g = issue_key f) by (unfold issue_key; now rewrite Hs, Hm).
  destruct (unique_issues_adds issues []) as (added & Heq & _ & _ & _ & Hcover).
  specialize (Hcover f Hf). rewrite <- Heq, <- Hk in Hcover.
  destruct (assoc (issue_key g) (unique_issues issues [])) as [x|] eqn:Hx; [eauto |].
  now apply assoc_none_keys in Hx.
Qed.

Lemma dedup_absorbs_repeated_findings_witness :
  updateSecuritySummary
    [Some ([Scenario.finding_a] ++ [Scenario.finding_b; Scenario.finding_a])]
  = updateSecuritySummary [Some [Scenario.finding_a]].
Proof.
  apply (dedup_absorbs_repeated_findings [] [Scenario.finding_a]
           [Scenario.finding_b; Scenario.finding_a] []).
  intros g Hg. exists Scenario.finding_a. split; [now left |].
  destruct Hg as [<- | [<- | []]]; split; reflexivity.
Defined.

(** *** [getVulnerabilitySummary] *)

Lemma bump_total severity summary :
  In severity ["critical"; "high"; "medium"; "low"] ->
  s_critical (bump severity summary) + s_high (bump severity summary)
  + s_medium (bump severity summary) + s_low (bump severity summary)
  = s_critical summary + s_high summary + s_medium summary + s_low summary + 1.
Proof.
  intros [<- | [<- | [<- | [<- | []]]]]; simpl; lia.
Qed.

Lemma count_vulnerabilities_total vulnerabilities : forall acc,
  (forall vuln, In vuln vulnerabilities ->
                In (f_severity vuln) ["critical"; "high"; "medium"; "low"]) ->
  exists summary,
    count_vulnerabilities vulnerabilities acc = Some (fst acc, summary)
    /\ s_critical summary + s_high summary + s_medium summary + s_low summary
       = s_critical (snd acc) + s_high (snd acc) + s_medium (snd acc) + s_low (snd acc)
         + Z.of_nat (length vulnerabilities).
Proof.
  induction vulnerabilities as [|vuln rest IH]; intros [total summary] Hknown.
  - exists summary. simpl. split; [reflexivity | lia].
  - assert (Hsev : In (f_severity vuln) ["critical"; "high"; "medium"; "low"])
      by (apply Hknown; now left).
    cbn [count_vulnerabilities].
    replace (String.eqb (f_severity vuln) "byRule") with false
      by (destruct Hsev as [<- | [<- | [<- | [<- | []]]]]; reflexivity).
    replace (String.eqb (f_severity vuln) "total") with false
      by (destruct Hsev as [<- | [<- | [<- | [<- | []]]]]; reflexivity).
    destruct (IH (total, bump (f_severity vuln) summary)) as (final & Heq & Hsum).
    { intros x Hx. apply Hknown. now right. }
    exists final. cbn [fst snd] in *. split; [exact Heq |].
    rewrite Hsum, bump_total by exact Hsev. cbn [length]. lia.
Qed.

(** Property X21.  On findings whose severities are among the four names,
    [getVulnerabilitySummary] returns a summary whose [total] is the number
    of findings and whose four counters add up to it. *)
Theorem getVulnerabilitySummary_total_is_sum (vulnerabilities : list Finding) :
  (forall vuln, In vuln vulnerabilities ->
                In (f_severity vuln) ["critical"; "high"; "medium"; "low"]) ->
  exists summary,
    getVulnerabilitySummary vulnerabilities
    = Some (Z.of_nat (length vulnerabilities), summary)
    /\ s_critical summary + s_high summary + s_medium summary + s_low summary
       = Z.of_nat (length vulnerabilities).
Proof.
  intros Hknown. unfold getVulnerabilitySummary.
  destruct (count_vulnerabilities_total vulnerabilities
              (Z.of_nat (length vulnerabilities), no_counts) Hknown) as (summary & Heq & Hsum).
  exists summary. split; [exact Heq |]. rewrite Hsum. simpl. lia.
Qed.

Lemma getVulnerabilitySummary_total_is_sum_witness :
  exists summary,
    getVulnerabilitySummary [Scenario.finding_a; Scenario.finding_b]
    = Some (2, summary)
    /\ s_critical summary + s_high summary + s_medium summary + s_low summary = 2.
Proof.
  apply (getVulnerabilitySummary_total_is_sum [Scenario.finding_a; Scenario.finding_b]).
  intros vuln [<- | [<- | []]]; simpl; auto.
Defined.

(** *** [escapeHtml] *)

Lemma replace_all_app c by_text a b :
  replace_all c by_text (a +:+ b) = replace_all c by_text a +:+ replace_all c by_text b.
Proof.
  induction a as [|x a IH]; [reflexivity |].
  rewrite append_cons. simpl. now rewrite IH, append_associative.
Qed.

Lemma replace_all_one c by_text x :
  replace_all c by_text (String x "") = if Ascii.eqb x c then by_text else String x "".
Proof. simpl. destruct (Ascii.eqb x c); [apply append_empty_r | reflexivity]. Qed.

(** The five replacements in a row amount to one pass: no replacement
    text holds a character that a later replacement looks for. *)
Lemma escapeHtml_one_pass s : escapeHtml s = escape_each s.
Proof.
  unfold escapeHtml. induction s as [|c s IH]; [reflexivity |].
  cbn [escape_each]. rewrite <- IH.
  change (String c s) with (String c "" +:+ s).
  rewrite !replace_all_app. f_equal.
  rewrite (replace_all_one "&"). unfold escape_char.
  destruct (Ascii.eqb_spec c "&") as [-> | Hamp]; [reflexivity |].
  rewrite (replace_all_one "<").
  destruct (Ascii.eqb_spec c "<") as [-> | Hlt]; [reflexivity |].
  rewrite (replace_all_one ">").
  destruct (Ascii.eqb_spec c ">") as [-> | Hgt]; [reflexivity |].
  rewrite (replace_all_one "034").
  destruct (Ascii.eqb_spec c "034") as [-> | Hquot]; [reflexivity |].
  rewrite (replace_all_one "'").
  destruct (Ascii.eqb_spec c "'") as [-> | Hapos]; reflexivity.
Qed.

Lemma escape_char_cases c :
  (escape_char c = String c "" /\ html_special c = false /\ c <> "&"%char)
  \/ (exists rest, escape_char c = String "&" rest /\ rest <> ""
                   /\ all_chars (fun x => negb (html_special x)) rest = true
                   /\ In (c, rest) [("&"%char, "amp;"); ("<"%char, "lt;"); (">"%char, "gt;");
                                    ("034"%char, "quot;"); ("'"%char, "#039;")]).
Proof.
  unfold escape_char, html_special, one_of. cbn [existsb list_ascii_of_string].
  destruct (Ascii.eqb_spec c "&") as [-> | Hamp].
  { right. exists "amp;". split; [reflexivity |]. split; [discriminate |].
    split; [reflexivity |]. simpl. auto. }
  destruct (Ascii.eqb_spec c "<") as [-> | Hlt].
  { right. exists "lt;". split; [reflexivity |]. split; [discriminate |].
    split; [reflexivity |]. simpl. auto. }
  destruct (Ascii.eqb_spec c ">") as [-> | Hgt].
  { right. exists "gt;". split; [reflexivity |]. split; [discriminate |].
    split; [reflexivity |]. simpl. auto. }
  destruct (Ascii.eqb_spec c "034") as [-> | Hquot].
  { right. exists "quot;". split; [reflexivity |]. split; [discriminate |].
    split; [reflexivity |]. simpl. auto 6. }
  destruct (Ascii.eqb_spec c "'") as [-> | Hapos].
  { right. exists "#039;". split; [reflexivity |]. split; [discriminate |].
    split; [reflexivity |]. simpl. auto 7. }
  left. split; [reflexivity |]. split; [| exact Hamp].
  rewrite !orb_false_r. reflexivity.
Qed.

Lemma escape_each_injective s : forall t, escape_each s = escape_each t -> s = t.
Proof.
  induction s as [|a s IH]; intros [|b t] H; [reflexivity | | |].
  - exfalso. cbn [escape_each] in H.
    destruct (escape_char_cases b) as [(Hb & _) | (rest & Hb & _)]; rewrite Hb in H;
      rewrite append_cons in H; discriminate.
  - exfalso. cbn [escape_each] in H.
    destruct (escape_char_cases a) as [(Ha & _) | (rest & Ha & _)]; rewrite Ha in H;
      rewrite append_cons in H; discriminate.
  - cbn [escape_each] in H.
    destruct (escape_char_cases a) as [(Ha & _ & Hna) | (ra & Ha & _ & _ & Hina)];
      destruct (escape_char_cases b) as [(Hb & _ & Hnb) | (rb & Hb & _ & _ & Hinb)];
      rewrite Ha, Hb in H; rewrite !append_cons, ?append_nil in H.
    + injection H as -> H. f_equal. now apply IH.
    + exfalso. injection H as -> _. now apply Hna.
    + exfalso. injection H as <- _. now apply Hnb.
    + injection H as H.
      simpl in Hina, Hinb.
      destruct Hina as [Hx | [Hx | [Hx | [Hx | [Hx | []]]]]]; injection Hx as <- <-;
        destruct Hinb as [Hy | [Hy | [Hy | [Hy | [Hy | []]]]]]; injection Hy as <- <-;
        rewrite !append_cons, ?append_nil in H; try discriminate;
        injection H as H; f_equal; now apply IH.
Qed.

(** Property X22.  The text [escapeHtml] returns holds no angle bracket
    and no quote, single or double; two different texts are never escaped
    to the same text; and a text that holds none of the five characters it
    replaces is returned as it is. *)
Theorem escapeHtml_safe_and_faithful (unsafe : string) :
  all_chars (fun c => negb (html_special c)) (escapeHtml unsafe) = true
  /\ (forall other, escapeHtml unsafe = escapeHtml other -> unsafe = other)
  /\ (all_chars (fun c => negb (html_special c || Ascii.eqb c "&")) unsafe = true ->
      escapeHtml unsafe = unsafe).
Proof.
  split; [| split].
  - rewrite escapeHtml_one_pass. induction unsafe as [|c s IH]; [reflexivity |].
    cbn [escape_each]. rewrite all_chars_app, IH, andb_true_r.
    destruct (escape_char_cases c) as [(Hc & Hs & _) | (rest & Hc & _ & Hrest & _)];
      rewrite Hc; simpl; [now rewrite Hs | exact Hrest].
  - intros other. rewrite !escapeHtml_one_pass. apply escape_each_injective.
  - rewrite escapeHtml_one_pass. induction unsafe as [|c s IH]; [reflexivity |].
    simpl. intros H. apply andb_true_iff in H as [Hc Hs]. rewrite (IH Hs).
    apply negb_true_iff, orb_false_iff in Hc as [Hspecial Hamp].
    destruct (escape_char_cases c) as [(Hc & _) | (rest & _ & _ & _ & Hin)];
      [now rewrite Hc |].
    exfalso. simpl in Hin.
    destruct Hin as [Hx | [Hx | [Hx | [Hx | [Hx | []]]]]]; injection Hx as <- _;
      discriminate.
Qed.

(** *** [enforceMemoryLimits] *)

Lemma slice_from_last {A : Type} (max : Z) (xs : list A) :
  0 < max -> max < Z.of_nat (length xs) ->
  slice_from (- max) xs `suffix_of` xs
  /\ Z.of_nat (length (slice_from (- max) xs)) = max.
Proof.
  intros Hpos Hlong. unfold slice_from.
  replace (- max <? 0) with true by (symmetry; apply Z.ltb_lt; lia).
  split; [apply suffix_drop |]. rewrite length_drop. lia.
Qed.

Lemma limit_calls_spec config entry :
  0 < MAX_CALLS_PER_ENDPOINT config ->
  fst (limit_calls config entry) = fst entry
  /\ same_endpoint (snd (limit_calls config entry)) (snd entry)
  /\ ed_calls (snd (limit_calls config entry)) `suffix_of` ed_calls (snd entry)
  /\ Z.of_nat (length (ed_calls (snd (limit_calls config entry))))
     = Z.min (Z.of_nat (length (ed_calls (snd entry)))) (MAX_CALLS_PER_ENDPOINT config).
Proof.
  intros Hpos. unfold limit_calls.
  destruct (MAX_CALLS_PER_ENDPOINT config <? Z.of_nat (length (ed_calls (snd entry))))
    eqn:Hlong.
  - apply Z.ltb_lt in Hlong.
    destruct (slice_from_last _ (ed_calls (snd entry)) Hpos Hlong) as [Hsuffix Hlen].
    cbn [fst snd with_calls ed_calls]. repeat split; [exact Hsuffix | lia].
  - apply Z.ltb_ge in Hlong. repeat split; [reflexivity | lia].
Qed.

Lemma limit_calls_within config (entries : list (string * EndpointData)) :
  (forall entry, In entry entries ->
     Z.of_nat (length (ed_calls (snd entry))) <= MAX_CALLS_PER_ENDPOINT config) ->
  limit_calls config <$> entries = entries.
Proof.
  induction entries as [|entry rest IH]; intros Hshort; [reflexivity |].
  rewrite fmap_cons. f_equal.
  - unfold limit_calls. replace (_ <? _) with false; [reflexivity |].
    symmetry. apply Z.ltb_ge. apply Hshort. now left.
  - apply IH. intros x Hx. apply Hshort. now right.
Qed.

(** Property X23.  With a limit of at least zero endpoints and at least
    one call per endpoint, [enforceMemoryLimits] returns; it keeps the
    endpoints inserted last, as many as the limit allows and in their
    order, and of each endpoint kept its last calls, as many as the limit
    allows and in their order, the rest of the endpoint untouched.  A map
    within both limits is left as it is. *)
Theorem enforceMemoryLimits_keeps_the_latest config apiCalls :
  0 <= MAX_TOTAL_ENDPOINTS config ->
  0 < MAX_CALLS_PER_ENDPOINT config ->
  exists dropped latest,
    apiCalls = dropped ++ latest
    /\ enforceMemoryLimits config apiCalls = Some (limit_calls config <$> latest)
    /\ Z.of_nat (length latest)
       = Z.min (Z.of_nat (length apiCalls)) (MAX_TOTAL_ENDPOINTS config)
    /\ (forall entry,
          fst (limit_calls config entry) = fst entry
          /\ same_endpoint (snd (limit_calls config entry)) (snd entry)
          /\ ed_calls (snd (limit_calls config entry)) `suffix_of` ed_calls (snd entry)
          /\ Z.of_nat (length (ed_calls (snd (limit_calls config entry))))
             = Z.min (Z.of_nat (length (ed_calls (snd entry))))
                     (MAX_CALLS_PER_ENDPOINT config))
    /\ (Z.of_nat (length apiCalls) <= MAX_TOTAL_ENDPOINTS config ->
        (forall entry, In entry apiCalls ->
           Z.of_nat (length (ed_calls (snd entry))) <= MAX_CALLS_PER_ENDPOINT config) ->
        enforceMemoryLimits config apiCalls = Some apiCalls).
Proof.
  intros Htotal Hcalls.
  set (size := Z.of_nat (length apiCalls)).
  set (excess := Z.to_nat (size - MAX_TOTAL_ENDPOINTS config)).
  assert (Hkept : enforceMemoryLimits config apiCalls
                  = Some (limit_calls config <$> drop excess apiCalls)).
  { unfold enforceMemoryLimits. fold size.
    destruct (MAX_TOTAL_ENDPOINTS config <? size) eqn:Hover.
    - replace (size <? size - MAX_TOTAL_ENDPOINTS config) with false
        by (symmetry; apply Z.ltb_ge; lia).
      reflexivity.
    - apply Z.ltb_ge in Hover. subst excess.
      replace (Z.to_nat (size - MAX_TOTAL_ENDPOINTS config)) with 0%nat by lia.
      reflexivity. }
  exists (take excess apiCalls), (drop excess apiCalls).
  split; [now rewrite take_drop |]. split; [exact Hkept |]. split; [| split].
  - rewrite length_drop. subst excess size. lia.
  - intros entry. now apply limit_calls_spec.
  - intros Hfew Hshort. rewrite Hkept. subst excess.
    replace (Z.to_nat (size - MAX_TOTAL_ENDPOINTS config)) with 0%nat by (subst size; lia).
    rewrite drop_0. f_equal. now apply limit_calls_within.
Qed.

Lemma enforceMemoryLimits_keeps_the_latest_witness :
  exists dropped latest,
    [Samples.items_endpoint] = dropped ++ latest
    /\ enforceMemoryLimits CONFIG [Samples.items_endpoint]
       = Some (limit_calls CONFIG <$> latest)
    /\ Z.of_nat (length latest) = Z.min 1 500
    /\ (forall entry,
          fst (limit_calls CONFIG entry) = fst entry
          /\ same_endpoint (snd (limit_calls CONFIG entry)) (snd entry)
          /\ ed_calls (snd (limit_calls CONFIG entry)) `suffix_of` ed_calls (snd entry)
          /\ Z.of_nat (length (ed_calls (snd (limit_calls CONFIG entry))))
             = Z.min (Z.of_nat (length (ed_calls (snd entry)))) 100)
    /\ (Z.of_nat (length [Samples.items_endpoint]) <= 500 ->
        (forall entry, In entry [Samples.items_endpoint] ->
           Z.of_nat (length (ed_calls (snd entry))) <= 100) ->
        enforceMemoryLimits CONFIG [Samples.items_endpoint]
        = Some [Samples.items_endpoint]).
Proof.
  apply (enforceMemoryLimits_keeps_the_latest CONFIG [Samples.items_endpoint]);
    simpl; lia.
Defined.

(** *** [checkWeakAuthentication] *)

Lemma unencrypted_fields_spec body names path value :
  In (path, value) (unencrypted_fields body names) <->
  (exists key, FieldAt body "" path key value /\ KeyMatches names key)
  /\ isEncryptedOrHashed value = false.
Proof.
  unfold unencrypted_fields, findFieldsInObjectWithValues.
  rewrite filter_In, negb_true_iff. cbn [snd]. split.
  - intros [Hin Hclear]. split; [| exact Hclear].
    apply search_sound in Hin as (key & Hat & Hk). exists key.
    split; [exact Hat | now apply key_matches_spec].
  - intros [(key & Hat & Hk) Hclear]. split; [| exact Hclear].
    eapply search_complete; [exact Hat | now apply key_matches_spec].
Qed.

Section Credentials.
Context {re : RegExpHost}.

Lemma credentials_check_spec context check names :
  has_type check "credentials_in_body" = true ->
  member check "fields" ≫= as_texts = Some names ->
  let clear := unencrypted_fields (ctx_requestBody context) names in
  credentials_check context check
  = Some (match clear with [] => [] | _ => [credentials_issue check clear.*1] end).
Proof.
  intros Htype Hfields clear. unfold credentials_check. rewrite Htype, Hfields.
  cbv beta iota zeta. fold clear.
  destruct (truthy (ctx_requestBody context) && typeof_object (ctx_requestBody context))
    eqn:Hbody.
  - destruct clear; reflexivity.
  - subst clear. unfold unencrypted_fields, findFieldsInObjectWithValues.
    now rewrite search_not_object.
Qed.

Lemma credentials_check_issue context check found issue :
  credentials_check context check = Some found -> In issue found ->
  exists names item rest,
    has_type check "credentials_in_body" = true
    /\ member check "fields" ≫= as_texts = Some names
    /\ unencrypted_fields (ctx_requestBody context) names = item :: rest
    /\ issue = credentials_issue check (item :: rest).*1.
Proof.
  unfold credentials_check.
  destruct (has_type check "credentials_in_body"); [| intros [= <-] []].
  destruct (truthy _ && typeof_object _); [| intros [= <-] []].
  destruct (member check "fields" ≫= as_texts) as [names|].
  - destruct (unencrypted_fields (ctx_requestBody context) names) as [|item rest] eqn:Hclear;
      [intros [= <-] [] |].
    intros [= <-] [<- | []]. exists names, item, rest. auto.
  - destruct (no_entries _); [intros [= <-] [] | discriminate].
Qed.

Lemma other_checks_location context check found issue :
  (basic_auth_check context check = Some found \/ api_key_check context check = Some found) ->
  In issue found -> i_location issue <> Some "body".
Proof.
  unfold basic_auth_check, api_key_check. intros [H | H] Hin; revert H.
  - destruct (has_type check "basic_auth"); [| intros [= <-]; destruct Hin].
    destruct (or_str _ _) as [value|]; [| intros [= <-]; destruct Hin].
    destruct (nonempty value); [| intros [= <-]; destruct Hin].
    destruct (test_pattern check value) as [[|]|]; intros [= <-];
      [destruct Hin as [<- | []]; discriminate | destruct Hin].
  - destruct (has_type check "api_key_in_query"); [| intros [= <-]; destruct Hin].
    destruct (member check "params" ≫= as_texts) as [params|]; [| discriminate].
    destruct (0 <? _); intros [= <-];
      [destruct Hin as [<- | []]; discriminate | destruct Hin].
Qed.

(** Property X24.  When [checkWeakAuthentication] returns, a check of type
    [credentials_in_body] is reported exactly when some field of the body
    whose key contains a configured name, letter case apart, holds a value
    that does not look encrypted or hashed; its finding lists the paths of
    those fields and of no other: a credential that looks encrypted is left
    out. *)
Theorem weak_authentication_reports_clear_credentials
    this context rs rule checks issues check names :
  rules this = Some rs ->
  assoc "weak-authentication" rs = Some rule ->
  as_array (setting rule "checks") = Some checks ->
  checkWeakAuthentication this context = Ok issues ->
  In check checks ->
  has_type check "credentials_in_body" = true ->
  member check "fields" ≫= as_texts = Some names ->
  let clear := unencrypted_fields (ctx_requestBody context) names in
  (In (credentials_issue check clear.*1) issues <-> clear <> [])
  /\ (forall path value,
        In (path, value) clear <->
        (exists key,
            FieldAt (ctx_requestBody context) "" path key value /\ KeyMatches names key)
        /\ isEncryptedOrHashed value = false).
Proof.
  intros Hrs Hrule Hchecks Hres Hin Htype Hfields clear.
  split; [| intros path value; apply unencrypted_fields_spec].
  revert Hres. unfold checkWeakAuthentication, with_rule. rewrite Hrs. cbv beta iota zeta.
  rewrite Hrule. cbn [mbind option_bind]. rewrite Hchecks.
  destruct (for_each (weak_authentication_check context) checks) as [found|] eqn:Hloop;
    [| discriminate].
  intros [= ->]. split.
  - intros Hissue Hempty.
    destruct (for_each_source _ _ _ _ Hloop Hissue) as (check' & turn & _ & Hturn & Hi).
    revert Hturn. unfold weak_authentication_check.
    destruct (member check' "type"); [| discriminate].
    destruct (basic_auth_check context check') as [basic|] eqn:Hbasic; [| discriminate].
    destruct (api_key_check context check') as [query|] eqn:Hquery; [| discriminate].
    destruct (credentials_check context check') as [body|] eqn:Hbody; [| discriminate].
    intros [= <-]. apply in_app_or in Hi as [Hi | Hi].
    { apply (other_checks_location context check' basic _ (or_introl Hbasic)) in Hi.
      now apply Hi. }
    apply in_app_or in Hi as [Hi | Hi].
    { apply (other_checks_location context check' query _ (or_intror Hquery)) in Hi.
      now apply Hi. }
    destruct (credentials_check_issue context check' body _ Hbody Hi)
      as (names' & item & rest & _ & _ & _ & Heq).
    rewrite Hempty in Heq. discriminate Heq.
  - intros Hclear.
    destruct (for_each_found _ _ _ _ Hloop Hin) as (turn & Hturn & Hall).
    apply Hall. revert Hturn. unfold weak_authentication_check.
    destruct (member check "type"); [| discriminate].
    destruct (basic_auth_check context check) as [basic|]; [| discriminate].
    destruct (api_key_check context check) as [query|]; [| discriminate].
    rewrite (credentials_check_spec context check names Htype Hfields). fold clear.
    intros [= <-]. apply in_or_app. right. apply in_or_app. right.
    destruct clear; [contradiction | now left].
Qed.

End Credentials.

Lemma weak_authentication_reports_clear_credentials_witness :
  let clear := unencrypted_fields Samples.signup_body ["password"; "secret"] in
  (In (credentials_issue Samples.credentials_check_entry clear.*1)
      [credentials_issue Samples.credentials_check_entry ["user.password"]]
   <-> clear <> [])
  /\ (forall path value,
        In (path, value) clear <->
        (exists key,
            FieldAt Samples.signup_body "" path key value
            /\ KeyMatches ["password"; "secret"] key)
        /\ isEncryptedOrHashed value = false).
Proof.
  apply (@weak_authentication_reports_clear_credentials Samples.no_match Samples.engine
           Samples.signup Samples.rule_table Samples.authentication_checks_rule
           [VObj Plain [("type", VStr "basic_auth"); ("pattern", VStr "^Basic ")];
            Samples.credentials_check_entry]
           [credentials_issue Samples.credentials_check_entry ["user.password"]]
           Samples.credentials_check_entry ["password"; "secret"]
           eq_refl eq_refl eq_refl eq_refl (or_intror (or_introl eq_refl)) eq_refl eq_refl).
Defined.

(** *** The schema export *)

Lemma assign_keys key value props name :
  In name (assign key value props).*1 <-> name = key \/ In name props.*1.
Proof.
  induction props as [|[k v] rest IH]; simpl; [intuition |].
  destruct (String.eqb_spec k key) as [-> | Hne]; simpl; [intuition |].
  rewrite IH. intuition.
Qed.

Lemma assign_nodup key value props : NoDup props.*1 -> NoDup (assign key value props).*1.
Proof.
  induction props as [|[k v] rest IH]; simpl; intros H.
  - apply NoDup_singleton.
  - destruct (String.eqb_spec k key) as [-> | Hne]; simpl; [exact H |].
    apply NoDup_cons in H as [Hk Hrest]. apply NoDup_cons. split; [| now apply IH].
    rewrite list_elem_of_In, assign_keys. rewrite list_elem_of_In in Hk. intuition.
Qed.

Lemma assign_forall (P : JsVal -> Prop) key value props :
  Forall (fun property => P (snd property)) props -> P value ->
  Forall (fun property => P (snd property)) (assign key value props).
Proof.
  intros Hall Hnew.
  induction Hall as [|[k v] rest Hkv Hrest IH]; simpl; [now constructor |].
  destruct (String.eqb k key); constructor; auto.
Qed.

Lemma clean_key_is_clean key : is_clean (clean_key key) = true.
Proof.
  unfold is_clean. induction key as [|c key IH]; [reflexivity |]. simpl. rewrite IH.
  destruct (Ascii.eqb_spec c "$") as [-> | H1]; [reflexivity |].
  destruct (Ascii.eqb_spec c "-") as [-> | H2]; [reflexivity |].
  simpl. destruct (Ascii.eqb_spec c "$"); [contradiction |].
  destruct (Ascii.eqb_spec c "-"); [contradiction | reflexivity].
Qed.

(** The invariant of the loop over the keys of a structure. *)
Lemma object_schema_loop (ps : list (string * JsVal)) :
  Forall (fun entry => Schema (convertToJsonSchema (snd entry))) ps ->
  forall properties required,
    Forall (fun property => Schema (snd property)) properties ->
    NoDup properties.*1 ->
    Forall (fun name => is_clean name = true) properties.*1 ->
    (forall name, In name required -> name = "__proto__" \/ In name properties.*1) ->
    Schema
      ((fix keys (ps : list (string * JsVal)) (properties : list (string * JsVal))
            (required : list string) : JsVal :=
          match ps with
          | [] => object_schema properties required
          | (key, value) :: rest =>
              let propSchema := convertToJsonSchema value in
              let cleanKey := clean_key key in
              keys rest (set_property cleanKey propSchema properties)
                   (if is_required value then required ++ [cleanKey] else required)
          end) ps properties required).
Proof.
  induction 1 as [|[key value] rest Hvalue _ IH]; intros properties required Hs Hn Hc Hr.
  - now constructor.
  - cbn [snd] in Hvalue. cbv zeta. apply IH.
    + unfold set_property. destruct (String.eqb _ "__proto__"); [exact Hs |].
      now apply assign_forall.
    + unfold set_property. destruct (String.eqb _ "__proto__"); [exact Hn |].
      now apply assign_nodup.
    + unfold set_property. destruct (String.eqb _ "__proto__"); [exact Hc |].
      apply Forall_forall. intros name Hin. apply list_elem_of_In, assign_keys in Hin.
      destruct Hin as [-> | Hin]; [apply clean_key_is_clean |].
      rewrite Forall_forall in Hc. now apply Hc, list_elem_of_In.
    + intros name Hin.
      assert (Hkeys : forall n, In n properties.*1 ->
                In n (set_property (clean_key key) (convertToJsonSchema value)
                        properties).*1).
      { intros n Hn'. unfold set_property.
        destruct (String.eqb _ "__proto__"); [exact Hn' |]. apply assign_keys. now right. }
      assert (Hold : In name required ->
                name = "__proto__"
                \/ In name (set_property (clean_key key) (convertToJsonSchema value)
                              properties).*1).
      { intros Hin'. destruct (Hr name Hin') as [-> | Hk]; [now left | right; auto]. }
      destruct (is_required value); [| now apply Hold].
      apply in_app_or in Hin as [Hin | [<- | []]]; [now apply Hold |].
      unfold set_property.
      destruct (String.eqb_spec (clean_key key) "__proto__") as [Hp | Hp]; [now left |].
      right. apply assign_keys. now left.
Qed.

(** Property X25.  Whatever structure it is given, [convertToJsonSchema]
    returns a well-formed schema: a type among [string], [number] and
    [boolean], a nullable string, an array with a well-formed schema for its
    items, or an object whose property names are distinct and hold neither
    dollar sign nor hyphen, whose properties have well-formed schemas, and
    whose required names are names of properties (the name [__proto__]
    apart, which is required without being a property). *)
Theorem convertToJsonSchema_well_formed (structure : JsVal) :
  Schema (convertToJsonSchema structure).
Proof.
  induction structure as [| | | |s|k props IH] using JsVal_nested_ind;
    try (apply (Schema_type "string"); simpl; auto).
  - simpl. repeat case_match; try (apply Schema_type; simpl; auto); apply Schema_nullable.
  - destruct k.
    + apply (object_schema_loop props IH [] []);
        [constructor | constructor | constructor | intros ? []].
    + cbn [convertToJsonSchema]. apply Schema_array.
      destruct IH as [|[key first] rest Hfirst _]; [apply (Schema_type "string"); simpl; auto |].
      exact Hfirst.
Qed.

(** *** The structure view *)

Lemma preorder_in k props entry :
  In entry (preorder (VObj k props)) <->
  exists key value, In (key, value) props /\ (entry = (key, value) \/ In entry (preorder value)).
Proof.
  induction props as [|[key value] rest IH].
  - simpl. split; [intros [] | intros (? & ? & [] & _)].
  - rewrite preorder_cons. cbn [In]. rewrite in_app_iff, IH. split.
    + intros [<- | [H | (key' & value' & Hin & H)]].
      * exists key, value. split; [now left | now left].
      * exists key, value. split; [now left | now right].
      * exists key', value'. split; [now right | exact H].
    + intros (key' & value' & [Heq | Hin] & H).
      * injection Heq as <- <-. destruct H as [-> | H]; [now left | right; now left].
      * right. right. now exists key', value'.
Qed.

Lemma hides_spec k props :
  HidesHasOwnProperty (VObj k props) <->
  (k = Plain /\ In "hasOwnProperty" props.*1)
  \/ exists key value, In (key, value) props /\ HidesHasOwnProperty value.
Proof.
  unfold HidesHasOwnProperty. split.
  - intros (ps & Hkey & [Heq | (key & Hin)]).
    + injection Heq as -> ->. now left.
    + right. apply preorder_in in Hin as (key' & value & Hin & [Heq | Hdeep]).
      * injection Heq as <- <-. exists key, (VObj Plain ps). split; [exact Hin |].
        exists ps. split; [exact Hkey | now left].
      * exists key', value. split; [exact Hin |]. exists ps. split; [exact Hkey |].
        right. now exists key.
  - intros [[-> Hkey] | (key & value & Hin & ps & Hkey & [-> | (key' & Hdeep)])].
    + exists props. split; [exact Hkey | now left].
    + exists ps. split; [exact Hkey |]. right. exists key. apply preorder_in.
      exists key, (VObj Plain ps). split; [exact Hin | now left].
    + exists ps. split; [exact Hkey |]. right. exists key'. apply preorder_in.
      exists key, value. split; [exact Hin | now right].
Qed.

Lemma hides_scalar v :
  (forall k props, v <> VObj k props) -> ~ HidesHasOwnProperty v.
Proof.
  intros Hv (ps & _ & [-> | (key & Hin)]); [now apply (Hv Plain ps) |].
  destruct v; try destruct Hin. now apply (Hv o l).
Qed.

Lemma stored_type_structure analyzed : Structure analyzed -> Structure (stored_type analyzed).
Proof.
  intros H. destruct H as [name Hname| | |]; try (simpl; now constructor).
  simpl. destruct Hname as [<- | [<- | [<- | [<- | []]]]]; simpl; constructor; simpl; auto.
Qed.

Lemma set_property_structure key value props :
  Forall (fun field => Structure (snd field)) props -> Structure value ->
  Forall (fun field => Structure (snd field)) (set_property key value props).
Proof.
  intros Hall Hvalue. unfold set_property.
  destruct (String.eqb key "__proto__"); [exact Hall | now apply assign_forall].
Qed.

(** Property X26.  [analyzeStructure] throws exactly on a value that is, or
    holds at some depth, an object with a property named [hasOwnProperty];
    on any other value it returns a type name among [string], [number],
    [boolean] and [null], an array of at most one structure, or an object of
    structures. *)
Theorem analyzeStructure_throws_on_hasOwnProperty (obj : JsVal) :
  (analyzeStructure obj = None <-> HidesHasOwnProperty obj)
  /\ (forall structure, analyzeStructure obj = Some structure -> Structure structure).
Proof.
  induction obj as [| | | | |k props IH] using JsVal_nested_ind;
    try (split;
         [split; [discriminate | intros H; exfalso; revert H; apply hides_scalar; discriminate]
         | simpl; intros structure [= <-]; constructor; simpl; auto 6]).
  destruct k.
  - (* an object *)
    cbn [analyzeStructure]. rewrite hides_spec.
    destruct (array_includes props.*1 "hasOwnProperty") eqn:Hown.
    { split; [| discriminate]. split; [| reflexivity]. intros _. left.
      split; [reflexivity |]. unfold array_includes in Hown.
      apply existsb_exists in Hown as (key & Hkey & Heq).
      apply String.eqb_eq in Heq. now subst. }
    assert (Hnot : ~ In "hasOwnProperty" props.*1).
    { intros Hin. unfold array_includes in Hown.
      assert (Ht : existsb (String.eqb "hasOwnProperty") props.*1 = true)
        by (apply existsb_exists; exists "hasOwnProperty"; split;
            [exact Hin | apply String.eqb_refl]).
      congruence. }
    clear Hown.
    assert (Hloop : forall structure,
               Forall (fun field => Structure (snd field)) structure ->
               let result :=
                 (fix fields (ps : list (string * JsVal)) (structure : list (string * JsVal))
                    : option JsVal :=
                    match ps with
                    | [] => Some (VObj Plain structure)
                    | (key, value) :: rest =>
                        match analyzeStructure value with
                        | None => None
                        | Some analyzed =>
                            fields rest (set_property key (stored_type analyzed) structure)
                        end
                    end) props structure in
               (result = None <->
                exists key value, In (key, value) props /\ HidesHasOwnProperty value)
               /\ (forall t, result = Some t -> Structure t)).
    { clear Hnot. induction IH as [|[key value] rest [Hnone Hsome] _ IHrest];
        intros structure Hstructure.
      - simpl. split; [split; [discriminate | intros (? & ? & [] & _)] |].
        intros t [= <-]. now constructor.
      - cbn [snd] in Hnone, Hsome. cbv zeta.
        destruct (analyzeStructure value) as [analyzed|] eqn:Hvalue.
        + destruct (IHrest (set_property key (stored_type analyzed) structure))
            as [Hnone' Hsome'].
          { apply set_property_structure; [exact Hstructure |].
            now apply stored_type_structure, Hsome. }
          split; [| exact Hsome'].
          rewrite Hnone'. split.
          * intros (key' & value' & Hin & Hh). exists key', value'. split; [now right | exact Hh].
          * intros (key' & value' & [Heq | Hin] & Hh); [| now exists key', value'].
            injection Heq as <- <-. apply Hnone in Hh. discriminate.
        + split; [| discriminate]. split; [| reflexivity].
          intros _. exists key, value. split; [now left | now apply Hnone]. }
    destruct (Hloop [] (List.Forall_nil _)) as [Hnone Hsome].
    split; [| exact Hsome]. rewrite Hnone. split; [now right |].
    intros [[_ Hin] | H]; [contradiction | exact H].
  - (* an array *)
    cbn [analyzeStructure]. rewrite hides_spec.
    assert (Hloop :
      let result :=
        (fix itemTypes (ps : list (string * JsVal)) : option (list JsVal) :=
           match ps with
           | [] => Some []
           | (_, item) :: rest =>
               match analyzeStructure item with
               | None => None
               | Some type => cons type <$> itemTypes rest
               end
           end) props in
      (result = None <->
       exists key value, In (key, value) props /\ HidesHasOwnProperty value)
      /\ (forall types, result = Some types -> Forall Structure types)).
    { induction IH as [|[key value] rest [Hnone Hsome] _ [IHnone IHsome]].
      - simpl. split; [split; [discriminate | intros (? & ? & [] & _)] |].
        intros types [= <-]. constructor.
      - cbn [snd] in Hnone, Hsome. cbv zeta.
        destruct (analyzeStructure value) as [type|] eqn:Hvalue.
        + split.
          * split.
            -- intros Hrest.
               match type of IHnone with
               | ?r = None <-> _ => destruct r as [types|] eqn:Htypes; [discriminate |]
               end.
               destruct (proj1 IHnone eq_refl) as (key' & value' & Hin & Hh).
               exists key', value'. split; [now right | exact Hh].
            -- intros (key' & value' & [Heq | Hin] & Hh).
               ++ injection Heq as <- <-. apply Hnone in Hh. discriminate.
               ++ assert (Hr := proj2 IHnone (ex_intro _ key' (ex_intro _ value' (conj Hin Hh)))).
                  now rewrite Hr.
          * intros types Htypes.
            match type of IHnone with
            | ?r = None <-> _ => destruct r as [more|]; [| discriminate]
            end.
            injection Htypes as <-. constructor; [now apply Hsome | now apply IHsome].
        + split; [| discriminate]. split; [| reflexivity].
          intros _. exists key, value. split; [now left | now apply Hnone]. }
    destruct Hloop as [Hnone Hsome].
    cbv zeta in Hnone, Hsome.
    match type of Hnone with
    | ?r = None <-> _ => destruct r as [[|first more]|]
    end.
    + split; [| intros structure [= <-]; apply Structure_empty].
      split; [discriminate |]. intros [[[=] _] | H]. now apply Hnone in H.
    + split; [| intros structure [= <-]; apply Structure_array;
                 specialize (Hsome _ eq_refl); now inversion Hsome].
      split; [discriminate |]. intros [[[=] _] | H]. now apply Hnone in H.
    + split; [| discriminate]. split; [| reflexivity].
      intros _. right. now apply Hnone.
Qed.
